(** * avail_wheels: tag parsing, collection, version reduction and sorting

    A shallow embedding of [avail_wheels.py].

    - Text is ASCII text: on ASCII characters [\w], [\d] and
      [str.casefold] are as they are defined here, and what they do on
      other characters, where they follow the Unicode tables of the
      interpreter, is not modelled.  The regular expression
      [Wheel.WHEEL_RE] is kept as a term of a small syntax of regular
      expressions and run by a backtracking matcher with the
      priorities of Python's [re] module: greedy repetitions try the
      longest choice first, lazy ones the shortest, and the first
      match found is the result.
    - Exceptions are values of the type [exn], and code that may raise
      lives in the sum [exn + A].
    - A [dict] is a list of bindings in insertion order.
    - [list.sort] and [sorted] are a stable insertion sort; the
      comparison of the keys may raise.
    - [distutils.version.LooseVersion] is modelled with its parser and
      its comparisons, which raise between a number and a word; [int]
      converts runs of at most 4300 digits, its default limit.
    - The wheelhouse is a function from paths to directory trees, and
      the matching of file names against the pattern of [fnmatch] is a
      parameter of [get_wheels]. *)

From Stdlib Require Import List String Ascii Bool Arith Lia NArith ZArith.
From Stdlib Require Import Permutation Sorted.
Import ListNotations.

Set Implicit Arguments.
Set Warnings "-register-all".

(** ** Exceptions *)

Inductive exn : Type :=
| Exception (msg : string)
| TypeError
| AttributeError
| IndexError
| KeyError (key : string).

Definition result (A : Type) : Type := (exn + A)%type.

Definition ret {A : Type} (a : A) : result A := inr a.
Definition raise {A : Type} (e : exn) : result A := inl e.

Definition bind {A B : Type} (m : result A) (f : A -> result B) : result B :=
  match m with
  | inl e => inl e
  | inr a => f a
  end.

Notation "x <- m ;; k" := (bind m (fun x => k))
  (at level 61, m at next level, right associativity).

(** ** Characters *)

Definition chars := list ascii.

Definition code (c : ascii) : nat := nat_of_ascii c.

Definition is_digit (c : ascii) : bool := (48 <=? code c) && (code c <=? 57).
Definition is_lower (c : ascii) : bool := (97 <=? code c) && (code c <=? 122).
Definition is_upper (c : ascii) : bool := (65 <=? code c) && (code c <=? 90).

(** The characters below 128, the ASCII characters.  Text is modelled
    where all its characters are ASCII: there [\w], [\d] and
    [str.casefold] are what is defined here.  On other characters they
    follow the Unicode tables of the interpreter, which are not
    modelled. *)
Definition is_ascii (c : ascii) : bool := code c <? 128.

(** [\w] on ASCII characters: letters, digits and the underscore. *)
Definition is_word (c : ascii) : bool :=
  is_digit c || is_lower c || is_upper c || Ascii.eqb c "_".

(** ** Regular expressions *)

Module Re.

(** The character sets that occur in [WHEEL_RE]: [\w], [[\w.]] and
    [[\+-]]. *)
Inductive charset : Type := Word | WordDot | PlusDash.

Definition mem (cs : charset) (c : ascii) : bool :=
  match cs with
  | Word => is_word c
  | WordDot => is_word c || Ascii.eqb c "."
  | PlusDash => Ascii.eqb c "+" || Ascii.eqb c "-"
  end.

(** The named groups of [WHEEL_RE]. *)
Inductive group : Type :=
| g_arch | g_name | g_version | g_build | g_python | g_abi | g_platform.

Definition group_eqb (g h : group) : bool :=
  match g, h with
  | g_arch, g_arch | g_name, g_name | g_version, g_version
  | g_build, g_build | g_python, g_python | g_abi, g_abi
  | g_platform, g_platform => true
  | _, _ => false
  end.

Inductive regex : Type :=
| Lit (c : ascii)              (* a literal character *)
| In_ (cs : charset)           (* one character of a set *)
| Cat (r1 r2 : regex)          (* r1 r2 *)
| Opt (r : regex)              (* (?:r)?   greedy *)
| Plus (r : regex)             (* (?:r)+   greedy *)
| StarLazy (r : regex)         (* (?:r)*?  lazy *)
| Grp (g : group) (r : regex). (* (?P<g>r) *)

(** The groups of a match object: [None] for a group that took no part
    in the match. *)
Definition marks := group -> option chars.

Definition no_marks : marks := fun _ => None.

Definition set_mark (g : group) (v : chars) (m : marks) : marks :=
  fun h => if group_eqb h g then Some v else m h.

(** The text between two positions, each given by the input that is
    left there. *)
Definition consumed (s s' : chars) : chars :=
  firstn (List.length s - List.length s') s.

Definition orelse {A : Type} (a b : option A) : option A :=
  match a with
  | Some x => Some x
  | None => b
  end.

Section Loops.
Variable R : Type.

(** One more round of a repeated body is entered only when the last
    one consumed input, as the engine of [re] does. *)
Definition progress (s s' : chars) (k : option R) : option R :=
  if List.length s' <? List.length s then k else None.

Variable body : chars -> marks -> (chars -> marks -> option R) -> option R.

(** Further rounds of a greedy repetition: another round first, the
    continuation after it. *)
Fixpoint greedy_loop (n : nat) (s : chars) (m : marks)
         (k : chars -> marks -> option R) : option R :=
  match n with
  | O => k s m
  | S n' =>
      orelse (body s m (fun s' m' => progress s s' (greedy_loop n' s' m' k)))
             (k s m)
  end.

(** Rounds of a lazy repetition: the continuation first, another
    round after it. *)
Fixpoint lazy_loop (n : nat) (s : chars) (m : marks)
         (k : chars -> marks -> option R) : option R :=
  match n with
  | O => k s m
  | S n' =>
      orelse (k s m)
             (body s m (fun s' m' => progress s s' (lazy_loop n' s' m' k)))
  end.
End Loops.

(** The backtracking matcher, in continuation-passing style: [run r s m k]
    matches [r] at the head of [s] and hands what is left, with the
    groups, to [k]; when [k] fails the next choice of [r] is tried. *)
Fixpoint run (R : Type) (r : regex) (s : chars) (m : marks)
         (k : chars -> marks -> option R) {struct r} : option R :=
  match r with
  | Lit c =>
      match s with
      | x :: s' => if Ascii.eqb x c then k s' m else None
      | [] => None
      end
  | In_ cs =>
      match s with
      | x :: s' => if mem cs x then k s' m else None
      | [] => None
      end
  | Cat r1 r2 => run r1 s m (fun s1 m1 => run r2 s1 m1 k)
  | Opt r1 => orelse (run r1 s m k) (k s m)
  | Plus r1 =>
      run r1 s m (fun s1 m1 => greedy_loop (run (R:=R) r1) (List.length s1) s1 m1 k)
  | StarLazy r1 => lazy_loop (run (R:=R) r1) (List.length s) s m k
  | Grp g r1 =>
      run r1 s m (fun s' m' => k s' (set_mark g (consumed s s') m'))
  end.

(** [re.match]: the pattern is tried at the start of the text only, and
    need not reach its end. *)
Definition rmatch (r : regex) (s : chars) : option marks :=
  run r s no_marks (fun _ m => Some m).

(** The matches of a pattern, without their order of preference:
    [matches r s m s' m'] when [r] matches the text that leads from [s]
    to its suffix [s'] and takes the groups from [m] to [m']. *)
Inductive matches : regex -> chars -> marks -> chars -> marks -> Prop :=
| M_Lit c s m :
    matches (Lit c) (c :: s) m s m
| M_In cs x s m :
    mem cs x = true -> matches (In_ cs) (x :: s) m s m
| M_Cat r1 r2 s m s1 m1 s2 m2 :
    matches r1 s m s1 m1 -> matches r2 s1 m1 s2 m2 ->
    matches (Cat r1 r2) s m s2 m2
| M_Opt_some r s m s' m' :
    matches r s m s' m' -> matches (Opt r) s m s' m'
| M_Opt_none r s m :
    matches (Opt r) s m s m
| M_Plus_one r s m s' m' :
    matches r s m s' m' -> matches (Plus r) s m s' m'
| M_Plus_more r s m s1 m1 s2 m2 :
    matches r s m s1 m1 -> matches (Plus r) s1 m1 s2 m2 ->
    matches (Plus r) s m s2 m2
| M_Star_nil r s m :
    matches (StarLazy r) s m s m
| M_Star_more r s m s1 m1 s2 m2 :
    matches r s m s1 m1 -> matches (StarLazy r) s1 m1 s2 m2 ->
    matches (StarLazy r) s m s2 m2
| M_Grp g r s m s' m' :
    matches r s m s' m' ->
    matches (Grp g r) s m s' (set_mark g (consumed s s') m').

End Re.

Import Re.

(** ** The wheel and its tags *)

(** [WHEEL_RE]:
    [(?P<arch>\w+)/(?P<name>[\w.]+)-(?P<version>(?:[\w\.]+)?)(?:[\+-](?P<build>\w+))*?-(?P<python>[\w\.]+)-(?P<abi>\w+)-(?P<platform>\w+)] *)
Definition WHEEL_RE : regex :=
  Cat (Grp g_arch (Plus (In_ Word)))
 (Cat (Lit "/")
 (Cat (Grp g_name (Plus (In_ WordDot)))
 (Cat (Lit "-")
 (Cat (Grp g_version (Opt (Plus (In_ WordDot))))
 (Cat (StarLazy (Cat (In_ PlusDash) (Grp g_build (Plus (In_ Word)))))
 (Cat (Lit "-")
 (Cat (Grp g_python (Plus (In_ WordDot)))
 (Cat (Lit "-")
 (Cat (Grp g_abi (Plus (In_ Word)))
 (Cat (Lit "-")
      (Grp g_platform (Plus (In_ Word))))))))))))).

Record Wheel : Type := mkWheel {
  filename : string;
  arch : string;
  name : string;
  version : string;
  build : option string;
  python : string;
  abi : string;
  platform : string
}.

(** [m.group(g)] for a group that took part in the match. *)
Definition group_str (m : marks) (g : group) : string :=
  match m g with
  | Some v => string_of_list_ascii v
  | None => EmptyString
  end.

(** [m.group(g)] in general: [None] when the group took no part. *)
Definition group_opt (m : marks) (g : group) : option string :=
  option_map string_of_list_ascii (m g).

Definition parse_error (wheel : string) : exn :=
  Exception ("Could not get tags for : " ++ wheel).

(** [Wheel(filename)], that is [__init__] with [parse=True]: the file
    name is kept and [parse_tags] sets the seven tags, or raises. *)
Definition parse_tags (wheel : string) : result Wheel :=
  match rmatch WHEEL_RE (list_ascii_of_string wheel) with
  | Some m =>
      ret {| filename := wheel;
             arch := group_str m g_arch;
             name := group_str m g_name;
             version := group_str m g_version;
             build := group_opt m g_build;
             python := group_str m g_python;
             abi := group_str m g_abi;
             platform := group_str m g_platform |}
  | None => raise (parse_error wheel)
  end.

(** ** distutils.version.LooseVersion *)

(** A component of a parsed version: an [int] or a [str]. *)
Inductive component : Type :=
| Num (n : N)
| Str (s : string).

(** The pieces that [component_re.split] tells apart, for
    [component_re = (\d+ | [a-z]+ | \.)]: runs of digits, runs of
    lower-case letters, and the runs of other characters left between
    two matches.  The dot is matched alone and closes the run before
    it. *)
Inductive kind : Type := KDigit | KLower | KOther.

Definition kind_eqb (a b : kind) : bool :=
  match a, b with
  | KDigit, KDigit | KLower, KLower | KOther, KOther => true
  | _, _ => false
  end.

Definition kind_of (c : ascii) : option kind :=
  if is_digit c then Some KDigit
  else if is_lower c then Some KLower
  else if Ascii.eqb c "." then None
  else Some KOther.

(** [[x for x in component_re.split(vstring) if x and x != '.']], each
    piece with its kind. *)
Fixpoint split_components (s : chars) : list (kind * chars) :=
  match s with
  | [] => []
  | c :: s' =>
      match kind_of c with
      | None => split_components s'
      | Some k =>
          match s' with
          | c' :: _ =>
              match kind_of c', split_components s' with
              | Some k', (_, run) :: rest =>
                  if kind_eqb k k' then (k, c :: run) :: rest
                  else (k, [c]) :: split_components s'
              | _, pieces => (k, [c]) :: pieces
              end
          | [] => [(k, [c])]
          end
      end
  end.

(** [int(obj)] on a run of decimal digits. *)
Definition int_of_digits (ds : chars) : N :=
  fold_left (fun acc c => (10 * acc + N.of_nat (code c - 48))%N) ds 0%N.

(** [sys.int_info.default_max_str_digits]: the longest run of digits
    that [int] converts. *)
Definition max_str_digits : nat := 4300.

(** [int(obj)] succeeds on the digit runs of at most [max_str_digits]
    digits and raises [ValueError] on every other piece, which stays a
    string. *)
Definition to_component (p : kind * chars) : component :=
  match p with
  | (KDigit, ds) =>
      if List.length ds <=? max_str_digits then Num (int_of_digits ds)
      else Str (string_of_list_ascii ds)
  | (_, cs) => Str (string_of_list_ascii cs)
  end.

Definition parse_version (vstring : string) : list component :=
  map to_component (split_components (list_ascii_of_string vstring)).

(** A [LooseVersion] object: its [version] attribute, which
    [__init__] leaves unset when the version string is empty. *)
Definition LooseVersion : Type := option (list component).

Definition mkLooseVersion (vstring : string) : LooseVersion :=
  match vstring with
  | EmptyString => None
  | _ => Some (parse_version vstring)
  end.

(** [==] between two components: an [int] never equals a [str]. *)
Definition component_eqb (a b : component) : bool :=
  match a, b with
  | Num x, Num y => N.eqb x y
  | Str x, Str y => String.eqb x y
  | _, _ => false
  end.

(** [<] between two components. *)
Definition component_lt (a b : component) : result bool :=
  match a, b with
  | Num x, Num y => ret (N.ltb x y)
  | Str x, Str y => ret (String.ltb x y)
  | _, _ => raise TypeError
  end.

(** [==], [<] and [>] between two lists of components. *)
Fixpoint list_eqb (a b : list component) : bool :=
  match a, b with
  | [], [] => true
  | x :: a', y :: b' => component_eqb x y && list_eqb a' b'
  | _, _ => false
  end.

Fixpoint list_lt (a b : list component) : result bool :=
  match a, b with
  | x :: a', y :: b' =>
      if component_eqb x y then list_lt a' b' else component_lt x y
  | [], _ :: _ => ret true
  | _, [] => ret false
  end.

Definition list_gt (a b : list component) : result bool := list_lt b a.

(** [LooseVersion._cmp]; the value [None] stands for the fall through
    at the end of the method. *)
Definition LooseVersion_cmp (self other : LooseVersion) : result (option Z) :=
  match self, other with
  | Some v, Some v' =>
      if list_eqb v v' then ret (Some 0%Z)
      else
        lt <- list_lt v v' ;;
        if lt then ret (Some (-1)%Z)
        else
          gt <- list_gt v v' ;;
          if gt then ret (Some 1%Z) else ret None
  | _, _ => raise AttributeError
  end.

(** [Version.__eq__] and [Version.__lt__]. *)
Definition LooseVersion_eq (self other : LooseVersion) : result bool :=
  c <- LooseVersion_cmp self other ;;
  ret (match c with Some 0%Z => true | _ => false end).

Definition LooseVersion_lt (self other : LooseVersion) : result bool :=
  c <- LooseVersion_cmp self other ;;
  match c with
  | Some z => ret (Z.ltb z 0)
  | None => raise TypeError
  end.

Definition loose_version (w : Wheel) : LooseVersion :=
  mkLooseVersion (version w).

(** [<] between two strings. *)
Definition str_lt (a b : string) : result bool := ret (String.ltb a b).

(** ** Sorting *)

Section Sort.
Variables (A K : Type).
Variable key : A -> K.
Variable lt : K -> K -> result bool.

(** [l.sort(key=key, reverse=True)]: a stable sort, greatest key
    first.  It is written as an insertion sort: an element moves
    behind those whose key is strictly greater and stays before the
    others.  The sort of CPython compares other pairs of keys; it
    returns the same list whenever the keys of the list are totally
    ordered by [lt], and like this one it raises on a list of two keys
    that [lt] cannot compare. *)
Fixpoint insert_desc (x : A) (l : list A) : result (list A) :=
  match l with
  | [] => ret [x]
  | y :: l' =>
      b <- lt (key x) (key y) ;;
      if b then r <- insert_desc x l' ;; ret (y :: r)
      else ret (x :: l)
  end.

Fixpoint sort_desc (l : list A) : result (list A) :=
  match l with
  | [] => ret []
  | x :: l' => r <- sort_desc l' ;; insert_desc x r
  end.

(** [sorted(l, key=key)]: a stable sort, least key first. *)
Fixpoint insert_asc (x : A) (l : list A) : result (list A) :=
  match l with
  | [] => ret [x]
  | y :: l' =>
      b <- lt (key y) (key x) ;;
      if b then r <- insert_asc x l' ;; ret (y :: r)
      else ret (x :: l)
  end.

Fixpoint sort_asc (l : list A) : result (list A) :=
  match l with
  | [] => ret []
  | x :: l' => r <- sort_asc l' ;; insert_asc x r
  end.
End Sort.

(** ** Dictionaries

    A [dict] keeps its keys in insertion order; it is a list of
    bindings with distinct keys. *)
Definition dict (V : Type) : Type := list (string * V).

Definition keys {V : Type} (d : dict V) : list string := map fst d.

Fixpoint dict_get {V : Type} (d : dict V) (k : string) : option V :=
  match d with
  | [] => None
  | (k', v) :: d' => if String.eqb k' k then Some v else dict_get d' k
  end.

(** [d[k]]. *)
Definition dict_item {V : Type} (d : dict V) (k : string) : result V :=
  match dict_get d k with
  | Some v => ret v
  | None => raise (KeyError k)
  end.

(** [if k in d: d[k].append(w) else: d[k] = [w]]. *)
Fixpoint dict_append {V : Type} (k : string) (w : V) (d : dict (list V))
  : dict (list V) :=
  match d with
  | [] => [(k, [w])]
  | (k', l) :: d' =>
      if String.eqb k' k then (k', l ++ [w]) :: d'
      else (k', l) :: dict_append k w d'
  end.

(** ** latest_versions *)

(** The loop over the sorted list: wheels are kept as long as their
    version equals the first one. *)
Fixpoint take_latest (latest : LooseVersion) (wheel_list : list Wheel)
  : result (list Wheel) :=
  match wheel_list with
  | [] => ret []
  | wheel :: rest =>
      same <- LooseVersion_eq latest (loose_version wheel) ;;
      if same then r <- take_latest latest rest ;; ret (wheel :: r)
      else ret []
  end.

(** The body of the loop over [wheels.items()], for one group. *)
Definition latest_group (wheel_list : list Wheel) : result (list Wheel) :=
  sorted <- sort_desc loose_version LooseVersion_lt wheel_list ;;
  match sorted with
  | [] => raise IndexError
  | first :: _ => take_latest (loose_version first) sorted
  end.

Fixpoint latest_versions (wheels : dict (list Wheel))
  : result (dict (list Wheel)) :=
  match wheels with
  | [] => ret []
  | (wheel_name, wheel_list) :: rest =>
      g <- latest_group wheel_list ;;
      r <- latest_versions rest ;;
      ret ((wheel_name, g) :: r)
  end.

(** ** sort *)

(** [AVAILABLE_HEADERS]: the attributes a column can name. *)
Inductive column : Type :=
| c_name | c_version | c_build | c_python | c_abi | c_platform | c_arch.

(** [getattr(wheel, column)]: a string, or [None] for a missing build
    tag. *)
Definition getattr (wheel : Wheel) (c : column) : option string :=
  match c with
  | c_name => Some (name wheel)
  | c_version => Some (version wheel)
  | c_build => build wheel
  | c_python => Some (python wheel)
  | c_abi => Some (abi wheel)
  | c_platform => Some (platform wheel)
  | c_arch => Some (arch wheel)
  end.

Definition lower (c : ascii) : ascii :=
  if is_upper c then ascii_of_nat (code c + 32) else c.

(** [s.casefold()] on ASCII text: the upper-case letters become
    lower-case letters. *)
Definition casefold (s : string) : string :=
  string_of_list_ascii (map lower (list_ascii_of_string s)).

(** The three sorts of one group. *)
Definition sort_group (wheel_list : list Wheel) : result (list Wheel) :=
  l1 <- sort_desc python str_lt wheel_list ;;
  l2 <- sort_desc arch str_lt l1 ;;
  sort_desc loose_version LooseVersion_lt l2.

Definition row (columns : list column) (wheel : Wheel) : list (option string) :=
  map (getattr wheel) columns.

Fixpoint sort_rows (wheels : dict (list Wheel)) (columns : list column)
         (wheel_names : list string) : result (list (list (option string))) :=
  match wheel_names with
  | [] => ret []
  | wheel_name :: rest =>
      wheel_list <- dict_item wheels wheel_name ;;
      sorted <- sort_group wheel_list ;;
      r <- sort_rows wheels columns rest ;;
      ret (map (row columns) sorted ++ r)
  end.

Definition sort (wheels : dict (list Wheel)) (columns : list column)
  : result (list (list (option string))) :=
  wheel_names <- sort_asc casefold str_lt (keys wheels) ;;
  sort_rows wheels columns wheel_names.

(** ** The wheelhouse on disk *)

(** A directory: its regular files and its subdirectories, in the order
    in which the system lists them. *)
Inductive dir : Type :=
| Dir (files : list string) (subdirs : list dir).

(** The [files] component of what [os.walk] yields, top-down, for the
    tree below a directory. *)
Fixpoint walk_dir (d : dir) : list (list string) :=
  match d with
  | Dir files subdirs => files :: flat_map walk_dir subdirs
  end.

(** The directory found at a path, if there is one. *)
Definition filesystem : Type := string -> option dir.

(** [os.walk(top)]: with no [onerror] handler a top that cannot be
    listed yields nothing. *)
Definition os_walk (fs : filesystem) (top : string) : list (list string) :=
  match fs top with
  | Some d => walk_dir d
  | None => []
  end.

(** ** get_wheels *)

Definition COMPATIBLE_PYTHON : dict (list string) :=
  [("2.7", ["py2.py3"; "py2"; "cp27"]);
   ("3.5", ["py2.py3"; "py3"; "cp35"]);
   ("3.6", ["py2.py3"; "py3"; "cp36"]);
   ("3.7", ["py2.py3"; "py3"; "cp37"])]%string.

Arguments COMPATIBLE_PYTHON : simpl never.

(** [x in l] for a list of strings. *)
Definition str_in (x : string) (l : list string) : bool :=
  existsb (fun y => String.eqb y x) l.

(** A [for] loop whose body updates a state and may raise. *)
Fixpoint for_each {A S : Type} (body : S -> A -> result S) (l : list A) (s : S)
  : result S :=
  match l with
  | [] => ret s
  | x :: l' => s' <- body s x ;; for_each body l' s'
  end.

Section Collector.
(** [fnmatch rex file] stands for
    [re.match(re.compile(fnmatch.translate(rex), re.IGNORECASE), file)]. *)
Variable fnmatch : string -> string -> bool.
Variable fs : filesystem.

(** The loop over [pythons], left at the first version the wheel is
    compatible with. *)
Fixpoint pythons_loop (wheel : Wheel) (pythons : list string)
         (wheels : dict (list Wheel)) : result (dict (list Wheel)) :=
  match pythons with
  | [] => ret wheels
  | p :: rest =>
      tags <- dict_item COMPATIBLE_PYTHON p ;;
      if str_in (python wheel) tags
      then ret (dict_append (name wheel) wheel wheels)
      else pythons_loop wheel rest wheels
  end.

(** The body of the loop over the files of a directory. *)
Definition visit_file (arch rex : string) (pythons : list string)
           (wheels : dict (list Wheel)) (file : string)
  : result (dict (list Wheel)) :=
  if fnmatch rex file then
    wheel <- parse_tags (arch ++ "/" ++ file) ;;
    pythons_loop wheel pythons wheels
  else ret wheels.

Definition visit_arch (path rex : string) (pythons : list string)
           (wheels : dict (list Wheel)) (arch : string)
  : result (dict (list Wheel)) :=
  for_each (fun wheels files => for_each (visit_file arch rex pythons) files wheels)
           (os_walk fs (path ++ "/" ++ arch)) wheels.

Definition get_wheels (path : string) (archs : list string)
           (name version : string) (pythons : list string) (latest : bool)
  : result (dict (list Wheel)) :=
  let rex := (name ++ "*" ++ version ++ "*.whl")%string in
  wheels <- for_each (visit_arch path rex pythons) archs [] ;;
  if latest then latest_versions wheels else ret wheels.
End Collector.

(** Modelled from the spec: [is_compatible], which the tests call and
    [avail_wheels.py] does not define.  It is false when no run-time
    version is requested, and otherwise true when the tag of the wheel
    is in the compatible set of one of the requested versions. *)
Definition is_compatible (wheel : Wheel) (pythons : option (list string)) : bool :=
  match pythons with
  | None => false
  | Some ps =>
      existsb (fun p => match dict_get COMPATIBLE_PYTHON p with
                        | Some tags => str_in (python wheel) tags
                        | None => false
                        end) ps
  end.

(** A matcher for the patterns without bracket expressions, with which
    the examples are run: [*] stands for any text, [?] for any
    character, every other character for itself, letters without
    regard to case. *)
Fixpoint glob (pat s : chars) : bool :=
  match pat with
  | [] => match s with [] => true | _ :: _ => false end
  | p :: pat' =>
      if Ascii.eqb p "*" then
        (fix star (s : chars) : bool :=
           glob pat' s || match s with [] => false | _ :: s' => star s' end) s
      else
        match s with
        | [] => false
        | c :: s' =>
            (Ascii.eqb p "?" || Ascii.eqb (lower p) (lower c)) && glob pat' s'
        end
  end.

Definition glob_match (pat file : string) : bool :=
  glob (list_ascii_of_string pat) (list_ascii_of_string file).

(** The number of occurrences of a character in a text. *)
Fixpoint count (c : ascii) (s : chars) : nat :=
  match s with
  | [] => 0
  | x :: s' => (if Ascii.eqb x c then 1 else 0) + count c s'
  end.

Definition dashes (f : string) : nat := count "-" (list_ascii_of_string f).
Definition pluses (f : string) : nat := count "+" (list_ascii_of_string f).

(** ** Orders

    The comparisons of Python as total orders, to reason about the
    sorts: they agree with [<] and [==] wherever these do not raise.
    Between an [int] and a [str], which Python does not compare, the
    [int] is put first. *)

Definition is_lt (c : comparison) : bool :=
  match c with Lt => true | _ => false end.

Definition is_eq (c : comparison) : bool :=
  match c with Eq => true | _ => false end.

Definition component_compare (a b : component) : comparison :=
  match a, b with
  | Num x, Num y => N.compare x y
  | Str x, Str y => String.compare x y
  | Num _, Str _ => Lt
  | Str _, Num _ => Gt
  end.

Fixpoint list_compare (a b : list component) : comparison :=
  match a, b with
  | [], [] => Eq
  | [], _ :: _ => Lt
  | _ :: _, [] => Gt
  | x :: a', y :: b' =>
      match component_compare x y with
      | Eq => list_compare a' b'
      | c => c
      end
  end.

Definition LooseVersion_compare (a b : LooseVersion) : comparison :=
  match a, b with
  | Some v, Some v' => list_compare v v'
  | None, None => Eq
  | None, Some _ => Lt
  | Some _, None => Gt
  end.

(** The value of [_cmp] for an outcome of the order. *)
Definition code_of (c : comparison) : Z :=
  match c with Eq => 0%Z | Lt => (-1)%Z | Gt => 1%Z end.

(** A comparison function that is a total order. *)
Record total_order {K : Type} (cmp : K -> K -> comparison) : Prop := {
  cmp_eq : forall a b, cmp a b = Eq <-> a = b;
  cmp_antisym : forall a b, cmp b a = CompOpp (cmp a b);
  cmp_trans : forall a b c, cmp a b = Lt -> cmp b c = Lt -> cmp a c = Lt
}.

(** Two versions that [LooseVersion._cmp] can compare. *)
Definition comparable (a b : LooseVersion) : bool :=
  match LooseVersion_cmp a b with
  | inr _ => true
  | inl _ => false
  end.

(** The versions of a list of wheels can all be compared with each
    other, and each with itself. *)
Definition all_comparable (l : list Wheel) : bool :=
  forallb (fun a => forallb (fun b => comparable (loose_version a) (loose_version b)) l) l.

Section PureSort.
Variables (A K : Type).
Variable key : A -> K.
Variable cmp : K -> K -> comparison.

(** The stable sort, greatest key first, for a comparison that does not
    raise. *)
Fixpoint pinsert (x : A) (l : list A) : list A :=
  match l with
  | [] => [x]
  | y :: l' =>
      if is_lt (cmp (key x) (key y)) then y :: pinsert x l' else x :: l
  end.

Fixpoint psort (l : list A) : list A :=
  match l with
  | [] => []
  | x :: l' => pinsert x (psort l')
  end.

(** [a] may stand before [b]: its key is greater, or the keys are equal
    and [R] lets it stand before [b]. *)
Definition lex (R : A -> A -> Prop) (a b : A) : Prop :=
  cmp (key a) (key b) = Gt \/ (cmp (key a) (key b) = Eq /\ R a b).
End PureSort.

(** The version of [w] is maximal in [l]: [<] finds it below no
    version of [l]. *)
Definition is_latest (l : list Wheel) (w : Wheel) : bool :=
  forallb (fun w' =>
             match LooseVersion_lt (loose_version w) (loose_version w') with
             | inr false => true
             | _ => false
             end) l.

(** [[Wheel(f) for f in files]]. *)
Fixpoint wheels_of (files : list string) : result (list Wheel) :=
  match files with
  | [] => ret []
  | f :: rest =>
      w <- parse_tags f ;;
      ws <- wheels_of rest ;;
      ret (w :: ws)
  end.

(** The group of the test of [latest_versions], and what is left of
    it. *)
Definition netCDF4_files : list string :=
  rev ["avx2/netCDF4-1.3.2-cp36-cp36m-linux_x86_64.whl";
       "avx2/netCDF4-1.3.2-cp35-cp35m-linux_x86_64.whl";
       "avx2/netCDF4-1.3.2-cp27-cp27mu-linux_x86_64.whl";
       "avx2/netCDF4-1.3.1-cp36-cp36m-linux_x86_64.whl";
       "avx2/netCDF4-1.3.1-cp36-cp36m-linux_x86_64.whl";
       "avx2/netCDF4-1.3.1-cp36-cp36m-linux_x86_64.whl";
       "avx2/netCDF4-1.2.0-cp36-cp36m-linux_x86_64.whl";
       "avx2/netCDF4-1.3-cp36-cp36m-linux_x86_64.whl"]%string.

Definition netCDF4_latest_files : list string :=
  ["avx2/netCDF4-1.3.2-cp27-cp27mu-linux_x86_64.whl";
   "avx2/netCDF4-1.3.2-cp35-cp35m-linux_x86_64.whl";
   "avx2/netCDF4-1.3.2-cp36-cp36m-linux_x86_64.whl"]%string.

(** The order of [sort] inside a group: [a] may stand before [b] when
    its version is greater, or the versions are equal and its
    architecture is greater, or these are equal too and its python tag
    is greater or equal. *)
Definition before (a b : Wheel) : Prop :=
  LooseVersion_lt (loose_version b) (loose_version a) = inr true \/
  (LooseVersion_eq (loose_version a) (loose_version b) = inr true /\
   (String.ltb (arch b) (arch a) = true \/
    (arch a = arch b /\
     (String.ltb (python b) (python a) = true \/ python a = python b)))).

(** The order of the group names: the case-folded names do not
    decrease. *)
Definition name_before (a b : string) : Prop :=
  String.ltb (casefold b) (casefold a) = false.

(** The comparison with its arguments exchanged. *)
Definition flip_compare {K : Type} (cmp : K -> K -> comparison) (a b : K)
  : comparison := cmp b a.

(** [HEADERS], the columns shown by default. *)
Definition HEADERS : list column := [c_name; c_version; c_build; c_python; c_arch].

(** The group of the test of [sort]. *)
Definition sort_files : list string :=
  rev ["avx/netCDF4-1.3.1-cp27-cp27mu-linux_x86_64.whl";
       "avx/netCDF4-1.3.1-cp35-cp35m-linux_x86_64.whl";
       "avx/netCDF4-1.3.1-cp36-cp36m-linux_x86_64.whl";
       "avx2/netCDF4-1.3.1-cp27-cp27mu-linux_x86_64.whl";
       "avx2/netCDF4-1.3.1-cp35-cp35m-linux_x86_64.whl";
       "avx2/netCDF4-1.3.1-cp36-cp36m-linux_x86_64.whl";
       "sse3/netCDF4-1.3.1-cp27-cp27mu-linux_x86_64.whl";
       "sse3/netCDF4-1.3.1-cp35-cp35m-linux_x86_64.whl";
       "sse3/netCDF4-1.3.1-cp36-cp36m-linux_x86_64.whl";
       "generic/netCDF4-1.4.0-cp27-cp27mu-linux_x86_64.whl";
       "generic/netCDF4-1.2.8-cp27-cp27mu-linux_x86_64.whl"]%string.

Definition sort_output : list (list (option string)) :=
  (map (fun r => match r with
                | (v, py, ar) => [Some "netCDF4"; Some v; None; Some py; Some ar]
                end)
      [("1.4.0", "cp27", "generic");
       ("1.3.1", "cp36", "sse3"); ("1.3.1", "cp35", "sse3"); ("1.3.1", "cp27", "sse3");
       ("1.3.1", "cp36", "avx2"); ("1.3.1", "cp35", "avx2"); ("1.3.1", "cp27", "avx2");
       ("1.3.1", "cp36", "avx"); ("1.3.1", "cp35", "avx"); ("1.3.1", "cp27", "avx");
       ("1.2.8", "cp27", "generic")])%string.

(** The tag of the wheel is in the compatible set of one of the
    versions. *)
Definition compatible (wheel : Wheel) (pythons : list string) : bool :=
  existsb (fun p => match dict_get COMPATIBLE_PYTHON p with
                    | Some tags => str_in (python wheel) tags
                    | None => false
                    end) pythons.

(** The files that [get_wheels] visits, each with its architecture, in
    the order of the visit. *)
Definition traversed (fs : filesystem) (path : string) (archs : list string)
  : list (string * string) :=
  flat_map (fun arch => map (pair arch) (List.concat (os_walk fs (path ++ "/" ++ arch))))
           archs.



(** The versions that [COMPATIBLE_PYTHON] knows. *)
Definition supported (p : string) : bool :=
  match dict_get COMPATIBLE_PYTHON p with
  | Some _ => true
  | None => false
  end.

Definition AVAILABLE_PYTHONS : list string := ["2.7"; "3.5"; "3.6"; "3.7"]%string.

Definition AVAILABLE_ARCHITECTURES : list string :=
  ["avx"; "avx2"; "sse3"; "generic"]%string.

(** The wheelhouse of the tests of [get_wheels]: the same five files
    under each architecture. *)
Definition raw_filenames : list string :=
  ["netCDF4-1.3.1-cp27-cp27mu-linux_x86_64.whl";
   "netCDF4-1.3.1-cp35-cp35m-linux_x86_64.whl";
   "netCDF4-1.2.0-cp36-cp36m-linux_x86_64.whl";
   "netCDF4-1.3.1-cp36-cp36m-linux_x86_64.whl";
   "torch_cpu-0.4.0-cp36-cp36m-linux_x86_64.whl"]%string.

Definition test_house : filesystem :=
  fun top =>
    if existsb (fun a => String.eqb top ("wheelhouse_test_dir/" ++ a))
               AVAILABLE_ARCHITECTURES
    then Some (Dir raw_filenames [])
    else None.


(** A tag: a non-empty text over a character set. *)
Definition token (cs : charset) (t : chars) : bool :=
  match t with
  | [] => false
  | _ :: _ => forallb (mem cs) t
  end.

(** The text starts with a character of the set. *)
Definition starts_in (cs : charset) (t : chars) : bool :=
  match t with
  | [] => false
  | c :: _ => mem cs c
  end.

(** The text starts with a word character. *)
Definition starts_word (t : chars) : bool := starts_in Word t.

(** The groups of a match that reads the six tags [a], [n], [v], [p],
    [ab] and [pl] and no build. *)
Definition plain_marks (a n v p ab pl : chars) : marks :=
  set_mark g_platform pl
    (set_mark g_abi ab
       (set_mark g_python p
          (set_mark g_version v
             (set_mark g_name n (set_mark g_arch a no_marks))))).

(** ** The language of the pattern *)

(** The pattern can match the empty text. *)
Fixpoint nullable (r : regex) : bool :=
  match r with
  | Lit _ | In_ _ => false
  | Cat r1 r2 => nullable r1 && nullable r2
  | Opt _ | StarLazy _ => true
  | Plus r1 | Grp _ r1 => nullable r1
  end.

(** No repetition of the pattern has a body that can match the empty
    text. *)
Fixpoint progressing (r : regex) : bool :=
  match r with
  | Lit _ | In_ _ => true
  | Cat r1 r2 => progressing r1 && progressing r2
  | Opt r1 | Grp _ r1 => progressing r1
  | Plus r1 | StarLazy r1 => negb (nullable r1) && progressing r1
  end.

(** The rounds of the build tag: each one a plus or a dash, and a
    word. *)
Inductive rounds : chars -> Prop :=
| rounds_nil : rounds []
| rounds_cons sep w bs :
    mem PlusDash sep = true -> token Word w = true -> rounds bs ->
    rounds (sep :: w ++ bs).

(** The file names of the grammar of [WHEEL_RE]: the tags, their
    separators, the rounds of the build tag after the version, and any
    text at the end. *)
Definition wheel_name (s : chars) : Prop :=
  exists a n v bs p ab pl rest,
    s = a ++ "/"%char :: n ++ "-"%char :: v ++ bs ++
        "-"%char :: p ++ "-"%char :: ab ++ "-"%char :: pl ++ rest /\
    token Word a = true /\ token WordDot n = true /\
    forallb (mem WordDot) v = true /\ rounds bs /\
    token WordDot p = true /\ token Word ab = true /\ token Word pl = true.

(** A version followed by local parts, each behind a plus sign, as in
    [1.6.0+computecanada]. *)
Definition plus_builds (ws : list chars) : chars :=
  flat_map (fun w => "+"%char :: w) ws.

(** The build group after the rounds that read the parts [ws]. *)
Definition build_marks (ws : list chars) (m : marks) : marks :=
  fold_left (fun m w => set_mark g_build w m) ws m.

(** The part that the build group holds in the end: the last one. *)
Definition last_build (ws : list chars) : option string :=
  last (map (fun w => Some (string_of_list_ascii w)) ws) None.

(** A version made of digits and dots only, and not empty. *)
Definition numeric (v : string) : bool :=
  match v with
  | EmptyString => false
  | _ => forallb (fun c => is_digit c || Ascii.eqb c ".") (list_ascii_of_string v)
  end.

(** A component that is an [int]. *)
Definition is_num (c : component) : bool :=
  match c with Num _ => true | Str _ => false end.

(** The group of a name in a mapping, empty for a name that is not a
    key. *)
Definition group_of (d : dict (list Wheel)) (n : string) : list Wheel :=
  match dict_get d n with
  | Some g => g
  | None => []
  end.

(** All the wheels of a mapping, group after group. *)
Definition all_wheels (d : dict (list Wheel)) : list Wheel := flat_map snd d.

(** A mapping as [get_wheels] builds it: the names are distinct, no
    group is empty, and every wheel stands in the group of its name. *)
Definition well_grouped (d : dict (list Wheel)) : Prop :=
  NoDup (keys d) /\
  forall n g, In (n, g) d -> g <> [] /\ forall w, In w g -> name w = n.

(** The wheel was made from a visited file that matches the pattern,
    and its python tag is compatible with a requested version. *)
Definition collected (fnmatch : string -> string -> bool) (rex : string)
           (pythons : list string) (visited : list (string * string))
           (w : Wheel) : Prop :=
  exists a f, In (a, f) visited /\ fnmatch rex f = true /\
              parse_tags (a ++ "/" ++ f) = inr w /\
              compatible w pythons = true.

(** ** main *)

(** The arguments of the command, as [parse_args] returns them. *)
Module Args.
Record t : Type := mk {
  version : string;
  all_versions : bool;
  arch : list string;
  python : list string;
  name : string;
  house : string;
  raw : bool;
  mediawiki : bool;
  column : list column
}.
End Args.

(** What [main] writes: the file names of the wheels, one [print] for
    each group, or the table that [tabulate] is given, with its headers
    and its format. *)
Inductive output : Type :=
| Raw (groups : list (list string))
| Table (rows : list (list (option string))) (headers : list column)
        (tablefmt : string).

(** [d.values()]. *)
Definition values {V : Type} (d : dict V) : list V := map snd d.

(** [Wheel.__str__]. *)
Definition Wheel_str (w : Wheel) : string := filename w.

Definition main (fnmatch : string -> string -> bool) (fs : filesystem)
           (args : Args.t) : result output :=
  wheels <- get_wheels fnmatch fs (Args.house args) (Args.arch args)
                       (Args.name args) (Args.version args) (Args.python args)
                       (negb (Args.all_versions args)) ;;
  if Args.raw args then ret (Raw (map (map Wheel_str) (values wheels)))
  else
    rows <- sort wheels (Args.column args) ;;
    ret (Table rows (Args.column args)
               (if Args.mediawiki args then "mediawiki" else "simple")%string).



(** ** ASCII text *)

Definition ascii_text (s : chars) : bool := forallb is_ascii s.

Definition ascii_name (s : string) : bool := ascii_text (list_ascii_of_string s).

(** The versions of the wheels of a list are ASCII text. *)
Definition ascii_versions (l : list Wheel) : bool :=
  forallb (fun w => ascii_name (version w)) l.

(** The text is at its end or goes on with an ASCII character that is
    not a word character: a run of word characters ends here. *)
Definition word_end (rest : chars) : bool :=
  match rest with
  | [] => true
  | c :: _ => is_ascii c && negb (is_word c)
  end.

(** A segment that is no tag over a character set, whatever the
    interpreter takes for word characters outside ASCII: it is empty or
    holds an ASCII character that is not in the set. *)
Definition bad_tag (cs : charset) (t : chars) : bool :=
  match t with
  | [] => true
  | _ :: _ => existsb (fun c => is_ascii c && negb (mem cs c)) t
  end.

(** A segment that does not start with a word character: it is empty
    or starts with an ASCII character that is not one. *)
Definition bad_start (t : chars) : bool :=
  match t with
  | [] => true
  | c :: _ => is_ascii c && negb (is_word c)
  end.

(** The versions of every two wheels of a list can be compared, each
    with the other.  No wheel is compared with itself, so that a group
    of one wheel is as it should be whatever its version. *)
Fixpoint pairwise_comparable (l : list Wheel) : bool :=
  match l with
  | [] => true
  | a :: l' =>
      forallb (fun b => comparable (loose_version a) (loose_version b) &&
                        comparable (loose_version b) (loose_version a)) l' &&
      pairwise_comparable l'
  end.

(** * Properties *)

Ltac inv H := inversion H; subst; clear H.

(** ** The matcher finds matches of the pattern only *)

Section RunSound.
Variable R : Type.

Lemma orelse_some (a b : option R) (x : R) :
  orelse a b = Some x -> a = Some x \/ b = Some x.
Proof. destruct a; simpl; auto. Qed.

Lemma progress_some (s s' : chars) (k : option R) (x : R) :
  progress s s' k = Some x -> k = Some x.
Proof. unfold progress. destruct (_ <? _); congruence. Qed.

Lemma greedy_loop_sound (r : regex) (k : chars -> marks -> option R) (res : R) :
  (forall s m k', run r s m k' = Some res ->
     exists s' m', matches r s m s' m' /\ k' s' m' = Some res) ->
  forall n s m,
    greedy_loop (run (R:=R) r) n s m k = Some res ->
    exists s' m',
      ((s' = s /\ m' = m) \/ matches (Plus r) s m s' m') /\ k s' m' = Some res.
Proof.
  intros IH n. induction n as [|n IHn]; intros s m H; simpl in H.
  - exists s, m. auto.
  - apply orelse_some in H. destruct H as [H|H].
    + apply IH in H. destruct H as (s1 & m1 & Hm & Hk).
      apply progress_some, IHn in Hk.
      destruct Hk as (s2 & m2 & [[E1 E2]|Hp] & Hk); exists s2, m2; split; auto.
      * subst. right. now apply M_Plus_one.
      * right. eapply M_Plus_more; eauto.
    + exists s, m. auto.
Qed.

Lemma lazy_loop_sound (r : regex) (k : chars -> marks -> option R) (res : R) :
  (forall s m k', run r s m k' = Some res ->
     exists s' m', matches r s m s' m' /\ k' s' m' = Some res) ->
  forall n s m,
    lazy_loop (run (R:=R) r) n s m k = Some res ->
    exists s' m', matches (StarLazy r) s m s' m' /\ k s' m' = Some res.
Proof.
  intros IH n. induction n as [|n IHn]; intros s m H; simpl in H.
  - exists s, m. split; [constructor|assumption].
  - apply orelse_some in H. destruct H as [H|H].
    + exists s, m. split; [constructor|assumption].
    + apply IH in H. destruct H as (s1 & m1 & Hm & Hk).
      apply progress_some, IHn in Hk. destruct Hk as (s2 & m2 & Hs & Hk).
      exists s2, m2. split; [eapply M_Star_more; eauto|assumption].
Qed.

Lemma run_sound (r : regex) :
  forall s m (k : chars -> marks -> option R) res,
    run r s m k = Some res ->
    exists s' m', matches r s m s' m' /\ k s' m' = Some res.
Proof.
  induction r as [c|cs|r1 IH1 r2 IH2|r IH|r IH|r IH|g r IH];
    intros s m k res H; simpl in H.
  - destruct s as [|x s]; [discriminate|].
    destruct (Ascii.eqb_spec x c) as [->|]; [|discriminate].
    exists s, m. split; [constructor|assumption].
  - destruct s as [|x s]; [discriminate|].
    destruct (mem cs x) eqn:E; [|discriminate].
    exists s, m. split; [now constructor|assumption].
  - apply IH1 in H. destruct H as (s1 & m1 & H1 & H).
    apply IH2 in H. destruct H as (s2 & m2 & H2 & H).
    exists s2, m2. split; [econstructor; eauto|assumption].
  - apply orelse_some in H. destruct H as [H|H].
    + apply IH in H. destruct H as (s1 & m1 & H1 & H).
      exists s1, m1. split; [now apply M_Opt_some|assumption].
    + exists s, m. split; [apply M_Opt_none|assumption].
  - apply IH in H. destruct H as (s1 & m1 & H1 & H).
    apply greedy_loop_sound in H; [|intros; now apply IH].
    destruct H as (s2 & m2 & [[E1 E2]|Hp] & H); exists s2, m2; split; auto.
    + subst. now apply M_Plus_one.
    + eapply M_Plus_more; eauto.
  - apply lazy_loop_sound in H; [assumption|intros; now apply IH].
  - apply IH in H. destruct H as (s1 & m1 & H1 & H).
    exists s1, (set_mark g (consumed s s1) m1). split; [now constructor|assumption].
Qed.
End RunSound.

(** ** The bound on the rounds of a repetition

    A round must consume input, so a repetition on a text of length [n]
    has at most [n] rounds: a greater bound gives the same result. *)

Section RunFuel.
Variable R : Type.

Lemma greedy_loop_ext (body : chars -> marks -> (chars -> marks -> option R) -> option R) :
  (forall s m k1 k2, (forall s' m', k1 s' m' = k2 s' m') ->
                     body s m k1 = body s m k2) ->
  forall n s m k1 k2,
    (forall s' m', k1 s' m' = k2 s' m') ->
    greedy_loop body n s m k1 = greedy_loop body n s m k2.
Proof.
  intros Hb n. induction n as [|n IH]; intros s m k1 k2 H; simpl; [apply H|].
  rewrite (H s m). f_equal. apply Hb. intros s' m'.
  unfold progress. destruct (_ <? _); [now apply IH|reflexivity].
Qed.

Lemma lazy_loop_ext (body : chars -> marks -> (chars -> marks -> option R) -> option R) :
  (forall s m k1 k2, (forall s' m', k1 s' m' = k2 s' m') ->
                     body s m k1 = body s m k2) ->
  forall n s m k1 k2,
    (forall s' m', k1 s' m' = k2 s' m') ->
    lazy_loop body n s m k1 = lazy_loop body n s m k2.
Proof.
  intros Hb n. induction n as [|n IH]; intros s m k1 k2 H; simpl; [apply H|].
  rewrite (H s m). f_equal. apply Hb. intros s' m'.
  unfold progress. destruct (_ <? _); [now apply IH|reflexivity].
Qed.

Lemma run_ext (r : regex) :
  forall s m (k1 k2 : chars -> marks -> option R),
    (forall s' m', k1 s' m' = k2 s' m') -> run r s m k1 = run r s m k2.
Proof.
  induction r as [c|cs|r1 IH1 r2 IH2|r IH|r IH|r IH|g r IH];
    intros s m k1 k2 H; simpl.
  - destruct s as [|x s]; [reflexivity|]. now rewrite H.
  - destruct s as [|x s]; [reflexivity|]. now rewrite H.
  - apply IH1. intros s1 m1. now apply IH2.
  - now rewrite (IH s m k1 k2 H), H.
  - apply IH. intros s1 m1. now apply greedy_loop_ext.
  - now apply lazy_loop_ext.
  - apply IH. intros s1 m1. apply H.
Qed.

Lemma run_fail (r : regex) :
  forall s m (k : chars -> marks -> option R),
    (forall s' m', k s' m' = None) -> run r s m k = None.
Proof.
  induction r as [c|cs|r1 IH1 r2 IH2|r IH|r IH|r IH|g r IH];
    intros s m k H; simpl.
  - destruct s as [|x s]; [reflexivity|]. destruct (Ascii.eqb x c); auto.
  - destruct s as [|x s]; [reflexivity|]. destruct (mem cs x); auto.
  - apply IH1. intros s1 m1. now apply IH2.
  - now rewrite IH, H.
  - apply IH. intros s1 m1. generalize (List.length s1) as n. intros n.
    revert s1 m1. induction n as [|n IHn]; intros s1 m1; simpl; [apply H|].
    rewrite IH, H; [reflexivity|].
    intros s2 m2. unfold progress. destruct (_ <? _); [apply IHn|reflexivity].
  - generalize (List.length s) as n. intros n. revert s m.
    induction n as [|n IHn]; intros s m; simpl; [apply H|].
    rewrite H. simpl. apply IH.
    intros s2 m2. unfold progress. destruct (_ <? _); [apply IHn|reflexivity].
  - apply IH. intros s1 m1. apply H.
Qed.

Lemma greedy_loop_fuel (r : regex) (k : chars -> marks -> option R) :
  forall n1 n2 s m,
    List.length s <= n1 -> List.length s <= n2 ->
    greedy_loop (run (R:=R) r) n1 s m k = greedy_loop (run (R:=R) r) n2 s m k.
Proof.
  assert (Hnil : forall n m, greedy_loop (run (R:=R) r) n [] m k = k [] m).
  { intros [|n] m; simpl; [reflexivity|]. now rewrite run_fail. }
  intros n1. induction n1 as [|n1 IH]; intros n2 s m H1 H2.
  - destruct s; [|simpl in H1; lia]. now rewrite !Hnil.
  - destruct n2 as [|n2].
    + destruct s; [|simpl in H2; lia]. now rewrite !Hnil.
    + simpl. f_equal. apply run_ext. intros s' m'. unfold progress.
      destruct (Nat.ltb_spec (List.length s') (List.length s));
        [apply IH; lia|reflexivity].
Qed.

Lemma lazy_loop_fuel (r : regex) (k : chars -> marks -> option R) :
  forall n1 n2 s m,
    List.length s <= n1 -> List.length s <= n2 ->
    lazy_loop (run (R:=R) r) n1 s m k = lazy_loop (run (R:=R) r) n2 s m k.
Proof.
  assert (Hnil : forall n m, lazy_loop (run (R:=R) r) n [] m k = k [] m).
  { intros [|n] m; simpl; [reflexivity|]. rewrite run_fail; [|reflexivity].
    now destruct (k [] m). }
  intros n1. induction n1 as [|n1 IH]; intros n2 s m H1 H2.
  - destruct s; [|simpl in H1; lia]. now rewrite !Hnil.
  - destruct n2 as [|n2].
    + destruct s; [|simpl in H2; lia]. now rewrite !Hnil.
    + simpl. f_equal. apply run_ext. intros s' m'. unfold progress.
      destruct (Nat.ltb_spec (List.length s') (List.length s));
        [apply IH; lia|reflexivity].
Qed.
End RunFuel.

Lemma rmatch_sound (r : regex) (s : chars) (m : marks) :
  rmatch r s = Some m -> exists s', matches r s no_marks s' m.
Proof.
  unfold rmatch. intros H. apply run_sound in H.
  destruct H as (s' & m' & H & E). inv E. now exists s'.
Qed.

Lemma consumed_app (t s : chars) : consumed (t ++ s) s = t.
Proof.
  unfold consumed. rewrite length_app, Nat.add_sub.
  rewrite firstn_app, Nat.sub_diag, firstn_all. simpl. apply app_nil_r.
Qed.

(** A repeated character set matches a non-empty run of its characters
    and touches no group. *)
Lemma matches_plus_set (cs : charset) s m s' m' :
  matches (Plus (In_ cs)) s m s' m' ->
  m' = m /\ exists t, t <> [] /\ Forall (fun c => mem cs c = true) t /\ s = t ++ s'.
Proof.
  remember (Plus (In_ cs)) as r eqn:E. intros H.
  induction H; inv E.
  - inv H. split; [reflexivity|]. exists [x]. repeat split; auto. discriminate.
  - inv H. destruct (IHmatches2 eq_refl) as (Em & t & Ht & Hall & Es). subst.
    split; [reflexivity|]. exists (x :: t). repeat split; auto. discriminate.
Qed.

(** Takes apart the matches of the patterns that leave no choice. *)
Ltac inv_matches :=
  repeat match goal with
         | H : matches (Cat _ _) _ _ _ _ |- _ => inv H
         | H : matches (Lit _) _ _ _ _ |- _ => inv H
         | H : matches (In_ _) _ _ _ _ |- _ => inv H
         | H : matches (Grp _ _) _ _ _ _ |- _ => inv H
         | H : matches (Plus (In_ _)) _ _ _ _ |- _ =>
             apply matches_plus_set in H;
             let t := fresh "t" in
             destruct H as (? & t & ? & ? & ?); subst
         end.

Lemma consumed_nil (s : chars) : consumed s s = [].
Proof. unfold consumed. now rewrite Nat.sub_diag. Qed.

(** The rounds of the build tag: each one is a plus or a dash and a
    word, and the group keeps the word of the last round. *)
Lemma matches_builds s m s' m' :
  matches (StarLazy (Cat (In_ PlusDash) (Grp g_build (Plus (In_ Word))))) s m s' m' ->
  exists bs,
    s = bs ++ s' /\
    (forall g, g <> g_build -> m' g = m g) /\
    ((bs = [] /\ m' g_build = m g_build) \/
     (exists pre sep w,
         bs = pre ++ sep :: w /\ mem PlusDash sep = true /\ w <> [] /\
         Forall (fun c => mem Word c = true) w /\ m' g_build = Some w)).
Proof.
  remember (StarLazy (Cat (In_ PlusDash) (Grp g_build (Plus (In_ Word))))) as r eqn:E.
  intros H. induction H; inv E.
  - exists []. repeat split; auto.
  - destruct (IHmatches2 eq_refl) as (bs2 & Es & Hother & Hb). clear IHmatches1 IHmatches2.
    subst. inv_matches. rewrite consumed_app in *.
    match goal with H : Forall _ ?t |- _ => rename t into w end.
    exists (x :: w ++ bs2). split; [simpl; now rewrite <- app_assoc|]. split.
    + intros g Hg. rewrite Hother by assumption.
      unfold set_mark. destruct g; simpl; congruence.
    + right. destruct Hb as [[-> Hb]|(pre & sep & w' & -> & Hsep & Hw' & Hall' & Hb)].
      * exists [], x, w. rewrite app_nil_r. repeat split; auto.
      * exists (x :: w ++ pre), sep, w'. simpl. rewrite <- app_assoc.
        repeat split; auto.
Qed.

Lemma matches_grp_plus (g : group) (cs : charset) s m s' m' :
  matches (Grp g (Plus (In_ cs))) s m s' m' ->
  exists t, (t <> [] /\ Forall (fun c => mem cs c = true) t) /\
            s = t ++ s' /\ m' = set_mark g t m.
Proof.
  intros H. inv_matches. rewrite consumed_app. eauto.
Qed.

Lemma matches_grp_opt (g : group) (cs : charset) s m s' m' :
  matches (Grp g (Opt (Plus (In_ cs)))) s m s' m' ->
  exists t, Forall (fun c => mem cs c = true) t /\
            s = t ++ s' /\ m' = set_mark g t m.
Proof.
  intros H. inv H.
  match goal with H : matches (Opt _) _ _ _ _ |- _ => inv H end.
  - inv_matches. rewrite consumed_app. eauto.
  - rewrite consumed_nil. exists []. auto.
Qed.

(** What a match of [WHEEL_RE] looks like: the text splits into the
    tags and their separators, and every group holds its tag. *)
Lemma WHEEL_RE_sound (s : chars) (m : marks) :
  rmatch WHEEL_RE s = Some m ->
  exists a n v bs p ab pl rest,
    s = a ++ "/"%char :: n ++ "-"%char :: v ++ bs ++
        "-"%char :: p ++ "-"%char :: ab ++ "-"%char :: pl ++ rest /\
    (m g_arch = Some a /\ m g_name = Some n /\ m g_version = Some v /\
     m g_python = Some p /\ m g_abi = Some ab /\ m g_platform = Some pl) /\
    (a <> [] /\ Forall (fun c => mem Word c = true) a) /\
    (n <> [] /\ Forall (fun c => mem WordDot c = true) n) /\
    Forall (fun c => mem WordDot c = true) v /\
    (p <> [] /\ Forall (fun c => mem WordDot c = true) p) /\
    (ab <> [] /\ Forall (fun c => mem Word c = true) ab) /\
    (pl <> [] /\ Forall (fun c => mem Word c = true) pl) /\
    ((bs = [] /\ m g_build = None) \/
     (exists pre sep w,
         bs = pre ++ sep :: w /\ mem PlusDash sep = true /\ w <> [] /\
         Forall (fun c => mem Word c = true) w /\ m g_build = Some w)).
Proof.
  intros H. apply rmatch_sound in H. destruct H as (s' & H).
  unfold WHEEL_RE in H.
  repeat match goal with
         | H : matches (Cat _ _) _ _ _ _ |- _ => inv H
         | H : matches (Lit _) _ _ _ _ |- _ => inv H
         end.
  repeat match goal with
         | H : matches (Grp _ (Plus _)) _ _ _ _ |- _ =>
             apply matches_grp_plus in H; destruct H as (? & ? & ? & ?)
         | H : matches (Grp _ (Opt _)) _ _ _ _ |- _ =>
             apply matches_grp_opt in H; destruct H as (? & ? & ? & ?)
         | H : matches (StarLazy _) _ _ _ _ |- _ =>
             apply matches_builds in H; destruct H as (? & ? & ? & ?)
         end.
  subst.
  match goal with
  | Hb : _ \/ _, Ho : forall g, g <> g_build -> _ |- _ =>
      exists x3, x2, x4, x5, x1, x0, x, s';
      unfold set_mark at 1 2 3 4 5 6 7 8 9 10 11 12 13 14 15 16 17 18; simpl;
      rewrite !Ho by discriminate; unfold set_mark in Hb |- *; simpl in Hb |- *;
      repeat split; tauto
  end.
Qed.

(** ** The first choice of the matcher

    A greedy repetition of a character set takes the whole run of
    characters of the set when the rest of the pattern matches behind
    it, and a lazy repetition makes no round when the rest of the
    pattern matches without one. *)

Section FirstChoice.
Variable R : Type.

Lemma greedy_loop_set (cs : charset) (rest : chars) (m : marks)
      (k : chars -> marks -> option R) (res : R) :
  starts_in cs rest = false -> k rest m = Some res ->
  forall t n,
    Forall (fun c => mem cs c = true) t -> List.length (t ++ rest) <= n ->
    greedy_loop (run (R:=R) (In_ cs)) n (t ++ rest) m k = Some res.
Proof.
  intros Hr Hk t. induction t as [|c t IH]; intros n Ht Hn.
  - destruct n as [|n]; simpl; [assumption|].
    destruct rest as [|c rest]; simpl; [assumption|].
    simpl in Hr. now rewrite Hr.
  - destruct n as [|n]; [simpl in Hn; lia|]. inv Ht.
    cbn [greedy_loop app run]. rewrite H1. unfold progress.
    replace (List.length (t ++ rest) <? List.length (c :: t ++ rest)) with true
      by (symmetry; apply Nat.ltb_lt; simpl; lia).
    rewrite IH; [reflexivity|assumption|simpl in Hn; lia].
Qed.

Lemma run_plus_set (cs : charset) (t rest : chars) (m : marks)
      (k : chars -> marks -> option R) (res : R) :
  token cs t = true -> starts_in cs rest = false -> k rest m = Some res ->
  run (Plus (In_ cs)) (t ++ rest) m k = Some res.
Proof.
  intros Ht Hr Hk. destruct t as [|c t]; [discriminate|].
  simpl in Ht. apply andb_true_iff in Ht. destruct Ht as (Hc & Ht).
  cbn [run app]. rewrite Hc.
  apply greedy_loop_set; auto.
  now apply Forall_forall, forallb_forall.
Qed.

Lemma run_grp_plus_set (g : group) (cs : charset) (t rest : chars) (m : marks)
      (k : chars -> marks -> option R) (res : R) :
  token cs t = true -> starts_in cs rest = false ->
  k rest (set_mark g t m) = Some res ->
  run (Grp g (Plus (In_ cs))) (t ++ rest) m k = Some res.
Proof.
  intros Ht Hr Hk. cbn [run]. fold (run (R:=R) (Plus (In_ cs))).
  apply run_plus_set; [assumption|assumption|]. now rewrite consumed_app.
Qed.

Lemma run_set_fail (cs : charset) (rest : chars) (m : marks)
      (k : chars -> marks -> option R) :
  starts_in cs rest = false -> run (In_ cs) rest m k = None.
Proof.
  destruct rest as [|c rest]; simpl; [reflexivity|]. now intros ->.
Qed.

Lemma run_grp_opt_set (g : group) (cs : charset) (t rest : chars) (m : marks)
      (k : chars -> marks -> option R) (res : R) :
  forallb (mem cs) t = true -> starts_in cs rest = false ->
  k rest (set_mark g t m) = Some res ->
  run (Grp g (Opt (Plus (In_ cs)))) (t ++ rest) m k = Some res.
Proof.
  intros Ht Hr Hk.
  change (orelse
            (run (Plus (In_ cs)) (t ++ rest) m
                 (fun s' m' => k s' (set_mark g (consumed (t ++ rest) s') m')))
            (k (t ++ rest) (set_mark g (consumed (t ++ rest) (t ++ rest)) m))
          = Some res).
  destruct t as [|c t].
  - change (run (Plus (In_ cs)) ([] ++ rest) m ?k')
      with (run (In_ cs) rest m
                (fun s1 m1 => greedy_loop (run (R:=R) (In_ cs)) (List.length s1) s1 m1 k')).
    rewrite run_set_fail by assumption. simpl. now rewrite consumed_nil.
  - rewrite (run_plus_set cs (c :: t) rest m _ (res:=res)); auto.
    now rewrite consumed_app.
Qed.

Lemma lazy_loop_none (body : chars -> marks -> (chars -> marks -> option R) -> option R)
      (n : nat) (s : chars) (m : marks) (k : chars -> marks -> option R) (res : R) :
  k s m = Some res -> lazy_loop body n s m k = Some res.
Proof.
  intros Hk. destruct n; simpl; [assumption|]. now rewrite Hk.
Qed.
End FirstChoice.

Lemma run_cat (R : Type) (r1 r2 : regex) (s : chars) (m : marks)
      (k : chars -> marks -> option R) :
  run (Cat r1 r2) s m k = run r1 s m (fun s1 m1 => run r2 s1 m1 k).
Proof. reflexivity. Qed.

Lemma run_lit (R : Type) (c : ascii) (s : chars) (m : marks)
      (k : chars -> marks -> option R) :
  run (Lit c) (c :: s) m k = k s m.
Proof. simpl. now rewrite Ascii.eqb_refl. Qed.

(** Steps over a tag and the separator behind it. *)
Ltac first_choice :=
  rewrite run_cat;
  first [ apply run_grp_plus_set | apply run_grp_opt_set | apply lazy_loop_none ];
  [ try assumption; try reflexivity .. | cbv beta; rewrite ?run_cat, ?run_lit ].

(** A file name that reads as six tags without a build, the version
    possibly empty, is matched that way, whatever follows the word
    characters of the platform. *)
Lemma WHEEL_RE_plain (a n v p ab pl rest : chars) :
  token Word a = true -> token WordDot n = true ->
  forallb (mem WordDot) v = true -> token WordDot p = true ->
  token Word ab = true -> token Word pl = true ->
  starts_in Word rest = false ->
  rmatch WHEEL_RE
         (a ++ "/"%char :: n ++ "-"%char :: v ++ "-"%char :: p ++
            "-"%char :: ab ++ "-"%char :: pl ++ rest)
  = Some (plain_marks a n v p ab pl).
Proof.
  intros Ha Hn Hv Hp Hab Hpl Hrest.
  unfold rmatch, WHEEL_RE.
  first_choice. first_choice. first_choice.
  change (run (StarLazy ?r) ?s ?m ?k)
    with (lazy_loop (run (R:=marks) r) (List.length s) s m k).
  apply lazy_loop_none. rewrite ?run_cat, ?run_lit.
  first_choice. first_choice.
  apply run_grp_plus_set; [assumption|assumption|reflexivity].
Qed.

(** The tags of a file name that reads without a build. *)
Lemma parse_tags_plain (a n v p ab pl rest : chars) :
  token Word a = true -> token WordDot n = true ->
  forallb (mem WordDot) v = true -> token WordDot p = true ->
  token Word ab = true -> token Word pl = true ->
  starts_in Word rest = false ->
  let f := string_of_list_ascii
             (a ++ "/"%char :: n ++ "-"%char :: v ++ "-"%char :: p ++
                "-"%char :: ab ++ "-"%char :: pl ++ rest) in
  parse_tags f =
    inr (mkWheel f (string_of_list_ascii a) (string_of_list_ascii n)
                 (string_of_list_ascii v) None (string_of_list_ascii p)
                 (string_of_list_ascii ab) (string_of_list_ascii pl)).
Proof.
  intros Ha Hn Hv Hp Hab Hpl Hrest f. unfold parse_tags, f.
  rewrite list_ascii_of_string_of_list_ascii.
  rewrite WHEEL_RE_plain by assumption. reflexivity.
Qed.

(** ** parse_tags *)

Lemma parse_tags_inr (f : string) (w : Wheel) :
  parse_tags f = inr w ->
  exists m, rmatch WHEEL_RE (list_ascii_of_string f) = Some m /\
            w = mkWheel f (group_str m g_arch) (group_str m g_name)
                        (group_str m g_version) (group_opt m g_build)
                        (group_str m g_python) (group_str m g_abi)
                        (group_str m g_platform).
Proof.
  unfold parse_tags. destruct (rmatch WHEEL_RE _) as [m|]; [|discriminate].
  intros H. inv H. eauto.
Qed.

Lemma parse_tags_inl (f : string) (e : exn) :
  parse_tags f = inl e -> e = parse_error f.
Proof.
  unfold parse_tags. destruct (rmatch WHEEL_RE _); intros H; now inv H.
Qed.

Lemma count_app (c : ascii) (s t : chars) :
  count c (s ++ t) = count c s + count c t.
Proof. induction s as [|x s IH]; simpl; [reflexivity|rewrite IH; lia]. Qed.

Lemma count_set_zero (cs : charset) (c : ascii) (t : chars) :
  mem cs c = false -> Forall (fun x => mem cs x = true) t -> count c t = 0.
Proof.
  intros Hc H. induction H as [|x t Hx _ IH]; simpl; [reflexivity|].
  destruct (Ascii.eqb_spec x c) as [->|]; [congruence|assumption].
Qed.

Lemma string_of_list_ascii_nil (t : chars) :
  string_of_list_ascii t = EmptyString -> t = [].
Proof. destruct t; simpl; [reflexivity|discriminate]. Qed.

(** A file name in which a match is found has the four dashes of the
    mandatory separators, and one sign more for a build tag. *)
Lemma WHEEL_RE_dashes (s : chars) (m : marks) :
  rmatch WHEEL_RE s = Some m ->
  4 <= count "-" s /\
  (forall b, m g_build = Some b ->
             b <> [] /\ 5 <= count "-" s + count "+" s).
Proof.
  intros H. apply WHEEL_RE_sound in H.
  destruct H as (a & n & v & bs & p & ab & pl & rest & -> & _ & _ & _ & _ & _ & _ & _ & Hb).
  repeat (rewrite ?count_app; simpl). split; [lia|].
  intros b E. destruct Hb as [[_ Hb]|(pre & sep & w & -> & Hsep & Hw & _ & Hb)];
    [congruence|].
  rewrite Hb in E. inv E. split; [assumption|].
  repeat (rewrite ?count_app; simpl).
  simpl in Hsep. apply orb_true_iff in Hsep. destruct Hsep as [E|E]; rewrite E.
  - destruct (Ascii.eqb_spec sep "-"); lia.
  - lia.
Qed.

Lemma parse_tags_dashes (f : string) (w : Wheel) :
  parse_tags f = inr w ->
  4 <= dashes f /\
  build w <> Some EmptyString /\
  (build w <> None -> 5 <= dashes f + pluses f).
Proof.
  intros H. apply parse_tags_inr in H. destruct H as (m & Hm & ->).
  apply WHEEL_RE_dashes in Hm. destruct Hm as (H4 & Hb).
  unfold dashes, pluses, group_opt. simpl. split; [assumption|].
  destruct (m g_build) as [b|]; simpl.
  - destruct (Hb b eq_refl) as (Hne & H5). split; [|intros _; assumption].
    intros E. inv E. now apply string_of_list_ascii_nil in H0.
  - split; [discriminate|congruence].
Qed.

Lemma token_true (cs : charset) (t : chars) :
  t <> [] -> Forall (fun c => mem cs c = true) t -> token cs t = true.
Proof.
  intros Hne H. destruct t as [|c t]; [congruence|].
  unfold token. now apply forallb_forall, Forall_forall.
Qed.

(** A text is cut at the first occurrence of a character in one way
    only. *)
Lemma split_first (c : ascii) (x x' y y' : chars) :
  count c x = 0 -> count c x' = 0 ->
  x ++ c :: y = x' ++ c :: y' -> x = x' /\ y = y'.
Proof.
  revert x'. induction x as [|a x IH]; intros [|a' x'] Hx Hx' E; simpl in *.
  - inv E. auto.
  - inv E. rewrite Ascii.eqb_refl in Hx'. discriminate.
  - inv E. rewrite Ascii.eqb_refl in Hx. discriminate.
  - inv E. destruct (Ascii.eqb a' c); [discriminate|].
    destruct (IH x' Hx Hx' H1) as (-> & ->). auto.
Qed.

(** With four dashes only, the tags of a match are the texts between
    the dashes. *)
Lemma WHEEL_RE_segments (a n v p ab pl : chars) (m : marks) :
  count "/" a = 0 -> count "-" n = 0 -> count "-" v = 0 -> count "-" p = 0 ->
  count "-" ab = 0 -> count "-" pl = 0 ->
  rmatch WHEEL_RE
         (a ++ "/"%char :: n ++ "-"%char :: v ++ "-"%char :: p ++
            "-"%char :: ab ++ "-"%char :: pl) = Some m ->
  token WordDot p = true /\ token Word ab = true /\ starts_word pl = true /\
  m g_python = Some p /\ m g_abi = Some ab.
Proof.
  intros Ha Hn Hv Hp Hab Hpl H. apply WHEEL_RE_sound in H.
  destruct H as (a' & n' & v' & bs & p' & ab' & pl' & rest & E & Hm
                 & (_ & Ha') & (_ & Hn') & Hv' & (Hp1 & Hp') & (Hab1 & Hab')
                 & (Hpl1 & Hpl') & _).
  destruct Hm as (_ & _ & _ & Hmp & Hmab & _).
  apply (count_set_zero Word "/" eq_refl) in Ha'.
  apply (count_set_zero WordDot "-" eq_refl) in Hn'.
  apply (count_set_zero WordDot "-" eq_refl) in Hv'.
  pose proof (count_set_zero WordDot "-" eq_refl Hp') as Hp0.
  pose proof (count_set_zero Word "-" eq_refl Hab') as Hab0.
  apply split_first in E; [|assumption|assumption]. destruct E as (<- & E).
  apply split_first in E; [|assumption|assumption]. destruct E as (<- & E).
  assert (Hc : count "-" bs = 0 /\ count "-" (pl' ++ rest) = 0).
  { apply (f_equal (count "-")) in E.
    repeat (rewrite ?count_app in E; simpl in E). rewrite count_app. lia. }
  destruct Hc as (Hbs & Hr).
  rewrite app_assoc in E.
  apply split_first in E; [|assumption|rewrite count_app; lia]. destruct E as (_ & E).
  apply split_first in E; [|assumption|assumption]. destruct E as (<- & E).
  apply split_first in E; [|assumption|assumption]. destruct E as (<- & E).
  subst pl. repeat split; auto using token_true.
  destruct pl' as [|c pl']; [congruence|]. simpl. now inv Hpl'.
Qed.

(** The tags of a parsed wheel are tags of the grammar: every group
    but the build takes part in a match, and holds a non-empty text
    (the version may be empty). *)
Lemma parse_tags_tokens (f : string) (w : Wheel) :
  parse_tags f = inr w ->
  token Word (list_ascii_of_string (arch w)) = true /\
  token WordDot (list_ascii_of_string (name w)) = true /\
  forallb (mem WordDot) (list_ascii_of_string (version w)) = true /\
  token WordDot (list_ascii_of_string (python w)) = true /\
  token Word (list_ascii_of_string (abi w)) = true /\
  token Word (list_ascii_of_string (platform w)) = true /\
  (forall b, build w = Some b -> token Word (list_ascii_of_string b) = true).
Proof.
  intros H. apply parse_tags_inr in H. destruct H as (m & Hm & ->).
  apply WHEEL_RE_sound in Hm.
  destruct Hm as (a & n & v & bs & p & ab & pl & rest & _ & Hg
                  & (Ha1 & Ha) & (Hn1 & Hn) & Hv & (Hp1 & Hp) & (Hab1 & Hab)
                  & (Hpl1 & Hpl) & Hb).
  destruct Hg as (Ea & En & Ev & Ep & Eab & Epl).
  unfold group_str, group_opt. simpl. rewrite Ea, En, Ev, Ep, Eab, Epl.
  rewrite !list_ascii_of_string_of_list_ascii.
  repeat split; auto using token_true.
  - now apply forallb_forall, Forall_forall.
  - intros b E. destruct Hb as [[_ Hb]|(pre & sep & x & _ & _ & Hx1 & Hx & Hb)];
      rewrite Hb in E; simpl in E; [discriminate|].
    inv E. rewrite list_ascii_of_string_of_list_ascii. now apply token_true.
Qed.

(** C2: parsing "avx2/netCDF4-1.3.1-cp36-cp36m-linux_x86_64.whl" gives
    the tags avx2, netCDF4, 1.3.1, no build, cp36, cp36m and
    linux_x86_64; parsing
    "avx/tensorflow_cpu-1.6.0+computecanada-cp36-cp36m-linux_x86_64.whl"
    gives the build computecanada and the version 1.6.0; and the build
    of a parsed wheel is never the empty string: it is [None] whenever
    the file name has no build tag, that is, has no plus sign and only
    the four dashes of the mandatory separators. *)
Theorem parse_tags_build :
  parse_tags "avx2/netCDF4-1.3.1-cp36-cp36m-linux_x86_64.whl" =
    inr (mkWheel "avx2/netCDF4-1.3.1-cp36-cp36m-linux_x86_64.whl"
                 "avx2" "netCDF4" "1.3.1" None "cp36" "cp36m" "linux_x86_64") /\
  (exists w,
      parse_tags "avx/tensorflow_cpu-1.6.0+computecanada-cp36-cp36m-linux_x86_64.whl"
        = inr w /\
      build w = Some "computecanada"%string /\ version w = "1.6.0"%string) /\
  (forall f w,
      parse_tags f = inr w ->
      build w <> Some EmptyString /\
      (dashes f = 4 -> pluses f = 0 -> build w = None)).
Proof.
  split; [vm_compute; reflexivity|]. split.
  - eexists. split; [vm_compute; reflexivity|]. split; reflexivity.
  - intros f w H. apply parse_tags_dashes in H. destruct H as (_ & Hne & H5).
    split; [assumption|]. intros Hd Hp.
    destruct (build w); [|reflexivity].
    assert (5 <= dashes f + pluses f) by (apply H5; discriminate). lia.
Qed.

Lemma parse_tags_build_witness :
  let f := "generic/backports.functools_lru_cache-1.4-py2.py3-none-any.whl"%string in
  let w := mkWheel f "generic" "backports.functools_lru_cache" "1.4" None
                   "py2.py3" "none" "any" in
  parse_tags f = inr w /\ dashes f = 4 /\ pluses f = 0 /\
  build w <> Some EmptyString /\ build w = None.
Proof.
  intros f w.
  assert (E : parse_tags f = inr w) by (vm_compute; reflexivity).
  destruct (proj2 (proj2 parse_tags_build) f w E) as (H1 & H2).
  split; [exact E|]. split; [reflexivity|]. split; [reflexivity|].
  split; [exact H1|apply H2; reflexivity].
Defined.

Lemma token_word_dot (t : chars) : token Word t = true -> token WordDot t = true.
Proof.
  destruct t as [|c t]; [discriminate|]. unfold token.
  rewrite !forallb_forall. intros H x Hx. specialize (H x Hx).
  simpl in *. now rewrite H.
Qed.

(** C3 (what the code does with a dash-separated build tag): for every
    file name arch/name-version-build-python-abi-platform.ext whose
    build, python and abi tags are words, the build is [None], the
    build tag is taken for the python tag, the python tag for the abi
    tag and the abi tag for the platform tag; so it is for
    "avx/foo-1.0-1-cp36-cp36m-linux_x86_64.whl". *)
Theorem parse_tags_dash_build :
  (forall a n v b p ab pl ext : chars,
      token Word a = true -> token WordDot n = true ->
      forallb (mem WordDot) v = true ->
      token Word b = true -> token Word p = true -> token Word ab = true ->
      let f := string_of_list_ascii
                 (a ++ "/"%char :: n ++ "-"%char :: v ++ "-"%char :: b ++
                    "-"%char :: p ++ "-"%char :: ab ++ "-"%char :: pl ++ ext) in
      parse_tags f =
        inr (mkWheel f (string_of_list_ascii a) (string_of_list_ascii n)
                     (string_of_list_ascii v) None (string_of_list_ascii b)
                     (string_of_list_ascii p) (string_of_list_ascii ab))) /\
  parse_tags "avx/foo-1.0-1-cp36-cp36m-linux_x86_64.whl" =
    inr (mkWheel "avx/foo-1.0-1-cp36-cp36m-linux_x86_64.whl"
                 "avx" "foo" "1.0" None "1" "cp36" "cp36m").
Proof.
  split; [|vm_compute; reflexivity].
  intros a n v b p ab pl ext Ha Hn Hv Hb Hp Hab.
  apply (parse_tags_plain a n v b p ab ("-"%char :: pl ++ ext));
    auto using token_word_dot.
Qed.

Lemma parse_tags_dash_build_witness :
  parse_tags "sse3/torch_cpu-0.4.0-2-cp35-cp35m-linux_x86_64.whl" =
    inr (mkWheel "sse3/torch_cpu-0.4.0-2-cp35-cp35m-linux_x86_64.whl"
                 "sse3" "torch_cpu" "0.4.0" None "2" "cp35" "cp35m").
Proof.
  apply (proj1 parse_tags_dash_build
               (list_ascii_of_string "sse3") (list_ascii_of_string "torch_cpu")
               (list_ascii_of_string "0.4.0") (list_ascii_of_string "2")
               (list_ascii_of_string "cp35") (list_ascii_of_string "cp35m")
               (list_ascii_of_string "linux_x86_64") (list_ascii_of_string ".whl"));
    reflexivity.
Defined.

(** The build tag is found behind a dash when what follows cannot be
    read without it, as with a python tag that holds a dot. *)
Example parse_tags_dash_build_dotted :
  parse_tags "generic/foo-1.0-1-py2.py3-none-any.whl" =
    inr (mkWheel "generic/foo-1.0-1-py2.py3-none-any.whl"
                 "generic" "foo" "1.0" (Some "1"%string) "py2.py3" "none" "any").
Proof. vm_compute. reflexivity. Qed.

(** C7, as stated, fails: a file name whose platform segment is
    malformed is parsed, with the leading word characters of the
    segment as its platform. *)
Lemma parse_tags_malformed_platform :
  parse_tags "avx2/netCDF4-1.3.1-cp36-cp36m-linux+x86_64.whl" =
    inr (mkWheel "avx2/netCDF4-1.3.1-cp36-cp36m-linux+x86_64.whl"
                 "avx2" "netCDF4" "1.3.1" None "cp36" "cp36m" "linux") /\
  token Word (list_ascii_of_string "linux+x86_64") = false.
Proof. split; vm_compute; reflexivity. Qed.

Lemma bad_tag_token (cs : charset) (t : chars) :
  bad_tag cs t = true -> token cs t = false.
Proof.
  destruct t as [|c t]; [reflexivity|]. unfold bad_tag, token.
  intros H. apply existsb_exists in H. destruct H as (x & Hx & Hb).
  apply andb_true_iff in Hb. destruct Hb as (_ & Hb). apply negb_true_iff in Hb.
  apply not_true_is_false. intros Hall.
  rewrite forallb_forall in Hall. specialize (Hall x Hx). congruence.
Qed.

Lemma bad_start_word (t : chars) : bad_start t = true -> starts_word t = false.
Proof.
  destruct t as [|c t]; [reflexivity|]. unfold bad_start, starts_word. simpl.
  intros H. apply andb_true_iff in H. destruct H as (_ & H).
  now apply negb_true_iff in H.
Qed.

(** C7, amended: the parser raises the same exception, whose message
    ends with the whole file name, (1) for every file name with fewer
    than four dashes, which is the case when the name segment or a
    separator is missing, and (2) for every file name
    arch/name-version-python-abi-platform with exactly these four
    dashes whose python segment is empty or holds an
    ASCII character that is neither a word character nor a dot, whose
    abi segment is empty or holds an ASCII character that is not a word
    character, or whose platform segment is empty or starts with an
    ASCII character that is not a word character.  (3) A platform
    segment that is malformed behind its first character is not
    rejected: when the other tags are tags of the grammar, the word
    characters at the start of the platform segment, up to the end of
    the name or to an ASCII character that is not a word character, are
    the platform of the wheel that is returned.  (4) The parser raises
    nothing else, and so never returns a wheel with some of the tags
    only. *)
Theorem parse_tags_malformed :
  (forall f, dashes f < 4 -> parse_tags f = inl (parse_error f)) /\
  (forall a n v p ab pl : chars,
      count "/" a = 0 -> count "-" n = 0 -> count "-" v = 0 ->
      count "-" p = 0 -> count "-" ab = 0 -> count "-" pl = 0 ->
      bad_tag WordDot p = true \/ bad_tag Word ab = true \/ bad_start pl = true ->
      let f := string_of_list_ascii
                 (a ++ "/"%char :: n ++ "-"%char :: v ++ "-"%char :: p ++
                    "-"%char :: ab ++ "-"%char :: pl) in
      parse_tags f = inl (parse_error f)) /\
  (forall a n v p ab pl rest : chars,
      token Word a = true -> token WordDot n = true ->
      forallb (mem WordDot) v = true -> token WordDot p = true ->
      token Word ab = true -> token Word pl = true ->
      word_end rest = true ->
      let f := string_of_list_ascii
                 (a ++ "/"%char :: n ++ "-"%char :: v ++ "-"%char :: p ++
                    "-"%char :: ab ++ "-"%char :: pl ++ rest) in
      parse_tags f =
        inr (mkWheel f (string_of_list_ascii a) (string_of_list_ascii n)
                     (string_of_list_ascii v) None (string_of_list_ascii p)
                     (string_of_list_ascii ab) (string_of_list_ascii pl))) /\
  (forall f e, parse_tags f = inl e ->
               e = Exception ("Could not get tags for : " ++ f)).
Proof.
  split; [|split; [|split]].
  - intros f Hd. destruct (parse_tags f) as [e|w] eqn:E.
    + now rewrite (parse_tags_inl _ E).
    + apply parse_tags_dashes in E. lia.
  - intros a n v p ab pl Ha Hn Hv Hp Hab Hpl Hbad f.
    destruct (parse_tags f) as [e|w] eqn:E.
    + now rewrite (parse_tags_inl _ E).
    + exfalso. apply parse_tags_inr in E. destruct E as (m & Hm & _).
      unfold f in Hm. rewrite list_ascii_of_string_of_list_ascii in Hm.
      apply WHEEL_RE_segments in Hm; try assumption.
      destruct Hm as (H1 & H2 & H3 & _).
      destruct Hbad as [H|[H|H]].
      * apply bad_tag_token in H. congruence.
      * apply bad_tag_token in H. congruence.
      * apply bad_start_word in H. congruence.
  - intros a n v p ab pl rest Ha Hn Hv Hp Hab Hpl Hrest.
    apply parse_tags_plain; try assumption.
    destruct rest as [|c rest]; [reflexivity|]. simpl in *.
    apply andb_true_iff in Hrest. destruct Hrest as (_ & Hrest).
    now apply negb_true_iff in Hrest.
  - intros f e H. now apply parse_tags_inl in H.
Qed.

Lemma parse_tags_malformed_witness :
  parse_tags "avx2/netCDF4-1.3.1.cp36-cp36m-linux_x86_64.whl" =
    inl (Exception "Could not get tags for : avx2/netCDF4-1.3.1.cp36-cp36m-linux_x86_64.whl") /\
  parse_tags "avx2/netCDF4-1.3.1-cp36cp36m-linux_x86_64.whl" =
    inl (Exception "Could not get tags for : avx2/netCDF4-1.3.1-cp36cp36m-linux_x86_64.whl") /\
  parse_tags "avx2/1.3.1-cp36-cp36m-linux_x86_64.whl" =
    inl (Exception "Could not get tags for : avx2/1.3.1-cp36-cp36m-linux_x86_64.whl") /\
  parse_tags "avx2/netCDF4-1.3.1-cp36-cp3+6m-linux_x86_64.whl" =
    inl (Exception "Could not get tags for : avx2/netCDF4-1.3.1-cp36-cp3+6m-linux_x86_64.whl") /\
  parse_tags "avx2/netCDF4-1.3.1-cp36-cp36m-linux+x86_64.whl" =
    inr (mkWheel "avx2/netCDF4-1.3.1-cp36-cp36m-linux+x86_64.whl"
                 "avx2" "netCDF4" "1.3.1" None "cp36" "cp36m" "linux").
Proof.
  destruct parse_tags_malformed as (H1 & H2 & H3 & _).
  split; [|split; [|split; [|split]]].
  - apply (H1 "avx2/netCDF4-1.3.1.cp36-cp36m-linux_x86_64.whl"%string).
    vm_compute. lia.
  - apply (H1 "avx2/netCDF4-1.3.1-cp36cp36m-linux_x86_64.whl"%string).
    vm_compute. lia.
  - apply (H1 "avx2/1.3.1-cp36-cp36m-linux_x86_64.whl"%string).
    vm_compute. lia.
  - apply (H2 (list_ascii_of_string "avx2") (list_ascii_of_string "netCDF4")
              (list_ascii_of_string "1.3.1") (list_ascii_of_string "cp36")
              (list_ascii_of_string "cp3+6m")
              (list_ascii_of_string "linux_x86_64.whl"));
      try reflexivity.
    right. left. reflexivity.
  - apply (H3 (list_ascii_of_string "avx2") (list_ascii_of_string "netCDF4")
              (list_ascii_of_string "1.3.1") (list_ascii_of_string "cp36")
              (list_ascii_of_string "cp36m") (list_ascii_of_string "linux")
              (list_ascii_of_string "+x86_64.whl"));
      reflexivity.
Defined.

(** C10: every file name arch/name--python-abi-platform.ext, with two
    dashes after the name, is parsed, and the version of the wheel is
    the empty string; so it is for
    "avx2/netCDF4--cp36-cp36m-linux_x86_64.whl". *)
Theorem parse_tags_empty_version :
  (forall a n p ab pl rest : chars,
      token Word a = true -> token WordDot n = true -> token WordDot p = true ->
      token Word ab = true -> token Word pl = true ->
      starts_in Word rest = false ->
      let f := string_of_list_ascii
                 (a ++ "/"%char :: n ++ "-"%char :: "-"%char :: p ++
                    "-"%char :: ab ++ "-"%char :: pl ++ rest) in
      parse_tags f =
        inr (mkWheel f (string_of_list_ascii a) (string_of_list_ascii n)
                     EmptyString None (string_of_list_ascii p)
                     (string_of_list_ascii ab) (string_of_list_ascii pl))) /\
  (exists arch name python abi platform ext w,
      parse_tags (arch ++ "/" ++ name ++ "--" ++ python ++ "-" ++ abi ++ "-"
                    ++ platform ++ "." ++ ext) = inr w /\
      version w = EmptyString /\
      arch = "avx2"%string /\ name = "netCDF4"%string /\
      python = "cp36"%string /\ abi = "cp36m"%string /\
      platform = "linux_x86_64"%string /\ ext = "whl"%string).
Proof.
  split.
  - intros a n p ab pl rest Ha Hn Hp Hab Hpl Hrest.
    now apply (parse_tags_plain a n [] p ab pl rest).
  - exists "avx2"%string, "netCDF4"%string, "cp36"%string, "cp36m"%string,
      "linux_x86_64"%string, "whl"%string.
    eexists. split; [vm_compute; reflexivity|]. repeat split.
Qed.

Lemma parse_tags_empty_version_witness :
  parse_tags "generic/six--py2.py3-none-any.whl" =
    inr (mkWheel "generic/six--py2.py3-none-any.whl"
                 "generic" "six" "" None "py2.py3" "none" "any").
Proof.
  apply (proj1 parse_tags_empty_version
               (list_ascii_of_string "generic") (list_ascii_of_string "six")
               (list_ascii_of_string "py2.py3") (list_ascii_of_string "none")
               (list_ascii_of_string "any") (list_ascii_of_string ".whl"));
    reflexivity.
Defined.

(** ** The comparisons are total orders *)

Lemma ascii_compare_trans (a b c : ascii) :
  Ascii.compare a b = Lt -> Ascii.compare b c = Lt -> Ascii.compare a c = Lt.
Proof.
  unfold Ascii.compare. rewrite !N.compare_lt_iff. apply N.lt_trans.
Qed.

Lemma ascii_compare_refl (a : ascii) : Ascii.compare a a = Eq.
Proof. unfold Ascii.compare. apply N.compare_refl. Qed.

Lemma string_compare_trans (a b c : string) :
  String.compare a b = Lt -> String.compare b c = Lt -> String.compare a c = Lt.
Proof.
  revert b c. induction a as [|x a IH]; intros [|y b] [|z c]; simpl;
    try congruence.
  destruct (Ascii.compare x y) eqn:Exy; try discriminate;
    destruct (Ascii.compare y z) eqn:Eyz; try discriminate; intros H1 H2.
  - apply Ascii.compare_eq_iff in Exy, Eyz. subst.
    rewrite ascii_compare_refl. eauto.
  - apply Ascii.compare_eq_iff in Exy. subst. now rewrite Eyz.
  - apply Ascii.compare_eq_iff in Eyz. subst. now rewrite Exy.
  - now rewrite (ascii_compare_trans _ _ _ Exy Eyz).
Qed.

Lemma string_compare_refl (a : string) : String.compare a a = Eq.
Proof.
  induction a as [|x a IH]; simpl; [reflexivity|].
  now rewrite ascii_compare_refl.
Qed.

Lemma string_total_order : total_order String.compare.
Proof.
  split.
  - intros a b. split; [apply String.compare_eq_iff|].
    intros ->. apply string_compare_refl.
  - intros a b. apply String.compare_antisym.
  - apply string_compare_trans.
Qed.

Lemma component_total_order : total_order component_compare.
Proof.
  split.
  - intros [x|x] [y|y]; simpl; split; intros H; try discriminate.
    + apply N.compare_eq_iff in H. now subst.
    + inv H. apply N.compare_refl.
    + apply String.compare_eq_iff in H. now subst.
    + inv H. apply string_compare_refl.
  - intros [x|x] [y|y]; simpl; try reflexivity.
    + apply N.compare_antisym.
    + apply String.compare_antisym.
  - intros [x|x] [y|y] [z|z]; simpl; try congruence.
    + rewrite !N.compare_lt_iff. apply N.lt_trans.
    + apply string_compare_trans.
Qed.

Lemma list_total_order : total_order list_compare.
Proof.
  pose proof component_total_order as [Heq Hanti Htrans].
  split.
  - intros a. induction a as [|x a IH]; intros [|y b]; simpl; split; intros H;
      try discriminate; try reflexivity.
    + destruct (component_compare x y) eqn:E; try discriminate.
      apply Heq in E. apply IH in H. now subst.
    + inv H. rewrite (proj2 (Heq y y) eq_refl). now apply IH.
  - intros a. induction a as [|x a IH]; intros [|y b]; simpl; try reflexivity.
    rewrite (Hanti x y). destruct (component_compare x y); simpl; auto.
  - intros a. induction a as [|x a IH]; intros [|y b] [|z c]; simpl;
      try congruence.
    destruct (component_compare x y) eqn:Exy; try discriminate;
      destruct (component_compare y z) eqn:Eyz; try discriminate; intros H1 H2.
    + apply Heq in Exy, Eyz. subst. rewrite (proj2 (Heq z z) eq_refl). eauto.
    + apply Heq in Exy. subst. now rewrite Eyz.
    + apply Heq in Eyz. subst. now rewrite Exy.
    + now rewrite (Htrans _ _ _ Exy Eyz).
Qed.

Lemma LooseVersion_total_order : total_order LooseVersion_compare.
Proof.
  pose proof list_total_order as [Heq Hanti Htrans].
  split.
  - intros [a|] [b|]; simpl; split; intros H; try discriminate; try reflexivity.
    + apply Heq in H. now subst.
    + inv H. now apply Heq.
  - intros [a|] [b|]; simpl; auto.
  - intros [a|] [b|] [c|]; simpl; try congruence. apply Htrans.
Qed.

(** ** The comparisons of Python agree with the orders *)

Lemma string_eqb_compare (a b : string) :
  String.eqb a b = is_eq (String.compare a b).
Proof.
  destruct (String.eqb_spec a b) as [->|Hne].
  - now rewrite string_compare_refl.
  - destruct (String.compare a b) eqn:E; try reflexivity.
    now apply String.compare_eq_iff in E.
Qed.

Lemma N_eqb_compare (a b : N) : N.eqb a b = is_eq (N.compare a b).
Proof.
  destruct (N.eqb_spec a b) as [->|Hne].
  - now rewrite N.compare_refl.
  - destruct (N.compare a b) eqn:E; try reflexivity.
    now apply N.compare_eq_iff in E.
Qed.

Lemma component_eqb_compare (a b : component) :
  component_eqb a b = is_eq (component_compare a b).
Proof.
  destruct a, b; simpl; auto using N_eqb_compare, string_eqb_compare.
Qed.

Lemma component_lt_compare (a b : component) (t : bool) :
  component_lt a b = inr t -> t = is_lt (component_compare a b).
Proof.
  destruct a, b; simpl; intros H; inv H; reflexivity.
Qed.

Lemma list_eqb_compare (a b : list component) :
  list_eqb a b = is_eq (list_compare a b).
Proof.
  revert b. induction a as [|x a IH]; intros [|y b]; simpl; try reflexivity.
  rewrite component_eqb_compare, IH.
  destruct (component_compare x y); reflexivity.
Qed.

Lemma list_lt_compare (a b : list component) (t : bool) :
  list_lt a b = inr t -> t = is_lt (list_compare a b).
Proof.
  revert b. induction a as [|x a IH]; intros [|y b]; simpl; intros H;
    try (inv H; reflexivity).
  rewrite component_eqb_compare in H.
  destruct (component_compare x y) eqn:E; simpl in H.
  - now apply IH.
  - apply component_lt_compare in H. now rewrite E in H.
  - apply component_lt_compare in H. now rewrite E in H.
Qed.

Lemma LooseVersion_cmp_compare (a b : LooseVersion) (c : option Z) :
  LooseVersion_cmp a b = inr c ->
  c = Some (code_of (LooseVersion_compare a b)).
Proof.
  destruct a as [v|], b as [v'|]; simpl; try discriminate.
  rewrite list_eqb_compare.
  destruct (list_compare v v') eqn:E; simpl.
  - intros H. now inv H.
  - destruct (list_lt v v') as [e|t] eqn:El; simpl; [discriminate|].
    apply list_lt_compare in El. rewrite E in El. subst t. intros H. now inv H.
  - destruct (list_lt v v') as [e|t] eqn:El; simpl; [discriminate|].
    apply list_lt_compare in El. rewrite E in El. subst t.
    unfold list_gt. destruct (list_lt v' v) as [e|t] eqn:Eg; simpl; [discriminate|].
    apply list_lt_compare in Eg.
    rewrite (cmp_antisym list_total_order v v'), E in Eg. subst t.
    intros H. now inv H.
Qed.

Lemma comparable_lt (a b : LooseVersion) :
  comparable a b = true ->
  LooseVersion_lt a b = inr (is_lt (LooseVersion_compare a b)).
Proof.
  unfold comparable, LooseVersion_lt.
  destruct (LooseVersion_cmp a b) as [e|c] eqn:E; [discriminate|]. intros _.
  apply LooseVersion_cmp_compare in E. subst c. simpl.
  destruct (LooseVersion_compare a b); reflexivity.
Qed.

Lemma comparable_eq (a b : LooseVersion) :
  comparable a b = true ->
  LooseVersion_eq a b = inr (is_eq (LooseVersion_compare a b)).
Proof.
  unfold comparable, LooseVersion_eq.
  destruct (LooseVersion_cmp a b) as [e|c] eqn:E; [discriminate|]. intros _.
  apply LooseVersion_cmp_compare in E. subst c. simpl.
  destruct (LooseVersion_compare a b); reflexivity.
Qed.

Lemma all_comparable_in (l : list Wheel) (a b : Wheel) :
  all_comparable l = true -> In a l -> In b l ->
  comparable (loose_version a) (loose_version b) = true.
Proof.
  unfold all_comparable. rewrite forallb_forall. intros H Ha Hb.
  specialize (H a Ha). rewrite forallb_forall in H. now apply H.
Qed.

(** Two versions can be compared one way round when they can be
    compared the other way round. *)
Lemma component_eqb_sym (x y : component) : component_eqb x y = component_eqb y x.
Proof.
  destruct x, y; simpl; auto using N.eqb_sym, String.eqb_sym.
Qed.

Lemma list_lt_returns_sym (a b : list component) (t : bool) :
  list_lt a b = inr t -> exists t', list_lt b a = inr t'.
Proof.
  revert b t. induction a as [|x a IH]; intros [|y b] t; simpl; eauto.
  rewrite (component_eqb_sym y x).
  destruct (component_eqb x y); [apply IH|].
  destruct x, y; simpl; intros H; inv H; eauto.
Qed.

Lemma LooseVersion_cmp_returns_sym (a b : LooseVersion) (c : option Z) :
  LooseVersion_cmp a b = inr c -> exists c', LooseVersion_cmp b a = inr c'.
Proof.
  destruct a as [v|], b as [v'|]; simpl; try discriminate.
  rewrite !list_eqb_compare, (cmp_antisym list_total_order v v').
  destruct (list_compare v v') eqn:E; simpl; [eauto| |].
  - destruct (list_lt v v') as [e|t] eqn:El; simpl; [discriminate|]. intros _.
    destruct (list_lt_returns_sym _ _ El) as (t' & El'). rewrite El'. simpl.
    unfold list_gt. rewrite El. simpl.
    destruct t'; [eauto|]. destruct t; eauto.
  - destruct (list_lt v v') as [e|t] eqn:El; simpl; [discriminate|]. intros _.
    destruct (list_lt_returns_sym _ _ El) as (t' & El'). rewrite El'. simpl.
    unfold list_gt. rewrite El. simpl.
    destruct t'; [eauto|]. destruct t; eauto.
Qed.

Lemma comparable_sym (a b : LooseVersion) : comparable a b = comparable b a.
Proof.
  unfold comparable.
  destruct (LooseVersion_cmp a b) as [e|c] eqn:E;
    destruct (LooseVersion_cmp b a) as [e'|c'] eqn:E'; try reflexivity.
  - destruct (LooseVersion_cmp_returns_sym _ _ E') as (c & Hc). congruence.
  - destruct (LooseVersion_cmp_returns_sym _ _ E) as (c0 & Hc). congruence.
Qed.

Lemma comparable_some (a b : LooseVersion) :
  comparable a b = true -> a <> None /\ b <> None.
Proof.
  unfold comparable. destruct a, b; simpl; try discriminate.
  intros _. split; discriminate.
Qed.

Lemma comparable_refl (v : list component) : comparable (Some v) (Some v) = true.
Proof.
  unfold comparable. simpl. rewrite list_eqb_compare.
  assert (E : list_compare v v = Eq) by now apply (cmp_eq list_total_order).
  now rewrite E.
Qed.

(** The comparisons raise [TypeError] and [AttributeError] only. *)
Lemma list_lt_exn (a b : list component) (e : exn) :
  list_lt a b = inl e -> e = TypeError.
Proof.
  revert b. induction a as [|x a IH]; intros [|y b]; simpl; try discriminate.
  destruct (component_eqb x y); [apply IH|].
  destruct x, y; simpl; intros H; now inv H.
Qed.

Lemma LooseVersion_cmp_exn (a b : LooseVersion) (e : exn) :
  LooseVersion_cmp a b = inl e -> e = TypeError \/ e = AttributeError.
Proof.
  destruct a as [v|], b as [v'|]; simpl;
    [|intros H; inv H; auto..].
  destruct (list_eqb v v'); [discriminate|].
  destruct (list_lt v v') as [e1|[|]] eqn:E1; simpl; try discriminate.
  - intros H. inv H. left. eapply list_lt_exn, E1.
  - unfold list_gt. destruct (list_lt v' v) as [e2|[|]] eqn:E2; simpl;
      try discriminate.
    intros H. inv H. left. eapply list_lt_exn, E2.
Qed.

Lemma LooseVersion_lt_exn (a b : LooseVersion) (e : exn) :
  LooseVersion_lt a b = inl e -> e = TypeError \/ e = AttributeError.
Proof.
  unfold LooseVersion_lt.
  destruct (LooseVersion_cmp a b) as [e'|c] eqn:E; simpl.
  - intros H. inv H. eapply LooseVersion_cmp_exn, E.
  - destruct c; intros H; inv H. auto.
Qed.

Lemma LooseVersion_lt_incomparable (a b : LooseVersion) :
  comparable a b = false -> exists e, LooseVersion_lt a b = inl e.
Proof.
  unfold comparable, LooseVersion_lt.
  destruct (LooseVersion_cmp a b) as [e|c]; [|discriminate]. simpl. eauto.
Qed.

(** ** The stable sort *)

Section SortFacts.
Variables (A K : Type).
Variable key : A -> K.
Variable cmp : K -> K -> comparison.
Hypothesis cmp_ok : total_order cmp.

Lemma cmp_refl (a : K) : cmp a a = Eq.
Proof. now apply (cmp_eq cmp_ok). Qed.

Lemma cmp_gt_lt (a b : K) : cmp a b = Gt <-> cmp b a = Lt.
Proof.
  rewrite (cmp_antisym cmp_ok a b). destruct (cmp a b); simpl; split; congruence.
Qed.

Lemma cmp_gt_trans (a b c : K) :
  cmp a b = Gt -> cmp b c <> Lt -> cmp a c = Gt.
Proof.
  intros H1 H2. destruct (cmp b c) eqn:E; [| congruence |].
  - apply (cmp_eq cmp_ok) in E. now subst.
  - apply cmp_gt_lt in H1, E. apply cmp_gt_lt.
    exact (cmp_trans cmp_ok _ _ _ E H1).
Qed.

Lemma pinsert_perm (x : A) (l : list A) :
  Permutation (x :: l) (pinsert key cmp x l).
Proof.
  induction l as [|y l IH]; simpl; [reflexivity|].
  destruct (is_lt _); [|reflexivity].
  rewrite perm_swap. now constructor.
Qed.

Lemma psort_perm (l : list A) : Permutation l (psort key cmp l).
Proof.
  induction l as [|x l IH]; simpl; [reflexivity|].
  rewrite <- pinsert_perm. now constructor.
Qed.

Lemma psort_in (l : list A) (x : A) : In x (psort key cmp l) <-> In x l.
Proof.
  split; apply Permutation_in; [symmetry|]; apply psort_perm.
Qed.

(** An element that [R] lets stand before a sorted list is inserted
    at a place that keeps the list sorted, keys first and [R] among
    equal keys. *)
Lemma pinsert_lex (R : A -> A -> Prop) (x : A) (l : list A) :
  StronglySorted (lex key cmp R) l -> Forall (R x) l ->
  StronglySorted (lex key cmp R) (pinsert key cmp x l).
Proof.
  induction l as [|y l IH]; intros Hs Hr; simpl.
  - repeat constructor.
  - inv Hs. inv Hr. destruct (cmp (key x) (key y)) eqn:E; simpl.
    + constructor; [now constructor|]. constructor.
      * right. auto.
      * apply (cmp_eq cmp_ok) in E. rewrite Forall_forall in *.
        intros z Hz. unfold lex in *. rewrite E.
        destruct (H2 z Hz) as [Hgt|[Heq _]]; auto.
    + constructor; [now apply IH|].
      rewrite <- pinsert_perm. constructor; [|assumption].
      left. now apply cmp_gt_lt.
    + constructor; [now constructor|]. constructor; [now left|].
      rewrite Forall_forall in *. intros z Hz. left.
      apply cmp_gt_trans with (key y); [assumption|].
      destruct (H2 z Hz) as [Hgt|[Heq _]]; congruence.
Qed.

(** Sorting a list that is sorted for [R] gives a list that is sorted
    by key, and for [R] among equal keys: the sort is stable. *)
Lemma psort_lex (R : A -> A -> Prop) (l : list A) :
  StronglySorted R l -> StronglySorted (lex key cmp R) (psort key cmp l).
Proof.
  induction l as [|x l IH]; intros Hs; simpl; [constructor|].
  inv Hs. apply pinsert_lex; [now apply IH|].
  now rewrite <- psort_perm.
Qed.

(** The elements picked by a test that holds for one key only keep
    their order. *)
Lemma pinsert_filter (p : A -> bool) (x : A) (l : list A) :
  (forall a b, p a = true -> p b = true -> key a = key b) ->
  filter p (pinsert key cmp x l) = filter p (x :: l).
Proof.
  intros Hp. induction l as [|y l IH]; simpl; [reflexivity|].
  destruct (cmp (key x) (key y)) eqn:E; simpl; try reflexivity.
  rewrite IH. simpl.
  destruct (p x) eqn:Ex, (p y) eqn:Ey; try reflexivity.
  rewrite (Hp x y Ex Ey), cmp_refl in E. discriminate.
Qed.

Lemma psort_filter (p : A -> bool) (l : list A) :
  (forall a b, p a = true -> p b = true -> key a = key b) ->
  filter p (psort key cmp l) = filter p l.
Proof.
  intros Hp. induction l as [|x l IH]; simpl; [reflexivity|].
  rewrite pinsert_filter by assumption. simpl. now rewrite IH.
Qed.

(** The sort that may raise is the pure one when the comparisons it
    needs do not raise. *)
Variable lt : K -> K -> result bool.

Lemma insert_desc_pure (x : A) (l : list A) :
  (forall y, In y l -> lt (key x) (key y) = inr (is_lt (cmp (key x) (key y)))) ->
  insert_desc key lt x l = inr (pinsert key cmp x l).
Proof.
  induction l as [|y l IH]; intros H; simpl; [reflexivity|].
  rewrite (H y) by now left. simpl.
  destruct (is_lt _); [|reflexivity].
  rewrite IH; [reflexivity|]. intros z Hz. apply H. now right.
Qed.

Lemma sort_desc_pure (l : list A) :
  (forall x y, In x l -> In y l ->
               lt (key x) (key y) = inr (is_lt (cmp (key x) (key y)))) ->
  sort_desc key lt l = inr (psort key cmp l).
Proof.
  induction l as [|x l IH]; intros H; simpl; [reflexivity|].
  rewrite IH by (intros; apply H; now right). simpl.
  apply insert_desc_pure. intros y Hy. apply H; [now left|].
  right. now apply psort_in.
Qed.
End SortFacts.

Lemma sorted_any (A : Type) (l : list A) : StronglySorted (fun _ _ => True) l.
Proof.
  induction l; constructor; auto. now apply Forall_forall.
Qed.

(** ** latest_versions *)

Lemma take_latest_filter (h : LooseVersion) (l : list Wheel) :
  (forall w, In w l -> comparable h (loose_version w) = true) ->
  StronglySorted (lex loose_version LooseVersion_compare (fun _ _ => True)) l ->
  Forall (fun w => LooseVersion_compare h (loose_version w) <> Lt) l ->
  take_latest h l =
    inr (filter (fun w => is_eq (LooseVersion_compare h (loose_version w))) l).
Proof.
  induction l as [|y l IH]; intros Hc Hs Hb; simpl; [reflexivity|].
  inv Hs. inv Hb.
  rewrite comparable_eq by (apply Hc; now left). simpl.
  destruct (LooseVersion_compare h (loose_version y)) eqn:E; simpl.
  - rewrite IH; auto. intros w Hw. apply Hc. now right.
  - congruence.
  - unfold ret. f_equal. symmetry.
    rewrite (filter_ext_in _ (fun _ => false)); [apply filter_false|].
    intros w Hw. rewrite Forall_forall in H2.
    rewrite (cmp_gt_trans LooseVersion_total_order _ _ _ E); [reflexivity|].
    destruct (H2 w Hw) as [Hgt|[Heq _]]; congruence.
Qed.

(** The wheels of the greatest version are those that [is_latest]
    picks. *)
Lemma is_latest_head (l : list Wheel) (h w : Wheel) :
  all_comparable l = true -> In h l -> In w l ->
  (forall w', In w' l ->
              LooseVersion_compare (loose_version h) (loose_version w') <> Lt) ->
  is_eq (LooseVersion_compare (loose_version h) (loose_version w)) = is_latest l w.
Proof.
  intros Hc Hh Hw Hmax. pose proof LooseVersion_total_order as Hok.
  destruct (LooseVersion_compare (loose_version h) (loose_version w)) eqn:E; simpl;
    symmetry.
  - apply (cmp_eq Hok) in E. unfold is_latest. apply forallb_forall.
    intros w' Hw'. rewrite comparable_lt by now apply all_comparable_in with l.
    rewrite <- E. specialize (Hmax w' Hw').
    now destruct (LooseVersion_compare (loose_version h) (loose_version w')).
  - now specialize (Hmax w Hw).
  - apply not_true_is_false. unfold is_latest. rewrite forallb_forall.
    intros H. specialize (H h Hh).
    rewrite comparable_lt in H by now apply all_comparable_in with l.
    apply (cmp_gt_lt Hok) in E. now rewrite E in H.
Qed.

Lemma latest_group_spec (l : list Wheel) :
  l <> [] -> all_comparable l = true ->
  latest_group l = inr (filter (is_latest l) l).
Proof.
  intros Hne Hc. pose proof LooseVersion_total_order as Hok.
  unfold latest_group.
  rewrite (sort_desc_pure loose_version LooseVersion_compare)
    by (intros; apply comparable_lt; now apply all_comparable_in with l).
  simpl.
  pose proof (psort_perm loose_version LooseVersion_compare l) as Hp.
  pose proof (psort_lex loose_version Hok (sorted_any l)) as Hs.
  destruct (psort loose_version LooseVersion_compare l) as [|h t] eqn:Es.
  - apply Permutation_sym, Permutation_nil in Hp. congruence.
  - assert (Hmax : forall w', In w' l ->
              LooseVersion_compare (loose_version h) (loose_version w') <> Lt).
    { intros w' Hw'. apply (Permutation_in _ Hp) in Hw'. inv Hs.
      destruct Hw' as [<-|Hw']; [now rewrite (cmp_refl Hok)|].
      rewrite Forall_forall in H2.
      destruct (H2 w' Hw') as [Hgt|[Heq _]]; congruence. }
    assert (Hh : In h l) by (apply (Permutation_in _ (Permutation_sym Hp)); now left).
    rewrite take_latest_filter; [| | assumption |].
    + f_equal. rewrite <- Es.
      rewrite psort_filter; [|assumption|].
      * apply filter_ext_in. intros w Hw. now apply is_latest_head.
      * intros a b Ha Hb.
        destruct (LooseVersion_compare (loose_version h) (loose_version a)) eqn:Ea;
          try discriminate.
        destruct (LooseVersion_compare (loose_version h) (loose_version b)) eqn:Eb;
          try discriminate.
        apply (cmp_eq Hok) in Ea, Eb. congruence.
    + intros w Hw. apply all_comparable_in with l; [assumption|assumption|].
      apply (Permutation_in _ (Permutation_sym Hp)). assumption.
    + apply Forall_forall. intros w Hw. apply Hmax.
      apply (Permutation_in _ (Permutation_sym Hp)). assumption.
Qed.

Lemma latest_versions_spec (wheels : dict (list Wheel)) :
  (forall n g, In (n, g) wheels -> g <> [] /\ all_comparable g = true) ->
  latest_versions wheels =
    inr (map (fun ng => (fst ng, filter (is_latest (snd ng)) (snd ng))) wheels).
Proof.
  induction wheels as [|[n g] wheels IH]; intros H; simpl; [reflexivity|].
  destruct (H n g) as (Hne & Hc); [now left|].
  rewrite latest_group_spec by assumption. simpl.
  rewrite IH by (intros; eapply H; right; eassumption). reflexivity.
Qed.

(** [latest_versions] raises [TypeError] on a group with the versions
    1.0.1 and 1.0rc1, which [LooseVersion] cannot compare, and
    [AttributeError] on a group of one wheel whose version is empty. *)
Lemma latest_versions_raises :
  (ws <- wheels_of ["avx/foo-1.0.1-cp36-cp36m-linux_x86_64.whl";
                    "avx/foo-1.0rc1-cp36-cp36m-linux_x86_64.whl"]%string ;;
   latest_versions [("foo"%string, ws)]) = inl TypeError /\
  (ws <- wheels_of ["avx/foo--cp36-cp36m-linux_x86_64.whl"]%string ;;
   latest_versions [("foo"%string, ws)]) = inl AttributeError.
Proof. split; vm_compute; reflexivity. Qed.

Lemma latest_group_incomparable (w1 w2 : Wheel) :
  comparable (loose_version w1) (loose_version w2) = false ->
  exists e, latest_group [w1; w2] = inl e.
Proof.
  intros H. apply LooseVersion_lt_incomparable in H. destruct H as (e & H).
  unfold latest_group. simpl. rewrite H. simpl. eauto.
Qed.

Lemma latest_versions_incomparable (wheels : dict (list Wheel)) (n : string)
      (w1 w2 : Wheel) :
  In (n, [w1; w2]) wheels ->
  comparable (loose_version w1) (loose_version w2) = false ->
  exists e, latest_versions wheels = inl e.
Proof.
  intros Hin Hc. induction wheels as [|[n' g'] wheels IH]; [destruct Hin|].
  simpl. destruct Hin as [Hin|Hin].
  - inv Hin. destruct (latest_group_incomparable _ _ Hc) as (e & ->).
    simpl. eauto.
  - destruct (latest_group g') as [e|l]; simpl; [eauto|].
    destruct (IH Hin) as (e & ->). simpl. eauto.
Qed.

(** C1 (what the code does): for every mapping whose groups are
    non-empty and hold ASCII versions that can all be compared with
    each other, [latest_versions] returns, for each name, the wheels of
    the group whose version is maximal in the group, in the order of
    the group; for the versions 1.3.2 (three times), 1.3.1 (three
    times), 1.2.0 and 1.3 these are the three wheels of version 1.3.2.
    But for every mapping that has a group of two wheels whose
    versions, ASCII text, cannot be compared, [latest_versions] raises
    and returns nothing;
    so it does, with [TypeError], for the versions 1.0.1 and 1.0rc1. *)
Theorem latest_versions_max :
  (forall wheels : dict (list Wheel),
      (forall n g, In (n, g) wheels ->
                   g <> [] /\ all_comparable g = true /\ ascii_versions g = true) ->
      latest_versions wheels =
        inr (map (fun ng => (fst ng, filter (is_latest (snd ng)) (snd ng)))
                 wheels)) /\
  (ws <- wheels_of netCDF4_files ;; latest_versions [("netCDF4"%string, ws)]) =
  (ls <- wheels_of netCDF4_latest_files ;; ret [("netCDF4"%string, ls)]) /\
  (forall (wheels : dict (list Wheel)) (n : string) (w1 w2 : Wheel),
      In (n, [w1; w2]) wheels -> ascii_versions [w1; w2] = true ->
      comparable (loose_version w1) (loose_version w2) = false ->
      exists e, latest_versions wheels = inl e) /\
  (ws <- wheels_of ["avx/foo-1.0.1-cp36-cp36m-linux_x86_64.whl";
                    "avx/foo-1.0rc1-cp36-cp36m-linux_x86_64.whl"]%string ;;
   latest_versions [("foo"%string, ws)]) = inl TypeError.
Proof.
  split; [|split; [|split]].
  - intros wheels H. apply latest_versions_spec.
    intros n g Hin. destruct (H n g Hin) as (Hne & Hc & _). auto.
  - vm_compute. reflexivity.
  - intros wheels n w1 w2 Hin _. now apply latest_versions_incomparable with n.
  - vm_compute. reflexivity.
Qed.

Lemma latest_versions_max_witness :
  let old := mkWheel "avx2/netCDF4-1.3.1-cp36-cp36m-linux_x86_64.whl"
                     "avx2" "netCDF4" "1.3.1" None "cp36" "cp36m" "linux_x86_64" in
  let new := mkWheel "avx2/netCDF4-1.3.2-cp35-cp35m-linux_x86_64.whl"
                     "avx2" "netCDF4" "1.3.2" None "cp35" "cp35m" "linux_x86_64" in
  let rc := mkWheel "avx2/netCDF4-1.3rc1-cp35-cp35m-linux_x86_64.whl"
                    "avx2" "netCDF4" "1.3rc1" None "cp35" "cp35m" "linux_x86_64" in
  latest_versions [("netCDF4"%string, [old; new; old])] =
    inr [("netCDF4"%string, [new])] /\
  exists e, latest_versions [("netCDF4"%string, [old; rc])] = inl e.
Proof.
  intros old new rc. split.
  - rewrite (proj1 latest_versions_max [("netCDF4"%string, [old; new; old])]).
    + vm_compute. reflexivity.
    + intros n g [H|[]]. inv H.
      split; [discriminate|split; vm_compute; reflexivity].
  - apply (proj1 (proj2 (proj2 latest_versions_max))
             [("netCDF4"%string, [old; rc])] "netCDF4"%string old rc).
    + now left.
    + vm_compute. reflexivity.
    + vm_compute. reflexivity.
Defined.




(** ** sort *)

Lemma flip_total_order (K : Type) (cmp : K -> K -> comparison) :
  total_order cmp -> total_order (flip_compare cmp).
Proof.
  intros [Heq Hanti Htrans]. unfold flip_compare. split.
  - intros a b. rewrite Heq. split; congruence.
  - intros a b. apply Hanti.
  - intros a b c H1 H2. eapply Htrans; eassumption.
Qed.

Lemma insert_asc_desc (A K : Type) (key : A -> K) (lt : K -> K -> result bool)
      (x : A) (l : list A) :
  insert_asc key lt x l = insert_desc key (fun a b => lt b a) x l.
Proof.
  induction l as [|y l IH]; simpl; [reflexivity|]. now rewrite IH.
Qed.

Lemma sort_asc_desc (A K : Type) (key : A -> K) (lt : K -> K -> result bool)
      (l : list A) :
  sort_asc key lt l = sort_desc key (fun a b => lt b a) l.
Proof.
  induction l as [|x l IH]; simpl; [reflexivity|].
  rewrite IH. destruct (sort_desc _ _ l); simpl; [reflexivity|].
  apply insert_asc_desc.
Qed.

Lemma StronglySorted_impl_in (A : Type) (R R' : A -> A -> Prop) (l : list A) :
  (forall a b, In a l -> In b l -> R a b -> R' a b) ->
  StronglySorted R l -> StronglySorted R' l.
Proof.
  induction l as [|x l IH]; intros H Hs; [constructor|].
  inv Hs. constructor.
  - apply IH; [|assumption]. intros a b Ha Hb. apply H; now right.
  - rewrite Forall_forall in *. intros y Hy. apply H; auto; [now left|now right].
Qed.

(** The names come out in the order of their case-folded forms. *)
Lemma sort_names (l : list string) :
  exists names,
    sort_asc casefold str_lt l = inr names /\
    Permutation l names /\ StronglySorted name_before names.
Proof.
  pose proof (flip_total_order string_total_order) as Hok.
  exists (psort casefold (flip_compare String.compare) l). split; [|split].
  - rewrite sort_asc_desc. apply sort_desc_pure. reflexivity.
  - apply psort_perm.
  - apply StronglySorted_impl_in
      with (R := lex casefold (flip_compare String.compare) (fun _ _ => True)).
    + unfold lex, flip_compare, name_before, String.ltb.
      intros a b _ _ [H|[H _]]; now rewrite H.
    + apply psort_lex; [assumption|apply sorted_any].
Qed.

(** The three sorts of a group order it by version, then architecture,
    then python tag. *)
Lemma sort_group_spec (l : list Wheel) :
  all_comparable l = true ->
  exists g, sort_group l = inr g /\ Permutation l g /\ StronglySorted before g.
Proof.
  intros Hc.
  pose proof string_total_order as Hs. pose proof LooseVersion_total_order as Hv.
  set (l1 := psort python String.compare l).
  set (l2 := psort arch String.compare l1).
  set (l3 := psort loose_version LooseVersion_compare l2).
  assert (Hp : Permutation l l3).
  { unfold l3, l2, l1. now rewrite <- !psort_perm. }
  exists l3. split; [|split; [exact Hp|]].
  - unfold sort_group.
    rewrite (sort_desc_pure python String.compare) by reflexivity. simpl.
    rewrite (sort_desc_pure arch String.compare) by reflexivity. simpl.
    apply sort_desc_pure. intros x y Hx Hy.
    apply comparable_lt, all_comparable_in with l; [assumption| |].
    + apply Permutation_in with l2; [|assumption].
      unfold l2, l1. now rewrite <- !psort_perm.
    + apply Permutation_in with l2; [|assumption].
      unfold l2, l1. now rewrite <- !psort_perm.
  - apply StronglySorted_impl_in
      with (R := lex loose_version LooseVersion_compare
                   (lex arch String.compare
                      (lex python String.compare (fun _ _ => True)))).
    + intros a b Ha Hb. apply (Permutation_in _ (Permutation_sym Hp)) in Ha, Hb.
      unfold lex, before. intros [H|[H H']].
      * left. rewrite comparable_lt by now apply all_comparable_in with l.
        apply (cmp_gt_lt Hv) in H. now rewrite H.
      * right. split.
        { rewrite comparable_eq by now apply all_comparable_in with l.
          now rewrite H. }
        destruct H' as [H'|[H' H'']].
        { left. unfold String.ltb. apply (cmp_gt_lt Hs) in H'. now rewrite H'. }
        right. split; [now apply (cmp_eq Hs)|].
        destruct H'' as [H''|[H'' _]].
        { left. unfold String.ltb. apply (cmp_gt_lt Hs) in H''. now rewrite H''. }
        right. now apply (cmp_eq Hs).
    + unfold l3, l2, l1. repeat (apply psort_lex; [assumption|]).
      apply sorted_any.
Qed.

Lemma dict_get_in (V : Type) (d : dict V) (k : string) (v : V) :
  dict_get d k = Some v -> In (k, v) d.
Proof.
  induction d as [|[k' v'] d IH]; simpl; [discriminate|].
  destruct (String.eqb_spec k' k) as [->|_].
  - intros H. inv H. now left.
  - intros H. right. now apply IH.
Qed.

Lemma dict_get_keys (V : Type) (d : dict V) (k : string) :
  In k (keys d) -> exists v, dict_get d k = Some v.
Proof.
  induction d as [|[k' v'] d IH]; simpl; [intros []|].
  intros H. destruct (String.eqb_spec k' k) as [->|Hne]; [eauto|].
  destruct H as [H|H]; [congruence|auto].
Qed.

Lemma sort_rows_spec (wheels : dict (list Wheel)) (columns : list column)
      (names : list string) :
  (forall n g, In (n, g) wheels -> all_comparable g = true) ->
  (forall n, In n names -> In n (keys wheels)) ->
  exists groups,
    sort_rows wheels columns names = inr (flat_map (map (row columns)) groups) /\
    Forall2 (fun n g => exists l, dict_get wheels n = Some l /\
                                  Permutation l g /\ StronglySorted before g)
            names groups.
Proof.
  intros Hc. induction names as [|n names IH]; intros Hk; simpl.
  - exists []. split; [reflexivity|constructor].
  - destruct (dict_get_keys wheels n) as (l & El); [apply Hk; now left|].
    destruct (sort_group_spec l) as (g & Eg & Hp & Hs);
      [apply (Hc n), dict_get_in, El|].
    destruct IH as (groups & Er & Hf); [intros; apply Hk; now right|].
    exists (g :: groups). split.
    + unfold dict_item. rewrite El. simpl. rewrite Eg. simpl. rewrite Er.
      reflexivity.
    + constructor; [|assumption]. exists l. auto.
Qed.

(** The test of [sort]. *)
Example sort_columns :
  (ws <- wheels_of sort_files ;; sort [("netCDF4"%string, ws)] HEADERS)
  = inr sort_output.
Proof. vm_compute. reflexivity. Qed.

(** [sort] raises [TypeError] on a group with the versions 1.0.1 and
    1.0rc1. *)
Lemma sort_raises :
  (ws <- wheels_of ["avx/foo-1.0.1-cp36-cp36m-linux_x86_64.whl";
                    "avx/foo-1.0rc1-cp36-cp36m-linux_x86_64.whl"]%string ;;
   sort [("foo"%string, ws)] HEADERS) = inl TypeError.
Proof. vm_compute. reflexivity. Qed.

(** Among two wheels or more whose versions can be compared two by
    two, every version can also be compared with itself. *)
Lemma pairwise_comparable_some (l : list Wheel) :
  pairwise_comparable l = true -> 2 <= List.length l ->
  forall x, In x l -> loose_version x <> None.
Proof.
  destruct l as [|a [|b l]]; simpl; try lia. intros H _.
  apply andb_true_iff in H. destruct H as (H & _).
  apply andb_true_iff in H. destruct H as (Hab & Hl).
  apply andb_true_iff in Hab. destruct Hab as (Hab & _).
  apply comparable_some in Hab. destruct Hab as (Ha & Hb).
  intros x [<-|[<-|Hx]]; try assumption.
  rewrite forallb_forall in Hl. specialize (Hl x Hx).
  apply andb_true_iff in Hl. destruct Hl as (Hl & _).
  now apply comparable_some in Hl.
Qed.

Lemma pairwise_comparable_in (l : list Wheel) :
  pairwise_comparable l = true ->
  (forall x, In x l -> loose_version x <> None) ->
  forall x y, In x l -> In y l ->
              comparable (loose_version x) (loose_version y) = true.
Proof.
  induction l as [|a l IH]; intros H Hs x y Hx Hy; [destruct Hx|].
  simpl in H. apply andb_true_iff in H. destruct H as (Ha & Hl).
  rewrite forallb_forall in Ha.
  destruct Hx as [<-|Hx], Hy as [<-|Hy].
  - destruct (loose_version a) as [v|] eqn:E; [apply comparable_refl|].
    destruct (Hs a (or_introl eq_refl) E).
  - specialize (Ha y Hy). now apply andb_true_iff in Ha.
  - specialize (Ha x Hx). now apply andb_true_iff in Ha.
  - apply IH; auto. intros z Hz. apply Hs. now right.
Qed.

Lemma pairwise_all_comparable (l : list Wheel) :
  pairwise_comparable l = true ->
  List.length l <= 1 \/ all_comparable l = true.
Proof.
  intros H. destruct (le_lt_dec (List.length l) 1) as [Hl|Hl]; [now left|].
  right. unfold all_comparable. apply forallb_forall. intros x Hx.
  apply forallb_forall. intros y Hy.
  apply pairwise_comparable_in with l; auto.
  apply pairwise_comparable_some; [assumption|lia].
Qed.

(** The three sorts of a group whose versions can be compared two by
    two order it by version, then architecture, then python tag. *)
Lemma sort_group_spec_pairwise (l : list Wheel) :
  pairwise_comparable l = true ->
  exists g, sort_group l = inr g /\ Permutation l g /\ StronglySorted before g.
Proof.
  intros H. destruct (pairwise_all_comparable l H) as [Hl|Hc];
    [|now apply sort_group_spec].
  destruct l as [|w [|w' l]]; [| |simpl in Hl; lia].
  - exists []. repeat split; constructor.
  - exists [w]. repeat split; repeat constructor.
Qed.

Lemma sort_rows_spec_pairwise (wheels : dict (list Wheel)) (columns : list column)
      (names : list string) :
  (forall n g, In (n, g) wheels -> pairwise_comparable g = true) ->
  (forall n, In n names -> In n (keys wheels)) ->
  exists groups,
    sort_rows wheels columns names = inr (flat_map (map (row columns)) groups) /\
    Forall2 (fun n g => exists l, dict_get wheels n = Some l /\
                                  Permutation l g /\ StronglySorted before g)
            names groups.
Proof.
  intros Hc. induction names as [|n names IH]; intros Hk; simpl.
  - exists []. split; [reflexivity|constructor].
  - destruct (dict_get_keys wheels n) as (l & El); [apply Hk; now left|].
    destruct (sort_group_spec_pairwise l) as (g & Eg & Hp & Hs);
      [apply (Hc n), dict_get_in, El|].
    destruct IH as (groups & Er & Hf); [intros; apply Hk; now right|].
    exists (g :: groups). split.
    + unfold dict_item. rewrite El. simpl. rewrite Eg. simpl. rewrite Er.
      reflexivity.
    + constructor; [|assumption]. exists l. auto.
Qed.

(** What a sort raises was raised by a comparison of two keys. *)
Lemma insert_desc_exn (A K : Type) (key : A -> K) (lt : K -> K -> result bool)
      (x : A) (l : list A) (e : exn) :
  insert_desc key lt x l = inl e -> exists a b, lt a b = inl e.
Proof.
  induction l as [|y l IH]; simpl; [discriminate|].
  destruct (lt (key x) (key y)) as [e'|[|]] eqn:E; simpl.
  - intros H. inv H. eauto.
  - destruct (insert_desc key lt x l) as [e'|r]; simpl; [|discriminate].
    intros H. inv H. now apply IH.
  - discriminate.
Qed.

Lemma sort_desc_exn (A K : Type) (key : A -> K) (lt : K -> K -> result bool)
      (l : list A) (e : exn) :
  sort_desc key lt l = inl e -> exists a b, lt a b = inl e.
Proof.
  induction l as [|x l IH]; simpl; [discriminate|].
  destruct (sort_desc key lt l) as [e'|r]; simpl.
  - intros H. inv H. now apply IH.
  - apply insert_desc_exn.
Qed.

Lemma sort_group_exn (l : list Wheel) (e : exn) :
  sort_group l = inl e -> e = TypeError \/ e = AttributeError.
Proof.
  unfold sort_group.
  rewrite (sort_desc_pure python String.compare) by reflexivity. simpl.
  rewrite (sort_desc_pure arch String.compare) by reflexivity. simpl.
  intros H. apply sort_desc_exn in H. destruct H as (a & b & H).
  eapply LooseVersion_lt_exn, H.
Qed.

Lemma sort_rows_exn (wheels : dict (list Wheel)) (columns : list column)
      (names : list string) (e : exn) :
  (forall n, In n names -> In n (keys wheels)) ->
  sort_rows wheels columns names = inl e ->
  e = TypeError \/ e = AttributeError.
Proof.
  induction names as [|n names IH]; intros Hk; simpl; [discriminate|].
  destruct (dict_get_keys wheels n) as (l & El); [apply Hk; now left|].
  unfold dict_item. rewrite El. simpl.
  destruct (sort_group l) as [e'|g] eqn:Eg; simpl.
  - intros H. inv H. eapply sort_group_exn, Eg.
  - destruct (sort_rows wheels columns names) as [e'|r] eqn:Er; simpl;
      [|discriminate].
    intros H. inv H. apply IH; [|reflexivity]. intros; apply Hk; now right.
Qed.

Lemma sort_group_unfold (l : list Wheel) :
  sort_group l =
    sort_desc loose_version LooseVersion_lt
              (psort arch String.compare (psort python String.compare l)).
Proof.
  unfold sort_group.
  rewrite (sort_desc_pure python String.compare) by reflexivity. simpl.
  rewrite (sort_desc_pure arch String.compare) by reflexivity. reflexivity.
Qed.

Lemma sort_group_incomparable (w1 w2 : Wheel) :
  comparable (loose_version w1) (loose_version w2) = false ->
  exists e, sort_group [w1; w2] = inl e.
Proof.
  intros Hc. rewrite sort_group_unfold.
  remember (psort arch String.compare (psort python String.compare [w1; w2]))
    as l2 eqn:El2.
  assert (Hp : Permutation [w1; w2] l2).
  { subst l2. now rewrite <- !psort_perm. }
  clear El2. pose proof (Permutation_length Hp) as Hlen.
  destruct l2 as [|x [|y [|z l2]]]; try discriminate.
  assert (Hxy : comparable (loose_version x) (loose_version y) = false).
  { apply Permutation_length_2 in Hp. destruct Hp as [(-> & ->)|(-> & ->)];
      [assumption|now rewrite comparable_sym]. }
  apply LooseVersion_lt_incomparable in Hxy. destruct Hxy as (e & He).
  simpl. rewrite He. simpl. eauto.
Qed.

Lemma sort_incomparable (wheels : dict (list Wheel)) (columns : list column)
      (n : string) (w1 w2 : Wheel) :
  NoDup (keys wheels) -> In (n, [w1; w2]) wheels ->
  comparable (loose_version w1) (loose_version w2) = false ->
  exists e, sort wheels columns = inl e /\ (e = TypeError \/ e = AttributeError).
Proof.
  intros Hnd Hg Hc.
  destruct (sort_names (keys wheels)) as (names & En & Hp & _).
  assert (Hk : forall k, In k names -> In k (keys wheels)).
  { intros k Hk. now apply (Permutation_in _ (Permutation_sym Hp)). }
  assert (Hn : In n names).
  { apply (Permutation_in _ Hp). apply in_map_iff. now exists (n, [w1; w2]). }
  assert (Hget : dict_get wheels n = Some [w1; w2]).
  { clear Hp Hn Hk En names.
    induction wheels as [|[n' g'] wheels IH]; [destruct Hg|].
    simpl in *. inv Hnd. destruct Hg as [Hg|Hg].
    - inv Hg. now rewrite String.eqb_refl.
    - destruct (String.eqb_spec n' n) as [->|_]; [|auto].
      exfalso. apply H1. apply in_map_iff. now exists (n, [w1; w2]). }
  assert (Hr : exists e, sort_rows wheels columns names = inl e).
  { clear Hp Hk En. induction names as [|n' names IH]; [destruct Hn|]. simpl.
    destruct (dict_item wheels n') as [e|g'] eqn:Eg; simpl; [eauto|].
    destruct Hn as [->|Hn].
    - unfold dict_item in Eg. rewrite Hget in Eg. inv Eg.
      destruct (sort_group_incomparable _ _ Hc) as (e & ->). simpl. eauto.
    - destruct (sort_group g') as [e|s]; simpl; [eauto|].
      destruct (IH Hn) as (e & ->). simpl. eauto. }
  destruct Hr as (e & Hr). exists e. unfold sort. rewrite En. simpl.
  split; [assumption|]. eapply sort_rows_exn; eassumption.
Qed.

(** C4 (what the code does): for every mapping with ASCII names in
    which the versions of each group are ASCII text and can be compared
    two by two, [sort] returns the rows of the groups, one group after
    the other: the names are those of the mapping in the ascending
    order of their case-folded forms, and each group is a rearrangement
    of the group of its name in which a wheel comes before another only
    if its version is greater, or the versions are equal and its
    architecture is greater, or these are equal too and its python tag
    is greater or equal.  But for every mapping with distinct names
    that has a group of two wheels whose versions, ASCII text, cannot
    be compared, [sort] raises [TypeError] or [AttributeError] and returns no rows;
    so it does, with [TypeError], for the versions 1.0.1 and 1.0rc1. *)
Theorem sort_order :
  (forall (wheels : dict (list Wheel)) (columns : list column),
      (forall n g, In (n, g) wheels ->
                   pairwise_comparable g = true /\ ascii_versions g = true) ->
      (forall n, In n (keys wheels) -> ascii_name n = true) ->
      exists names groups,
        sort wheels columns = inr (flat_map (map (row columns)) groups) /\
        Permutation (keys wheels) names /\
        StronglySorted name_before names /\
        Forall2 (fun n g => exists l, dict_get wheels n = Some l /\
                                      Permutation l g /\ StronglySorted before g)
                names groups) /\
  (forall (wheels : dict (list Wheel)) (columns : list column) (n : string)
          (w1 w2 : Wheel),
      NoDup (keys wheels) -> In (n, [w1; w2]) wheels ->
      ascii_versions [w1; w2] = true ->
      comparable (loose_version w1) (loose_version w2) = false ->
      exists e, sort wheels columns = inl e /\
                (e = TypeError \/ e = AttributeError)) /\
  (ws <- wheels_of ["avx/foo-1.0.1-cp36-cp36m-linux_x86_64.whl";
                    "avx/foo-1.0rc1-cp36-cp36m-linux_x86_64.whl"]%string ;;
   sort [("foo"%string, ws)] HEADERS) = inl TypeError.
Proof.
  split; [|split].
  - intros wheels columns Hc _.
    destruct (sort_names (keys wheels)) as (names & En & Hp & Hs).
    destruct (sort_rows_spec_pairwise wheels columns names) as (groups & Er & Hf).
    + intros n g Hin. now destruct (Hc n g Hin).
    + intros n Hn. now apply (Permutation_in _ (Permutation_sym Hp)).
    + exists names, groups. unfold sort. rewrite En. simpl. auto.
  - intros wheels columns n w1 w2 Hnd Hin _. now apply sort_incomparable with n.
  - vm_compute. reflexivity.
Qed.

Lemma sort_order_witness :
  let w1 := mkWheel "avx/b-1.0-cp27-cp27mu-linux_x86_64.whl"
                    "avx" "b" "1.0" None "cp27" "cp27mu" "linux_x86_64" in
  let w2 := mkWheel "sse3/b-1.10-cp36-cp36m-linux_x86_64.whl"
                    "sse3" "b" "1.10" None "cp36" "cp36m" "linux_x86_64" in
  let w3 := mkWheel "avx/A--py3-none-any.whl"
                    "avx" "A" "" None "py3" "none" "any" in
  let w4 := mkWheel "avx/b-1.0rc1-cp27-cp27mu-linux_x86_64.whl"
                    "avx" "b" "1.0rc1" None "cp27" "cp27mu" "linux_x86_64" in
  let w5 := mkWheel "avx/b-1.0.1-cp27-cp27mu-linux_x86_64.whl"
                    "avx" "b" "1.0.1" None "cp27" "cp27mu" "linux_x86_64" in
  let wheels := [("b"%string, [w1; w2]); ("A"%string, [w3])] in
  (exists names groups,
      sort wheels [c_name; c_version] =
        inr (flat_map (map (row [c_name; c_version])) groups) /\
      Permutation (keys wheels) names /\
      StronglySorted name_before names /\
      Forall2 (fun n g => exists l, dict_get wheels n = Some l /\
                                    Permutation l g /\ StronglySorted before g)
              names groups) /\
  (exists e, sort [("b"%string, [w5; w4])] [c_name; c_version] = inl e /\
             (e = TypeError \/ e = AttributeError)).
Proof.
  intros w1 w2 w3 w4 w5 wheels. split.
  - apply (proj1 sort_order wheels [c_name; c_version]).
    + intros n g [H|[H|[]]]; inv H; split; vm_compute; reflexivity.
    + intros n [<-|[<-|[]]]; reflexivity.
  - apply (proj1 (proj2 sort_order) [("b"%string, [w5; w4])] [c_name; c_version]
             "b"%string w5 w4).
    + repeat constructor. intros [].
    + now left.
    + vm_compute. reflexivity.
    + vm_compute. reflexivity.
Defined.

(** ** get_wheels *)

Lemma for_each_app (A S : Type) (body : S -> A -> result S) (l1 l2 : list A) (s : S) :
  for_each body (l1 ++ l2) s = (s' <- for_each body l1 s ;; for_each body l2 s').
Proof.
  revert s. induction l1 as [|x l1 IH]; intros s; simpl; [reflexivity|].
  destruct (body s x); simpl; auto.
Qed.

Lemma pythons_loop_spec (w : Wheel) (pythons : list string) (wheels : dict (list Wheel)) :
  forallb supported pythons = true ->
  pythons_loop w pythons wheels =
    inr (if compatible w pythons then dict_append (name w) w wheels else wheels).
Proof.
  induction pythons as [|p ps IH]; [reflexivity|].
  intros H.
  change (supported p && forallb supported ps = true) in H.
  apply andb_true_iff in H. destruct H as (Hp & Hps).
  change (pythons_loop w (p :: ps) wheels)
    with (tags <- dict_item COMPATIBLE_PYTHON p ;;
          if str_in (python w) tags
          then ret (dict_append (name w) w wheels)
          else pythons_loop w ps wheels).
  change (compatible w (p :: ps))
    with (match dict_get COMPATIBLE_PYTHON p with
          | Some tags => str_in (python w) tags
          | None => false
          end || compatible w ps).
  unfold supported in Hp. unfold dict_item.
  destruct (dict_get COMPATIBLE_PYTHON p) as [tags|]; [|discriminate].
  unfold bind, ret. destruct (str_in (python w) tags); [reflexivity|].
  now apply IH.
Qed.

Section CollectorFacts.
Variable fnmatch : string -> string -> bool.
Variable fs : filesystem.
Variables (path rex : string) (pythons : list string).

(** The three nested loops visit the files of [traversed], one after
    the other. *)
Lemma visit_files_pairs (arch : string) (files : list string) (wheels : dict (list Wheel)) :
  for_each (visit_file fnmatch arch rex pythons) files wheels =
  for_each (fun d af => visit_file fnmatch (fst af) rex pythons d (snd af))
           (map (pair arch) files) wheels.
Proof.
  revert wheels. induction files as [|f files IH]; intros wheels; simpl;
    [reflexivity|].
  destruct (visit_file fnmatch arch rex pythons wheels f); simpl; auto.
Qed.

Lemma visit_dirs_pairs (arch : string) (dirs : list (list string))
      (wheels : dict (list Wheel)) :
  for_each (fun d files => for_each (visit_file fnmatch arch rex pythons) files d)
           dirs wheels =
  for_each (fun d af => visit_file fnmatch (fst af) rex pythons d (snd af))
           (map (pair arch) (List.concat dirs)) wheels.
Proof.
  revert wheels. induction dirs as [|files dirs IH]; intros wheels; simpl;
    [reflexivity|].
  rewrite map_app, for_each_app, visit_files_pairs.
  destruct (for_each _ (map (pair arch) files) wheels); simpl; auto.
Qed.

Lemma visit_archs_pairs (archs : list string) (wheels : dict (list Wheel)) :
  for_each (visit_arch fnmatch fs path rex pythons) archs wheels =
  for_each (fun d af => visit_file fnmatch (fst af) rex pythons d (snd af))
           (traversed fs path archs) wheels.
Proof.
  revert wheels. induction archs as [|arch archs IH]; intros wheels; simpl;
    [reflexivity|].
  rewrite for_each_app. unfold visit_arch at 1. rewrite visit_dirs_pairs.
  destruct (for_each _ (map (pair arch) _) wheels); simpl; auto.
Qed.


End CollectorFacts.

(** The group of a name holds the wheels of that name, in their
    order. *)
Lemma dict_get_append (n k : string) (w : Wheel) (d : dict (list Wheel)) :
  dict_get (dict_append k w d) n =
    if String.eqb k n
    then Some (match dict_get d n with Some l => l ++ [w] | None => [w] end)
    else dict_get d n.
Proof.
  induction d as [|[k' l] d IH]; simpl.
  - destruct (String.eqb k n); reflexivity.
  - destruct (String.eqb_spec k' k) as [->|Hne]; simpl.
    + destruct (String.eqb k n); reflexivity.
    + rewrite IH. destruct (String.eqb_spec k n) as [->|Hkn].
      * destruct (String.eqb_spec k' n); [congruence|reflexivity].
      * reflexivity.
Qed.



(** The test of [get_wheels] for one architecture and one python. *)
Example get_wheels_arch_python :
  get_wheels glob_match test_house "wheelhouse_test_dir" ["avx2"%string]
             "" "" ["3.6"%string] false =
  (n <- wheels_of ["avx2/netCDF4-1.2.0-cp36-cp36m-linux_x86_64.whl";
                   "avx2/netCDF4-1.3.1-cp36-cp36m-linux_x86_64.whl"]%string ;;
   t <- wheels_of ["avx2/torch_cpu-0.4.0-cp36-cp36m-linux_x86_64.whl"]%string ;;
   ret [("netCDF4"%string, n); ("torch_cpu"%string, t)]).
Proof. vm_compute. reflexivity. Qed.

Example get_wheels_wildversion_wildname :
  get_wheels glob_match test_house "wheelhouse_test_dir" ["avx2"%string]
             "*CDF*" "1.2.*" ["3.6"%string] false =
  (n <- wheels_of ["avx2/netCDF4-1.2.0-cp36-cp36m-linux_x86_64.whl"]%string ;;
   ret [("netCDF4"%string, n)]).
Proof. lazy. reflexivity. Qed.




(** A directory that is not there adds no file to the visit. *)
Lemma traversed_missing (fs : filesystem) (path missing : string) (archs : list string) :
  fs (path ++ "/" ++ missing)%string = None ->
  traversed fs path archs =
  traversed fs path (filter (fun a => negb (String.eqb a missing)) archs).
Proof.
  intros H. unfold traversed.
  induction archs as [|a archs IH]; [reflexivity|].
  cbn [flat_map filter]. destruct (String.eqb_spec a missing) as [->|Hne].
  - cbn [negb]. unfold os_walk at 1. rewrite H. exact IH.
  - cbn [negb flat_map]. now rewrite IH.
Qed.

(** C9: for an architecture whose directory does not exist, the loop of
    [get_wheels] over that architecture leaves the mapping as it is and
    raises nothing, and [get_wheels] gives what it gives for the other
    architectures alone. *)
Theorem get_wheels_missing_arch
        (fnmatch : string -> string -> bool) (fs : filesystem)
        (path : string) (archs : list string) (nm version : string)
        (pythons : list string) (latest : bool) (missing : string) :
  fs (path ++ "/" ++ missing)%string = None ->
  (forall wheels,
      visit_arch fnmatch fs path (nm ++ "*" ++ version ++ "*.whl") pythons
                 wheels missing = inr wheels) /\
  get_wheels fnmatch fs path archs nm version pythons latest =
  get_wheels fnmatch fs path
             (filter (fun a => negb (String.eqb a missing)) archs)
             nm version pythons latest.
Proof.
  intros H. split.
  - intros wheels. unfold visit_arch, os_walk. now rewrite H.
  - unfold get_wheels. rewrite !visit_archs_pairs.
    now rewrite (traversed_missing fs path missing archs H).
Qed.

Lemma get_wheels_missing_arch_witness :
  get_wheels glob_match test_house "wheelhouse_test_dir"
             ["avx2"; "avx512"; "generic"]%string "" "" ["3.6"%string] true =
  get_wheels glob_match test_house "wheelhouse_test_dir"
             ["avx2"; "generic"]%string "" "" ["3.6"%string] true.
Proof.
  apply (get_wheels_missing_arch glob_match test_house "wheelhouse_test_dir"
           ["avx2"; "avx512"; "generic"]%string "" "" ["3.6"%string] true
           "avx512").
  vm_compute. reflexivity.
Defined.

(** C6: [is_compatible] is false when no version is requested, be the
    list absent or empty; otherwise it is true exactly when the python
    tag of the wheel is in the set that [COMPATIBLE_PYTHON] gives for
    one of the requested versions.  The sets are those of the versions
    2.7, 3.5, 3.6 and 3.7, and for these versions the loop of
    [get_wheels] over [pythons] appends the wheel exactly when
    [is_compatible] holds. *)
Theorem is_compatible_spec (wheel : Wheel) :
  is_compatible wheel None = false /\
  is_compatible wheel (Some []) = false /\
  (forall pythons,
      is_compatible wheel (Some pythons) = true <->
      exists p tags, In p pythons /\ dict_get COMPATIBLE_PYTHON p = Some tags /\
                     In (python wheel) tags) /\
  COMPATIBLE_PYTHON =
    [("2.7", ["py2.py3"; "py2"; "cp27"]); ("3.5", ["py2.py3"; "py3"; "cp35"]);
     ("3.6", ["py2.py3"; "py3"; "cp36"]); ("3.7", ["py2.py3"; "py3"; "cp37"])]%string /\
  (forall pythons wheels,
      forallb supported pythons = true ->
      pythons_loop wheel pythons wheels =
        inr (if is_compatible wheel (Some pythons)
             then dict_append (name wheel) wheel wheels else wheels)).
Proof.
  split; [reflexivity|]. split; [reflexivity|]. split; [|split; [reflexivity|]].
  - intros pythons. unfold is_compatible. rewrite existsb_exists. split.
    + intros (p & Hp & H). destruct (dict_get COMPATIBLE_PYTHON p) as [tags|] eqn:E;
        [|discriminate].
      exists p, tags. repeat split; auto.
      unfold str_in in H. apply existsb_exists in H. destruct H as (t & Ht & Et).
      apply String.eqb_eq in Et. now subst.
    + intros (p & tags & Hp & E & Ht). exists p. split; [assumption|].
      rewrite E. unfold str_in. apply existsb_exists. exists (python wheel).
      split; [assumption|apply String.eqb_refl].
  - intros pythons wheels Hs. now apply pythons_loop_spec.
Qed.

Lemma is_compatible_spec_witness :
  let w := mkWheel "avx/netCDF4-1.3.1-cp27-cp27mu-linux_x86_64.whl"
                   "avx" "netCDF4" "1.3.1" None "cp27" "cp27mu" "linux_x86_64" in
  is_compatible w (Some ["3.5"; "2.7"]%string) = true /\
  pythons_loop w ["3.5"; "2.7"]%string [] = inr [("netCDF4"%string, [w])].
Proof.
  intros w. destruct (is_compatible_spec w) as (_ & _ & Hiff & _ & Hloop).
  assert (H : is_compatible w (Some ["3.5"; "2.7"]%string) = true).
  { apply Hiff. exists "2.7"%string, ["py2.py3"; "py2"; "cp27"]%string.
    split; [right; now left|]. split; [reflexivity|]. right. right. now left. }
  split; [exact H|]. rewrite Hloop by reflexivity. now rewrite H.
Defined.

(** The tests of [is_compatible]. *)
Example is_compatible_tests :
  forall w, parse_tags "avx/netCDF4-1.3.1-cp27-cp27mu-linux_x86_64.whl" = inr w ->
  is_compatible w None = false /\
  is_compatible w (Some ["2.7"%string]) = true /\
  is_compatible w (Some ["3.5"%string]) = false /\
  is_compatible w (Some AVAILABLE_PYTHONS) = true.
Proof.
  intros w H. vm_compute in H. inv H. repeat split.
Qed.

(** * Further properties *)

(** ** The matcher finds a match whenever there is one *)

Lemma matches_length (r : regex) s m s' m' :
  matches r s m s' m' ->
  List.length s' <= List.length s /\
  (nullable r = false -> List.length s' < List.length s).
Proof.
  intros H. induction H; simpl.
  - split; [lia|intros _; lia].
  - split; [lia|intros _; lia].
  - destruct IHmatches1 as (H1 & H1'), IHmatches2 as (H2 & H2').
    split; [lia|]. intros E. apply andb_false_iff in E.
    destruct E as [E|E]; [specialize (H1' E)|specialize (H2' E)]; lia.
  - split; [tauto|discriminate].
  - split; [lia|discriminate].
  - assumption.
  - destruct IHmatches1 as (H1 & H1'), IHmatches2 as (H2 & H2').
    split; [lia|]. intros E. specialize (H1' E). lia.
  - split; [lia|discriminate].
  - split; [|discriminate]. simpl in *. lia.
  - assumption.
Qed.

Section RunComplete.
Variable R : Type.

Lemma greedy_loop_fallback
      (body : chars -> marks -> (chars -> marks -> option R) -> option R)
      (n : nat) (s : chars) (m : marks) (k : chars -> marks -> option R) :
  k s m <> None -> greedy_loop body n s m k <> None.
Proof.
  intros H. destruct n as [|n]; simpl; [assumption|].
  destruct (body s m _); [discriminate|assumption].
Qed.

Lemma run_complete (r : regex) :
  progressing r = true ->
  forall s m s' m' (k : chars -> marks -> option R),
    matches r s m s' m' -> k s' m' <> None -> run r s m k <> None.
Proof.
  induction r as [c|cs|r1 IH1 r2 IH2|r IH|r IH|r IH|g r IH]; simpl; intros Hp.
  - intros s m s' m' k H Hk. inv H. simpl. now rewrite Ascii.eqb_refl.
  - intros s m s' m' k H Hk. inv H. simpl. now rewrite H1.
  - apply andb_true_iff in Hp. destruct Hp as (Hp1 & Hp2).
    intros s m s' m' k H Hk. inv H. simpl.
    eapply IH1; [assumption|eassumption|]. eapply IH2; eassumption.
  - intros s m s' m' k H Hk. inv H; simpl.
    + specialize (IH Hp _ _ _ _ k H1 Hk).
      destruct (run r s m k); [discriminate|contradiction].
    + destruct (run r s' m' k); [discriminate|assumption].
  - apply andb_true_iff in Hp. destruct Hp as (Hn & Hp).
    apply negb_true_iff in Hn. specialize (IH Hp).
    intros s m s' m' k H Hk. remember (Plus r) as pr eqn:E.
    revert k Hk. induction H; inv E; intros k Hk.
    + simpl. eapply IH; [eassumption|]. now apply greedy_loop_fallback.
    + clear IHmatches1. specialize (IHmatches2 eq_refl k Hk).
      simpl. eapply IH; [eassumption|].
      destruct (List.length s1) as [|n] eqn:El.
      * apply matches_length in H0. simpl in H0. destruct H0 as (_ & H0).
        specialize (H0 Hn). lia.
      * simpl. simpl in IHmatches2.
        destruct (run r s1 m1 (fun s' m' => greedy_loop (run (R:=R) r) (List.length s') s' m' k))
          as [res|] eqn:Er; [|contradiction].
        apply run_sound in Er. destruct Er as (s3 & m3 & Hm & Hr).
        pose proof (proj2 (matches_length Hm) Hn) as Hlt.
        assert (Hgo : run r s1 m1
                          (fun s' m' => progress s1 s' (greedy_loop (run (R:=R) r) n s' m' k))
                      <> None).
        { eapply IH; [exact Hm|]. unfold progress.
          replace (List.length s3 <? List.length s1) with true
            by (symmetry; apply Nat.ltb_lt; lia).
          rewrite (@greedy_loop_fuel R r k n (List.length s3) s3 m3) by lia.
          congruence. }
        destruct (run r s1 m1 _); [discriminate|contradiction].
  - apply andb_true_iff in Hp. destruct Hp as (Hn & Hp).
    apply negb_true_iff in Hn. specialize (IH Hp).
    intros s m s' m' k H Hk. remember (StarLazy r) as pr eqn:E.
    induction H; inv E.
    + simpl. destruct (List.length s); simpl; [assumption|].
      destruct (k s m); [discriminate|contradiction].
    + clear IHmatches1. specialize (IHmatches2 eq_refl Hk).
      pose proof (proj2 (matches_length H) Hn) as Hlt.
      simpl in *. destruct (List.length s) as [|n] eqn:El; [lia|].
      simpl. destruct (k s m); [discriminate|]. simpl.
      eapply IH; [exact H|]. unfold progress.
      replace (List.length s1 <? List.length s) with true
        by (symmetry; apply Nat.ltb_lt; lia).
      now rewrite (@lazy_loop_fuel R r k n (List.length s1) s1 m1) by lia.
  - intros s m s' m' k H Hk. inv H. simpl. eapply IH; eassumption.
Qed.
End RunComplete.

(** ** The file names that parse *)

Lemma matches_token (cs : charset) (t s : chars) (m : marks) :
  token cs t = true -> matches (Plus (In_ cs)) (t ++ s) m s m.
Proof.
  destruct t as [|c t]; [discriminate|]. simpl. intros H.
  apply andb_true_iff in H. destruct H as (Hc & Ht).
  revert c Hc. induction t as [|c' t IH]; intros c Hc; simpl.
  - apply M_Plus_one. now apply M_In.
  - simpl in Ht. apply andb_true_iff in Ht. destruct Ht as (Hc' & Ht).
    eapply M_Plus_more; [now apply M_In|]. now apply IH.
Qed.

Lemma matches_grp_token (g : group) (cs : charset) (t s : chars) (m : marks) :
  token cs t = true ->
  matches (Grp g (Plus (In_ cs))) (t ++ s) m s (set_mark g t m).
Proof.
  intros H. pose proof (M_Grp g (matches_token cs t s m H)) as Hg.
  now rewrite consumed_app in Hg.
Qed.

Lemma matches_grp_run (g : group) (cs : charset) (t s : chars) (m : marks) :
  forallb (mem cs) t = true ->
  matches (Grp g (Opt (Plus (In_ cs)))) (t ++ s) m s (set_mark g t m).
Proof.
  intros H. destruct t as [|c t].
  - pose proof (M_Grp g (M_Opt_none (Plus (In_ cs)) s m)) as Hg.
    now rewrite consumed_nil in Hg.
  - pose proof (M_Grp g (M_Opt_some (matches_token cs (c :: t) s m H))) as Hg.
    now rewrite consumed_app in Hg.
Qed.

Lemma matches_rounds (bs : chars) :
  rounds bs ->
  forall s m, exists m',
    matches (StarLazy (Cat (In_ PlusDash) (Grp g_build (Plus (In_ Word)))))
            (bs ++ s) m s m'.
Proof.
  induction 1 as [|sep w bs Hsep Hw Hbs IH]; intros s m.
  - exists m. apply M_Star_nil.
  - destruct (IH s (set_mark g_build w m)) as (m' & Hm').
    exists m'. simpl. rewrite <- app_assoc.
    eapply M_Star_more; [|exact Hm'].
    eapply M_Cat; [now apply M_In|]. now apply matches_grp_token.
Qed.

Lemma matches_rounds_inv s m s' m' :
  matches (StarLazy (Cat (In_ PlusDash) (Grp g_build (Plus (In_ Word))))) s m s' m' ->
  exists bs, s = bs ++ s' /\ rounds bs.
Proof.
  remember (StarLazy (Cat (In_ PlusDash) (Grp g_build (Plus (In_ Word))))) as r eqn:E.
  intros H. induction H; inv E.
  - exists []. split; [reflexivity|constructor].
  - destruct (IHmatches2 eq_refl) as (bs2 & Es & Hr). clear IHmatches1 IHmatches2.
    subst. inv_matches.
    match goal with H : Forall _ ?t |- _ => rename t into w end.
    exists (x :: w ++ bs2). split; [simpl; now rewrite <- app_assoc|].
    constructor; [assumption|now apply token_true|assumption].
Qed.

Lemma WHEEL_RE_progressing : progressing WHEEL_RE = true.
Proof. reflexivity. Qed.

Lemma wheel_name_matches (s : chars) :
  wheel_name s -> exists s' m, matches WHEEL_RE s no_marks s' m.
Proof.
  intros (a & n & v & bs & p & ab & pl & rest & -> & Ha & Hn & Hv & Hbs
          & Hp & Hab & Hpl).
  destruct (matches_rounds Hbs
              ("-"%char :: p ++ "-"%char :: ab ++ "-"%char :: pl ++ rest)
              (set_mark g_version v
                 (set_mark g_name n (set_mark g_arch a no_marks))))
    as (mb & Hmb).
  exists rest. eexists. unfold WHEEL_RE.
  eapply M_Cat; [now apply matches_grp_token|].
  eapply M_Cat; [apply M_Lit|].
  eapply M_Cat; [now apply matches_grp_token|].
  eapply M_Cat; [apply M_Lit|].
  eapply M_Cat; [now apply matches_grp_run|].
  eapply M_Cat; [exact Hmb|].
  eapply M_Cat; [apply M_Lit|].
  eapply M_Cat; [now apply matches_grp_token|].
  eapply M_Cat; [apply M_Lit|].
  eapply M_Cat; [now apply matches_grp_token|].
  eapply M_Cat; [apply M_Lit|].
  now apply matches_grp_token.
Qed.

Lemma matches_wheel_name (s s' : chars) (m m' : marks) :
  matches WHEEL_RE s m s' m' -> wheel_name s.
Proof.
  intros H. unfold WHEEL_RE in H.
  repeat match goal with
         | H : matches (Cat _ _) _ _ _ _ |- _ => inv H
         | H : matches (Lit _) _ _ _ _ |- _ => inv H
         end.
  repeat match goal with
         | H : matches (Grp _ (Plus _)) _ _ _ _ |- _ =>
             apply matches_grp_plus in H; destruct H as (? & (? & ?) & ? & ?)
         | H : matches (Grp _ (Opt _)) _ _ _ _ |- _ =>
             apply matches_grp_opt in H; destruct H as (? & ? & ? & ?)
         | H : matches (StarLazy _) _ _ _ _ |- _ =>
             apply matches_rounds_inv in H; destruct H as (? & ? & ?)
         end.
  subst. unfold wheel_name.
  do 7 eexists. exists s'. split; [reflexivity|].
  repeat split; auto using token_true.
  now apply forallb_forall, Forall_forall.
Qed.

Lemma rmatch_wheel_name (s : chars) :
  (exists m, rmatch WHEEL_RE s = Some m) <-> wheel_name s.
Proof.
  split.
  - intros (m & H). apply rmatch_sound in H. destruct H as (s' & H).
    eapply matches_wheel_name, H.
  - intros H. apply wheel_name_matches in H. destruct H as (s' & m & H).
    unfold rmatch.
    destruct (run WHEEL_RE s no_marks (fun _ m0 => Some m0)) as [m0|] eqn:E;
      [eauto|].
    exfalso. revert E.
    apply (@run_complete marks WHEEL_RE WHEEL_RE_progressing s no_marks s' m
                         (fun _ m0 => Some m0) H).
    discriminate.
Qed.

(** X1: on ASCII file names [parse_tags] accepts exactly the names of
    the grammar arch/name-version, any number of build rounds (a plus or
    a dash and a word), -python-abi-platform and any text behind: for
    such a name it returns a wheel, which keeps the file name, and for
    every other ASCII name it raises the exception
    "Could not get tags for : " with the name. *)
Theorem parse_tags_language (f : string) :
  ascii_name f = true ->
  (wheel_name (list_ascii_of_string f) ->
   exists w, parse_tags f = inr w /\ filename w = f) /\
  (~ wheel_name (list_ascii_of_string f) ->
   parse_tags f = inl (parse_error f)).
Proof.
  intros _. rewrite <- rmatch_wheel_name. unfold parse_tags.
  destruct (rmatch WHEEL_RE (list_ascii_of_string f)) as [m|]; split.
  - intros _. eexists. split; reflexivity.
  - intros H. destruct H. eauto.
  - intros (m & H). discriminate.
  - reflexivity.
Qed.

Lemma parse_tags_language_witness :
  (exists w, parse_tags "avx2/netCDF4-1.3.1-cp36-cp36m-linux_x86_64.whl" = inr w /\
             filename w = "avx2/netCDF4-1.3.1-cp36-cp36m-linux_x86_64.whl"%string) /\
  parse_tags "avx2/netCDF4-1.3.1.cp36-cp36m-linux_x86_64.whl" =
    inl (parse_error "avx2/netCDF4-1.3.1.cp36-cp36m-linux_x86_64.whl").
Proof.
  split.
  - apply (proj1 (@parse_tags_language
                    "avx2/netCDF4-1.3.1-cp36-cp36m-linux_x86_64.whl" eq_refl)).
    exists (list_ascii_of_string "avx2"), (list_ascii_of_string "netCDF4"),
      (list_ascii_of_string "1.3.1"), [], (list_ascii_of_string "cp36"),
      (list_ascii_of_string "cp36m"), (list_ascii_of_string "linux_x86_64"),
      (list_ascii_of_string ".whl").
    repeat split; try reflexivity. constructor.
  - apply (proj2 (@parse_tags_language
                    "avx2/netCDF4-1.3.1.cp36-cp36m-linux_x86_64.whl" eq_refl)).
    intros H. apply wheel_name_matches in H. destruct H as (s' & m & H).
    destruct (rmatch WHEEL_RE
                (list_ascii_of_string "avx2/netCDF4-1.3.1.cp36-cp36m-linux_x86_64.whl"))
      as [m0|] eqn:E; [vm_compute in E; discriminate|].
    revert E. unfold rmatch.
    apply (@run_complete marks WHEEL_RE WHEEL_RE_progressing _ no_marks s' m
                         (fun _ m0 => Some m0) H).
    discriminate.
Defined.

(** ** What the tags of a parsed wheel are *)

Lemma list_ascii_of_string_app (a b : string) :
  list_ascii_of_string (a ++ b) = list_ascii_of_string a ++ list_ascii_of_string b.
Proof. induction a as [|c a IH]; simpl; [reflexivity|now rewrite IH]. Qed.

Lemma string_of_list_ascii_app (a b : chars) :
  string_of_list_ascii (a ++ b) =
    (string_of_list_ascii a ++ string_of_list_ascii b)%string.
Proof. induction a as [|c a IH]; simpl; [reflexivity|now rewrite IH]. Qed.

Lemma plusdash_not_worddot (c : ascii) :
  mem PlusDash c = true -> mem WordDot c = false.
Proof.
  simpl. intros H. apply orb_true_iff in H.
  destruct H as [H|H]; apply Ascii.eqb_eq in H; subst; reflexivity.
Qed.

Lemma worddot_not_word (c : ascii) : mem WordDot c = false -> mem Word c = false.
Proof. simpl. intros H. now apply orb_false_iff in H. Qed.

Lemma rounds_start (bs t : chars) :
  rounds bs -> starts_in WordDot (bs ++ "-"%char :: t) = false.
Proof.
  intros [|sep w bs' Hsep _ _]; [reflexivity|]. simpl.
  now apply plusdash_not_worddot in Hsep.
Qed.

(** A run of characters of a set that ends where the set ends is found
    in one way only. *)
Lemma maximal_run_unique (cs : charset) (v v' t t' : chars) :
  forallb (mem cs) v = true -> forallb (mem cs) v' = true ->
  starts_in cs t = false -> starts_in cs t' = false ->
  v ++ t = v' ++ t' -> v = v' /\ t = t'.
Proof.
  revert v'. induction v as [|c v IH]; intros [|c' v'] Hv Hv' Ht Ht' E; simpl in *.
  - auto.
  - subst t. simpl in Ht. apply andb_true_iff in Hv'. destruct Hv'. congruence.
  - subst t'. simpl in Ht'. apply andb_true_iff in Hv. destruct Hv. congruence.
  - inv E. apply andb_true_iff in Hv, Hv'. destruct Hv, Hv'.
    destruct (IH v') as (-> & ->); auto.
Qed.

Lemma matches_builds_rounds s m s' m' :
  matches (StarLazy (Cat (In_ PlusDash) (Grp g_build (Plus (In_ Word))))) s m s' m' ->
  exists bs, s = bs ++ s' /\ rounds bs /\ (forall g, g <> g_build -> m' g = m g).
Proof.
  intros H. destruct (matches_rounds_inv H) as (bs & E & Hr).
  destruct (matches_builds H) as (bs' & _ & Ho & _). exists bs. auto.
Qed.

(** The first three tags of a match: they end at the slash, at the
    dash behind the name and where the characters of a version end. *)
Lemma WHEEL_RE_head (s : chars) (m : marks) :
  rmatch WHEEL_RE s = Some m ->
  exists a n v t,
    s = a ++ "/"%char :: n ++ "-"%char :: v ++ t /\
    m g_arch = Some a /\ m g_name = Some n /\ m g_version = Some v /\
    token Word a = true /\ token WordDot n = true /\
    forallb (mem WordDot) v = true /\
    (forall u, starts_in WordDot (t ++ u) = false).
Proof.
  intros H. apply rmatch_sound in H. destruct H as (s' & H).
  unfold WHEEL_RE in H.
  repeat match goal with
         | H : matches (Cat _ _) _ _ _ _ |- _ => inv H
         | H : matches (Lit _) _ _ _ _ |- _ => inv H
         end.
  match goal with H : matches (Grp g_arch _) _ _ _ _ |- _ =>
    apply matches_grp_plus in H; destruct H as (a & (Ha1 & Ha) & Ea & Ema) end.
  match goal with H : matches (Grp g_name _) _ _ _ _ |- _ =>
    apply matches_grp_plus in H; destruct H as (n & (Hn1 & Hn) & En & Emn) end.
  match goal with H : matches (Grp g_version _) _ _ _ _ |- _ =>
    apply matches_grp_opt in H; destruct H as (v & Hv & Ev & Emv) end.
  match goal with H : matches (StarLazy _) _ _ _ _ |- _ =>
    apply matches_builds_rounds in H; destruct H as (bs & Eb & Hbs & Ho) end.
  match goal with H : matches (Grp g_python _) _ _ _ _ |- _ =>
    apply matches_grp_plus in H; destruct H as (p & _ & Ep & Emp) end.
  match goal with H : matches (Grp g_abi _) _ _ _ _ |- _ =>
    apply matches_grp_plus in H; destruct H as (ab & _ & Eab & Emab) end.
  match goal with H : matches (Grp g_platform _) _ _ _ _ |- _ =>
    apply matches_grp_plus in H; destruct H as (pl & _ & Epl & Empl) end.
  subst.
  exists a, n, v, (bs ++ "-"%char :: p ++ "-"%char :: ab ++ "-"%char :: pl ++ s').
  split; [reflexivity|].
  unfold set_mark at 1 2 3 4 5 6 7 8 9. simpl.
  rewrite !Ho by discriminate. unfold set_mark. simpl.
  repeat split; auto using token_true.
  - now apply forallb_forall, Forall_forall.
  - intros u. rewrite <- app_assoc. now apply rounds_start.
Qed.

Lemma token_forallb (cs : charset) (t : chars) :
  token cs t = true -> forallb (mem cs) t = true.
Proof. destruct t; [discriminate|auto]. Qed.

Lemma token_count_zero (cs : charset) (c : ascii) (t : chars) :
  mem cs c = false -> forallb (mem cs) t = true -> count c t = 0.
Proof.
  intros Hc Ht. apply (count_set_zero cs c Hc).
  now apply Forall_forall, forallb_forall.
Qed.

(** X2: the first three tags of a parsed wheel with an ASCII file
    name are read off the name without regard to what follows: the
    architecture is the text before the first slash, the name the text
    between that slash and the first dash behind it, and the version
    the longest run of word characters and dots behind that dash. *)
Theorem parse_tags_head (f : string) (w : Wheel) (a n v t : chars) :
  ascii_name f = true ->
  parse_tags f = inr w ->
  list_ascii_of_string f = a ++ "/"%char :: n ++ "-"%char :: v ++ t ->
  count "/" a = 0 -> count "-" n = 0 ->
  forallb (mem WordDot) v = true -> starts_in WordDot t = false ->
  arch w = string_of_list_ascii a /\
  name w = string_of_list_ascii n /\
  version w = string_of_list_ascii v.
Proof.
  intros _ H E Ha Hn Hv Ht.
  apply parse_tags_inr in H. destruct H as (m & Hm & ->).
  apply WHEEL_RE_head in Hm.
  destruct Hm as (a' & n' & v' & t' & E' & Ema & Emn & Emv & Ha' & Hn' & Hv' & Ht').
  rewrite E in E'.
  apply split_first in E';
    [|assumption|now apply (token_count_zero Word), token_forallb].
  destruct E' as (<- & E').
  apply split_first in E';
    [|assumption|now apply (token_count_zero WordDot), token_forallb].
  destruct E' as (<- & E').
  apply (maximal_run_unique WordDot) in E'; auto.
  - destruct E' as (<- & _). unfold group_str. simpl.
    now rewrite Ema, Emn, Emv.
  - specialize (Ht' []). now rewrite app_nil_r in Ht'.
Qed.

Lemma parse_tags_head_witness :
  let w := mkWheel "avx2/netCDF4-1.3.1-cp36-cp36m-linux_x86_64.whl"
                   "avx2" "netCDF4" "1.3.1" None "cp36" "cp36m" "linux_x86_64" in
  arch w = "avx2"%string /\ name w = "netCDF4"%string /\ version w = "1.3.1"%string.
Proof.
  intros w.
  apply (@parse_tags_head "avx2/netCDF4-1.3.1-cp36-cp36m-linux_x86_64.whl" w
           (list_ascii_of_string "avx2") (list_ascii_of_string "netCDF4")
           (list_ascii_of_string "1.3.1")
           (list_ascii_of_string "-cp36-cp36m-linux_x86_64.whl"));
    reflexivity.
Defined.

Lemma wheel_name_app (s u : chars) : wheel_name s -> wheel_name (s ++ u).
Proof.
  intros (a & n & v & bs & p & ab & pl & rest & -> & H).
  exists a, n, v, bs, p, ab, pl, (rest ++ u). split; [|assumption].
  repeat (rewrite <- ?app_assoc; simpl). reflexivity.
Qed.

(** X3: text added at the end of a file name that parses never makes
    it fail, and leaves the architecture, the name and the version as
    they are: the pattern is not anchored at the end, which is also why
    the extension is not looked at. *)
Theorem parse_tags_trailing (f s : string) (w : Wheel) :
  parse_tags f = inr w ->
  exists w',
    parse_tags (f ++ s) = inr w' /\
    arch w' = arch w /\ name w' = name w /\ version w' = version w.
Proof.
  intros H.
  assert (Hn : wheel_name (list_ascii_of_string (f ++ s))).
  { rewrite list_ascii_of_string_app. apply wheel_name_app.
    apply rmatch_wheel_name. apply parse_tags_inr in H.
    destruct H as (m & Hm & _). eauto. }
  apply rmatch_wheel_name in Hn. destruct Hn as (m' & Hm').
  exists (mkWheel (f ++ s) (group_str m' g_arch) (group_str m' g_name)
                  (group_str m' g_version) (group_opt m' g_build)
                  (group_str m' g_python) (group_str m' g_abi)
                  (group_str m' g_platform)).
  split; [unfold parse_tags; now rewrite Hm'|].
  apply parse_tags_inr in H. destruct H as (m & Hm & ->).
  apply WHEEL_RE_head in Hm, Hm'.
  destruct Hm as (a & n & v & t & E & Ema & Emn & Emv & Ha & Hn & Hv & Ht).
  destruct Hm' as (a' & n' & v' & t' & E' & Ema' & Emn' & Emv' & Ha' & Hn' & Hv' & Ht').
  rewrite list_ascii_of_string_app, E in E'.
  repeat (rewrite <- ?app_assoc in E'; simpl in E').
  apply split_first in E';
    [|now apply (token_count_zero Word), token_forallb
     |now apply (token_count_zero Word), token_forallb].
  destruct E' as (<- & E').
  apply split_first in E';
    [|now apply (token_count_zero WordDot), token_forallb
     |now apply (token_count_zero WordDot), token_forallb].
  destruct E' as (<- & E').
  apply (maximal_run_unique WordDot) in E'; auto.
  - destruct E' as (<- & _). unfold group_str. simpl.
    now rewrite Ema, Emn, Emv, Ema', Emn', Emv'.
  - specialize (Ht' []). now rewrite app_nil_r in Ht'.
Qed.

Lemma parse_tags_trailing_witness :
  exists w',
    parse_tags ("avx2/netCDF4-1.3.1-cp36-cp36m-linux_x86_64" ++ ".whl") = inr w' /\
    arch w' = "avx2"%string /\ name w' = "netCDF4"%string /\
    version w' = "1.3.1"%string.
Proof.
  apply (@parse_tags_trailing "avx2/netCDF4-1.3.1-cp36-cp36m-linux_x86_64" ".whl"
           (mkWheel "avx2/netCDF4-1.3.1-cp36-cp36m-linux_x86_64"
                    "avx2" "netCDF4" "1.3.1" None "cp36" "cp36m" "linux_x86_64")).
  reflexivity.
Defined.

(** X4: the tags of a parsed wheel put the file name together again:
    the name is arch/name-version, a middle part, -python-abi-platform
    and a rest.  The middle part is empty when the wheel has no build;
    otherwise it ends with a plus or a dash and the build. *)
Theorem parse_tags_reassemble (f : string) (w : Wheel) :
  parse_tags f = inr w ->
  exists mid rest : string,
    f = (arch w ++ "/" ++ name w ++ "-" ++ version w ++ mid ++
         "-" ++ python w ++ "-" ++ abi w ++ "-" ++ platform w ++ rest)%string /\
    match build w with
    | None => mid = EmptyString
    | Some b =>
        exists (pre : string) (sep : ascii),
          mid = (pre ++ String sep b)%string /\
          (sep = "+"%char \/ sep = "-"%char)
    end.
Proof.
  intros H. apply parse_tags_inr in H. destruct H as (m & Hm & ->).
  apply WHEEL_RE_sound in Hm.
  destruct Hm as (a & n & v & bs & p & ab & pl & rest & E & Hg & _ & _ & _ & _ & _ & _ & Hb).
  destruct Hg as (Ea & En & Ev & Ep & Eab & Epl).
  exists (string_of_list_ascii bs), (string_of_list_ascii rest).
  unfold group_str, group_opt. simpl. rewrite Ea, En, Ev, Ep, Eab, Epl. split.
  - rewrite <- (string_of_list_ascii_of_string f), E.
    repeat (rewrite ?string_of_list_ascii_app; simpl). reflexivity.
  - destruct Hb as [[-> ->]|(pre & sep & b & -> & Hsep & _ & _ & ->)]; simpl;
      [reflexivity|].
    exists (string_of_list_ascii pre), sep. split.
    + now rewrite string_of_list_ascii_app.
    + simpl in Hsep. apply orb_true_iff in Hsep.
      destruct Hsep as [Hs|Hs]; apply Ascii.eqb_eq in Hs; auto.
Qed.

Lemma parse_tags_reassemble_witness :
  let f := "avx/tensorflow_cpu-1.6.0+computecanada-cp36-cp36m-linux_x86_64.whl"%string in
  let w := mkWheel f "avx" "tensorflow_cpu" "1.6.0" (Some "computecanada"%string)
                   "cp36" "cp36m" "linux_x86_64" in
  exists mid rest : string,
    f = (arch w ++ "/" ++ name w ++ "-" ++ version w ++ mid ++
         "-" ++ python w ++ "-" ++ abi w ++ "-" ++ platform w ++ rest)%string /\
    match build w with
    | None => mid = EmptyString
    | Some b =>
        exists (pre : string) (sep : ascii),
          mid = (pre ++ String sep b)%string /\
          (sep = "+"%char \/ sep = "-"%char)
    end.
Proof.
  intros f w. apply (@parse_tags_reassemble f w). reflexivity.
Defined.

(** ** Local parts of a version *)

Lemma plus_builds_start (cs : charset) (ws : list chars) (t : chars) :
  mem cs "+" = false -> starts_in cs t = false ->
  starts_in cs (plus_builds ws ++ t) = false.
Proof. destruct ws; simpl; auto. Qed.

Lemma build_marks_other (ws : list chars) (m : marks) (g : group) :
  g <> g_build -> build_marks ws m g = m g.
Proof.
  intros Hg. revert m. induction ws as [|w ws IH]; intros m; simpl; [reflexivity|].
  unfold build_marks in IH. rewrite IH. unfold set_mark.
  destruct g; simpl; congruence.
Qed.

Lemma last_cons_default (A : Type) (l : list A) (x d d' : A) :
  last (x :: l) d = last (x :: l) d'.
Proof.
  revert x. induction l as [|y l IH]; intros x; [reflexivity|].
  change (last (y :: l) d = last (y :: l) d'). apply IH.
Qed.

Lemma build_marks_build (ws : list chars) (m : marks) :
  option_map string_of_list_ascii (build_marks ws m g_build) =
    last (map (fun w => Some (string_of_list_ascii w)) ws)
         (option_map string_of_list_ascii (m g_build)).
Proof.
  revert m. induction ws as [|w ws IH]; intros m; [reflexivity|].
  change (build_marks (w :: ws) m) with (build_marks ws (set_mark g_build w m)).
  rewrite IH. destruct ws as [|c ws]; [reflexivity|].
  exact (@last_cons_default _ (map (fun w => Some (string_of_list_ascii w)) ws)
                            (Some (string_of_list_ascii c)) _ _).
Qed.

(** The rounds of the build tag read the local parts one after the
    other when what follows a part is a plus sign, on which the rest of
    the pattern fails. *)
Lemma lazy_loop_plus (R : Type) (k : chars -> marks -> option R) (res : R)
      (t : chars) :
  (forall s m, k ("+"%char :: s) m = None) ->
  starts_in Word t = false ->
  forall ws m n,
    forallb (token Word) ws = true ->
    List.length ws <= n ->
    k t (build_marks ws m) = Some res ->
    lazy_loop (run (R:=R) (Cat (In_ PlusDash) (Grp g_build (Plus (In_ Word)))))
              n (plus_builds ws ++ t) m k = Some res.
Proof.
  intros Hk Ht ws. induction ws as [|w ws IH]; intros m n Hws Hn Hres.
  - now apply lazy_loop_none.
  - destruct n as [|n]; [simpl in Hn; lia|].
    simpl in Hws. apply andb_true_iff in Hws. destruct Hws as (Hw & Hws).
    change (plus_builds (w :: ws) ++ t)
      with (("+"%char :: w ++ plus_builds ws) ++ t).
    rewrite <- app_comm_cons, <- app_assoc.
    cbn [lazy_loop]. rewrite Hk. cbn [orelse]. rewrite run_cat.
    change (run (In_ PlusDash) ("+"%char :: ?s) ?m0 ?k0) with (k0 s m0). cbv beta.
    apply run_grp_plus_set;
      [assumption|now apply plus_builds_start|].
    unfold progress.
    replace (List.length (plus_builds ws ++ t) <?
             List.length ("+"%char :: w ++ plus_builds ws ++ t)) with true
      by (symmetry; apply Nat.ltb_lt; cbn [List.length];
          rewrite (length_app w); lia).
    apply IH; [assumption|simpl in Hn; lia|exact Hres].
Qed.

Lemma plus_builds_length (ws : list chars) (t : chars) :
  List.length ws <= List.length (plus_builds ws ++ t).
Proof.
  induction ws as [|w ws IH]; simpl; [lia|].
  rewrite <- app_assoc, length_app. lia.
Qed.

Lemma WHEEL_RE_plus (a n v p ab pl rest : chars) (ws : list chars) :
  token Word a = true -> token WordDot n = true ->
  forallb (mem WordDot) v = true -> forallb (token Word) ws = true ->
  token WordDot p = true -> token Word ab = true -> token Word pl = true ->
  starts_in Word rest = false ->
  rmatch WHEEL_RE
         (a ++ "/"%char :: n ++ "-"%char :: v ++ plus_builds ws ++
            "-"%char :: p ++ "-"%char :: ab ++ "-"%char :: pl ++ rest)
  = Some (set_mark g_platform pl
            (set_mark g_abi ab
               (set_mark g_python p
                  (build_marks ws
                     (set_mark g_version v
                        (set_mark g_name n (set_mark g_arch a no_marks))))))).
Proof.
  intros Ha Hn Hv Hws Hp Hab Hpl Hrest.
  unfold rmatch, WHEEL_RE.
  first_choice. first_choice.
  rewrite run_cat.
  apply run_grp_opt_set; [assumption|now apply plus_builds_start|].
  cbv beta. rewrite run_cat.
  change (run (StarLazy ?r) ?s ?m ?k)
    with (lazy_loop (run (R:=marks) r) (List.length s) s m k).
  apply lazy_loop_plus;
    [intros s m; reflexivity|reflexivity|assumption|apply plus_builds_length|].
  rewrite ?run_cat, ?run_lit.
  first_choice. first_choice.
  apply run_grp_plus_set; [assumption|assumption|reflexivity].
Qed.

Lemma word_end_starts (rest : chars) :
  word_end rest = true -> starts_in Word rest = false.
Proof.
  destruct rest as [|c rest]; simpl; [reflexivity|]. intros H.
  apply andb_true_iff in H. destruct H as (_ & H). now apply negb_true_iff in H.
Qed.

(** X5: a file name put together from tags of the grammar, which are
    ASCII text, the version followed by any number of local parts
    behind plus signs, and then at its end or going on with an ASCII
    character that is not a word character, parses to these tags; the
    build is the last local part, and [None] when there is none. *)
Theorem parse_tags_format (a n v p ab pl rest : chars) (ws : list chars) :
  token Word a = true -> token WordDot n = true ->
  forallb (mem WordDot) v = true -> forallb (token Word) ws = true ->
  token WordDot p = true -> token Word ab = true -> token Word pl = true ->
  word_end rest = true ->
  let f := string_of_list_ascii
             (a ++ "/"%char :: n ++ "-"%char :: v ++ plus_builds ws ++
                "-"%char :: p ++ "-"%char :: ab ++ "-"%char :: pl ++ rest) in
  parse_tags f =
    inr (mkWheel f (string_of_list_ascii a) (string_of_list_ascii n)
                 (string_of_list_ascii v) (last_build ws)
                 (string_of_list_ascii p) (string_of_list_ascii ab)
                 (string_of_list_ascii pl)).
Proof.
  intros Ha Hn Hv Hws Hp Hab Hpl Hrest f. unfold parse_tags, f.
  apply word_end_starts in Hrest.
  rewrite list_ascii_of_string_of_list_ascii.
  rewrite WHEEL_RE_plus by assumption. unfold ret. f_equal.
  unfold group_str, group_opt, set_mark. simpl.
  rewrite !build_marks_other by discriminate.
  rewrite build_marks_build. reflexivity.
Qed.

Lemma parse_tags_format_witness :
  parse_tags "avx/tensorflow_cpu-1.6.0+computecanada-cp36-cp36m-linux_x86_64.whl" =
    inr (mkWheel "avx/tensorflow_cpu-1.6.0+computecanada-cp36-cp36m-linux_x86_64.whl"
                 "avx" "tensorflow_cpu" "1.6.0" (Some "computecanada"%string)
                 "cp36" "cp36m" "linux_x86_64").
Proof.
  apply (@parse_tags_format
           (list_ascii_of_string "avx") (list_ascii_of_string "tensorflow_cpu")
           (list_ascii_of_string "1.6.0") (list_ascii_of_string "cp36")
           (list_ascii_of_string "cp36m") (list_ascii_of_string "linux_x86_64")
           (list_ascii_of_string ".whl")
           [list_ascii_of_string "computecanada"]); reflexivity.
Defined.

(** X6: every tag of a parsed wheel with an ASCII file name is a tag
    of the grammar: the architecture, the abi, the platform and the
    build, when there is one, are non-empty words; the name and the
    python tag are non-empty texts of word characters and dots; the
    version is such a text, too, and is the only tag that can be empty.
    So no tag holds a dash, a plus sign or a slash. *)
Theorem parse_tags_classes (f : string) (w : Wheel) :
  ascii_name f = true ->
  parse_tags f = inr w ->
  (token Word (list_ascii_of_string (arch w)) = true /\
   token WordDot (list_ascii_of_string (name w)) = true /\
   forallb (mem WordDot) (list_ascii_of_string (version w)) = true /\
   token WordDot (list_ascii_of_string (python w)) = true /\
   token Word (list_ascii_of_string (abi w)) = true /\
   token Word (list_ascii_of_string (platform w)) = true /\
   (forall b, build w = Some b -> token Word (list_ascii_of_string b) = true)) /\
  (forall (c : column) (t : string) (x : ascii),
      getattr w c = Some t -> In x ["-"; "+"; "/"]%char ->
      count x (list_ascii_of_string t) = 0).
Proof.
  intros _ H. pose proof (@parse_tags_tokens f w H) as Ht. split; [exact Ht|].
  destruct Ht as (Ha & Hn & Hv & Hp & Hab & Hpl & Hb).
  intros c t x Hc Hx.
  assert (Hx' : mem WordDot x = false).
  { destruct Hx as [<-|[<-|[<-|[]]]]; reflexivity. }
  assert (Ht : forallb (mem WordDot) (list_ascii_of_string t) = true).
  { destruct c; simpl in Hc;
      try (injection Hc as <-);
      auto using token_forallb, token_word_dot. }
  now apply (token_count_zero WordDot).
Qed.

Lemma parse_tags_classes_witness :
  let w := mkWheel "avx/tensorflow_cpu-1.6.0+computecanada-cp36-cp36m-linux_x86_64.whl"
                   "avx" "tensorflow_cpu" "1.6.0" (Some "computecanada"%string)
                   "cp36" "cp36m" "linux_x86_64" in
  (token Word (list_ascii_of_string (arch w)) = true /\
   token WordDot (list_ascii_of_string (name w)) = true /\
   forallb (mem WordDot) (list_ascii_of_string (version w)) = true /\
   token WordDot (list_ascii_of_string (python w)) = true /\
   token Word (list_ascii_of_string (abi w)) = true /\
   token Word (list_ascii_of_string (platform w)) = true /\
   (forall b, build w = Some b -> token Word (list_ascii_of_string b) = true)) /\
  (forall (c : column) (t : string) (x : ascii),
      getattr w c = Some t -> In x ["-"; "+"; "/"]%char ->
      count x (list_ascii_of_string t) = 0).
Proof.
  intros w.
  apply (@parse_tags_classes
           "avx/tensorflow_cpu-1.6.0+computecanada-cp36-cp36m-linux_x86_64.whl" w);
    reflexivity.
Defined.

(** ** LooseVersion *)

(** The comparison of two loose versions, when it does not raise,
    never falls through the three tests of [_cmp]: it returns 0, -1 or
    1, and the comparison the other way round returns the opposite
    number. *)
Theorem LooseVersion_cmp_antisym (a b : LooseVersion) (c : option Z) :
  LooseVersion_cmp a b = inr c ->
  exists z : Z,
    c = Some z /\ (z = 0 \/ z = -1 \/ z = 1)%Z /\
    LooseVersion_cmp b a = inr (Some (- z)%Z).
Proof.
  intros H. destruct (LooseVersion_cmp_returns_sym _ _ H) as (c' & H').
  apply LooseVersion_cmp_compare in H. apply LooseVersion_cmp_compare in H' as E'.
  subst c. rewrite (cmp_antisym LooseVersion_total_order a b) in E'.
  exists (code_of (LooseVersion_compare a b)). split; [reflexivity|].
  rewrite H', E'.
  destruct (LooseVersion_compare a b); simpl; auto.
Qed.

Lemma LooseVersion_cmp_antisym_witness :
  exists z : Z,
    Some (-1)%Z = Some z /\ (z = 0 \/ z = -1 \/ z = 1)%Z /\
    LooseVersion_cmp (mkLooseVersion "1.10") (mkLooseVersion "1.9") =
      inr (Some (- z)%Z).
Proof.
  apply (@LooseVersion_cmp_antisym (mkLooseVersion "1.9") (mkLooseVersion "1.10")
           (Some (-1)%Z)).
  reflexivity.
Defined.

Lemma split_components_cons (c : ascii) (s' : chars) :
  split_components (c :: s') =
    match kind_of c with
    | None => split_components s'
    | Some k =>
        match s' with
        | c' :: _ =>
            match kind_of c', split_components s' with
            | Some k', (_, run) :: rest =>
                if kind_eqb k k' then (k, c :: run) :: rest
                else (k, [c]) :: split_components s'
            | _, pieces => (k, [c]) :: pieces
            end
        | [] => [(k, [c])]
        end
    end.
Proof. reflexivity. Qed.

Lemma kind_of_numeric (c : ascii) :
  is_digit c || Ascii.eqb c "." = true ->
  kind_of c = Some KDigit \/ kind_of c = None.
Proof.
  unfold kind_of. destruct (is_digit c) eqn:Ed; [auto|]. simpl. intros H.
  apply Ascii.eqb_eq in H. subst c. right. reflexivity.
Qed.

Lemma split_components_numeric (s : chars) :
  forallb (fun c => is_digit c || Ascii.eqb c ".") s = true ->
  Forall (fun p => fst p = KDigit) (split_components s).
Proof.
  induction s as [|c s IH]; intros H; [constructor|].
  simpl in H. apply andb_true_iff in H. destruct H as (Hc & Hs).
  specialize (IH Hs). rewrite split_components_cons.
  destruct (kind_of_numeric c Hc) as [-> | ->]; [|assumption].
  destruct s as [|c' s]; [repeat constructor|].
  destruct (kind_of c') as [k'|];
    destruct (split_components (c' :: s)) as [|[k run] rest];
    try (constructor; [reflexivity|assumption]).
  destruct (kind_eqb KDigit k'); constructor; try reflexivity; try assumption.
  now inv IH.
Qed.

Lemma split_components_length (s : chars) :
  Forall (fun p => List.length (snd p) <= List.length s) (split_components s).
Proof.
  induction s as [|c s IH]; [constructor|].
  assert (IH' : Forall (fun p => List.length (snd p) <= List.length (c :: s))
                       (split_components s)).
  { eapply Forall_impl; [|exact IH]. simpl. intros p Hp. lia. }
  rewrite split_components_cons.
  destruct (kind_of c) as [k|]; [|assumption].
  destruct s as [|c' s]; [repeat constructor; simpl; lia|].
  destruct (kind_of c') as [k'|];
    destruct (split_components (c' :: s)) as [|[k0 run] rest];
    try (constructor; [simpl; lia|assumption]).
  destruct (kind_eqb k k'); constructor; try (simpl; lia); try assumption.
  - inv IH. simpl in *. lia.
  - now inv IH'.
Qed.

Lemma string_length_chars (v : string) :
  List.length (list_ascii_of_string v) = String.length v.
Proof. induction v as [|c v IH]; simpl; [reflexivity|now rewrite IH]. Qed.

Lemma parse_version_numeric (v : string) :
  numeric v = true -> String.length v <= max_str_digits ->
  Forall (fun c => is_num c = true) (parse_version v).
Proof.
  intros H Hlen. unfold parse_version.
  assert (Hs : forallb (fun c => is_digit c || Ascii.eqb c ".")
                       (list_ascii_of_string v) = true).
  { destruct v; [discriminate|exact H]. }
  apply split_components_numeric in Hs.
  pose proof (split_components_length (list_ascii_of_string v)) as Hl.
  rewrite string_length_chars in Hl.
  induction Hs as [|[k run] l Hk _ IH]; simpl; constructor.
  - simpl in Hk. subst k. inv Hl. simpl in H2.
    replace (List.length run <=? max_str_digits) with true; [reflexivity|].
    symmetry. apply Nat.leb_le. lia.
  - apply IH. now inv Hl.
Qed.

Lemma list_lt_numeric (a b : list component) :
  Forall (fun c => is_num c = true) a -> Forall (fun c => is_num c = true) b ->
  exists t, list_lt a b = inr t.
Proof.
  intros Ha. revert b. induction Ha as [|x a Hx _ IH]; intros b Hb.
  - destruct b; simpl; eauto.
  - destruct Hb as [|y b Hy Hb]; simpl; [eauto|].
    destruct (component_eqb x y); [now apply IH|].
    destruct x, y; try discriminate; simpl; eauto.
Qed.

Lemma numeric_comparable (v1 v2 : string) :
  numeric v1 = true -> String.length v1 <= max_str_digits ->
  numeric v2 = true -> String.length v2 <= max_str_digits ->
  comparable (mkLooseVersion v1) (mkLooseVersion v2) = true.
Proof.
  intros H1 L1 H2 L2. unfold comparable.
  pose proof (parse_version_numeric v1 H1 L1) as P1.
  pose proof (parse_version_numeric v2 H2 L2) as P2.
  destruct v1 as [|c1 v1]; [discriminate|].
  destruct v2 as [|c2 v2]; [discriminate|].
  unfold mkLooseVersion, LooseVersion_cmp.
  destruct (list_eqb _ _); [reflexivity|].
  destruct (list_lt_numeric P1 P2) as (t & ->). simpl.
  destruct t; [reflexivity|].
  unfold list_gt. destruct (list_lt_numeric P2 P1) as (t' & ->). simpl.
  destruct t'; reflexivity.
Qed.

Lemma numeric_all_comparable (l : list Wheel) :
  (forall w, In w l -> numeric (version w) = true /\
                       String.length (version w) <= max_str_digits) ->
  all_comparable l = true.
Proof.
  intros H. unfold all_comparable. apply forallb_forall. intros a Ha.
  apply forallb_forall. intros b Hb.
  destruct (H a Ha), (H b Hb). now apply numeric_comparable.
Qed.

(** X7: versions made of digits and dots only, and of no more
    characters than [int] converts digits (4300), can always be
    compared: when every wheel of a mapping has such a version, [sort]
    returns its rows for any columns, and [latest_versions] returns a
    mapping as soon as no group is empty.  Neither of them raises. *)
Theorem numeric_versions_never_raise (wheels : dict (list Wheel))
        (columns : list column) :
  (forall n g w, In (n, g) wheels -> In w g ->
                 numeric (version w) = true /\
                 String.length (version w) <= max_str_digits) ->
  (forall w1 w2 n g, In (n, g) wheels -> In w1 g -> In w2 g ->
     exists b, LooseVersion_lt (loose_version w1) (loose_version w2) = inr b) /\
  (exists rows, sort wheels columns = inr rows) /\
  ((forall n g, In (n, g) wheels -> g <> []) ->
   exists latests, latest_versions wheels = inr latests).
Proof.
  intros H.
  assert (Hc : forall n g, In (n, g) wheels -> all_comparable g = true).
  { intros n g Hg. apply numeric_all_comparable. intros w Hw. now apply (H n g). }
  split; [|split].
  - intros w1 w2 n g Hg H1 H2. eexists. apply comparable_lt.
    apply all_comparable_in with g; eauto.
  - destruct (sort_names (keys wheels)) as (names & En & Hp & _).
    destruct (sort_rows_spec wheels columns names Hc) as (groups & Er & _).
    + intros n Hn. now apply (Permutation_in _ (Permutation_sym Hp)).
    + unfold sort. rewrite En. simpl. eauto.
  - intros Hne. eexists. apply latest_versions_spec.
    intros n g Hg. split; [now apply (Hne n)|now apply (Hc n)].
Qed.

Lemma numeric_versions_never_raise_witness :
  let w1 := mkWheel "avx/b-1.0-cp27-cp27mu-linux_x86_64.whl"
                    "avx" "b" "1.0" None "cp27" "cp27mu" "linux_x86_64" in
  let w2 := mkWheel "sse3/b-1.10-cp36-cp36m-linux_x86_64.whl"
                    "sse3" "b" "1.10" None "cp36" "cp36m" "linux_x86_64" in
  let wheels := [("b"%string, [w1; w2])] in
  (forall w1' w2' n g, In (n, g) wheels -> In w1' g -> In w2' g ->
     exists b, LooseVersion_lt (loose_version w1') (loose_version w2') = inr b) /\
  (exists rows, sort wheels HEADERS = inr rows) /\
  ((forall n g, In (n, g) wheels -> g <> []) ->
   exists latests, latest_versions wheels = inr latests).
Proof.
  intros w1 w2 wheels. apply (@numeric_versions_never_raise wheels HEADERS).
  intros n g w [Hg|[]] Hw. inv Hg.
  destruct Hw as [<-|[<-|[]]]; (split; [reflexivity|]);
    simpl; unfold max_str_digits; lia.
Defined.

(** ** What the sorts return, whenever they return *)

Section SortResult.
Variables (A K : Type).
Variable key : A -> K.
Variable lt : K -> K -> result bool.

Lemma insert_desc_perm (x : A) (l r : list A) :
  insert_desc key lt x l = inr r -> Permutation (x :: l) r.
Proof.
  revert r. induction l as [|y l IH]; intros r; simpl.
  - intros H. inv H. reflexivity.
  - destruct (lt (key x) (key y)) as [e|[|]]; simpl; try discriminate.
    + destruct (insert_desc key lt x l) as [e|r'] eqn:E; simpl; [discriminate|].
      intros H. inv H. rewrite perm_swap. constructor. now apply IH.
    + intros H. inv H. reflexivity.
Qed.

Lemma sort_desc_perm (l r : list A) :
  sort_desc key lt l = inr r -> Permutation l r.
Proof.
  revert r. induction l as [|x l IH]; intros r; simpl.
  - intros H. inv H. reflexivity.
  - destruct (sort_desc key lt l) as [e|r'] eqn:E; simpl; [discriminate|].
    intros H. apply insert_desc_perm in H. rewrite <- H. constructor. now apply IH.
Qed.

(** A list whose keys are never found lower than one another is left
    as it is. *)
Lemma sort_desc_same (l : list A) :
  (forall x y, In x l -> In y l -> lt (key x) (key y) = inr false) ->
  sort_desc key lt l = inr l.
Proof.
  induction l as [|x l IH]; intros H; simpl; [reflexivity|].
  rewrite IH by (intros; apply H; now right). simpl.
  destruct l as [|y l]; simpl; [reflexivity|].
  rewrite H; [reflexivity|now left|right; now left].
Qed.
End SortResult.

Lemma sort_asc_perm (A K : Type) (key : A -> K) (lt : K -> K -> result bool)
      (l r : list A) :
  sort_asc key lt l = inr r -> Permutation l r.
Proof. rewrite sort_asc_desc. apply sort_desc_perm. Qed.

(** ** Empty versions *)

Lemma LooseVersion_lt_none_l (b : LooseVersion) :
  LooseVersion_lt None b = inl AttributeError.
Proof. reflexivity. Qed.

Lemma LooseVersion_lt_none_r (a : LooseVersion) :
  LooseVersion_lt a None = inl AttributeError.
Proof. destruct a; reflexivity. Qed.

Lemma loose_version_empty (w : Wheel) :
  version w = EmptyString -> loose_version w = None.
Proof. unfold loose_version. now intros ->. Qed.

(** The sort by version of two wheels or more compares every one of
    them with another, and so raises when one has no version. *)
Lemma sort_desc_no_version (l : list Wheel) (w : Wheel) :
  In w l -> loose_version w = None -> 2 <= List.length l ->
  exists e, sort_desc loose_version LooseVersion_lt l = inl e.
Proof.
  induction l as [|x l IH]; intros Hin Hw Hlen; [destruct Hin|].
  simpl. destruct (sort_desc loose_version LooseVersion_lt l) as [e|r] eqn:E;
    simpl; [eauto|].
  pose proof (sort_desc_perm _ _ _ E) as Hp.
  destruct r as [|y r].
  { apply Permutation_sym, Permutation_nil in Hp. subst l. simpl in Hlen. lia. }
  simpl. destruct Hin as [->|Hin].
  - rewrite Hw, LooseVersion_lt_none_l. simpl. eauto.
  - destruct l as [|z [|z' l]].
    + destruct Hin.
    + destruct Hin as [->|[]]. simpl in E. inv E.
      rewrite Hw, LooseVersion_lt_none_r. simpl. eauto.
    + destruct (IH Hin Hw) as (e & He); [simpl; lia|]. congruence.
Qed.

Lemma latest_group_no_version (g : list Wheel) (w : Wheel) :
  In w g -> loose_version w = None -> exists e, latest_group g = inl e.
Proof.
  intros Hin Hw. unfold latest_group.
  destruct g as [|x [|y g]].
  - destruct Hin.
  - destruct Hin as [->|[]]. simpl. unfold LooseVersion_eq. rewrite Hw. simpl. eauto.
  - destruct (sort_desc_no_version (x :: y :: g) w Hin Hw) as (e & ->);
      [simpl; lia|]. simpl. eauto.
Qed.

(** X8: a wheel whose version is empty, which the parser lets through,
    makes [latest_versions] raise, in whatever group it stands; and
    [sort] raises, too, when the group has another wheel, the names of
    the mapping being distinct. *)
Theorem empty_version_raises (wheels : dict (list Wheel)) (n : string)
        (g : list Wheel) (w : Wheel) :
  In (n, g) wheels -> In w g -> version w = EmptyString ->
  (exists e, latest_versions wheels = inl e) /\
  (NoDup (keys wheels) -> 2 <= List.length g ->
   forall columns, exists e, sort wheels columns = inl e).
Proof.
  intros Hg Hw Hv. apply loose_version_empty in Hv. split.
  - induction wheels as [|[n' g'] wheels IH]; [destruct Hg|]. simpl.
    destruct Hg as [Hg|Hg].
    + inv Hg. destruct (latest_group_no_version g w Hw Hv) as (e & ->).
      simpl. eauto.
    + destruct (latest_group g') as [e|l]; simpl; [eauto|].
      destruct (IH Hg) as (e & ->). simpl. eauto.
  - intros Hnd Hlen columns. unfold sort.
    destruct (sort_names (keys wheels)) as (names & -> & Hp & _). simpl.
    assert (Hn : In n names).
    { apply (Permutation_in _ Hp). apply in_map_iff. now exists (n, g). }
    assert (Hget : dict_get wheels n = Some g).
    { clear Hp Hn names. induction wheels as [|[n' g'] wheels IH]; [destruct Hg|].
      simpl in *. inv Hnd. destruct Hg as [Hg|Hg].
      - inv Hg. now rewrite String.eqb_refl.
      - destruct (String.eqb_spec n' n) as [->|_]; [|auto].
        exfalso. apply H1. apply in_map_iff. now exists (n, g). }
    clear Hp. induction names as [|n' names IH]; [destruct Hn|]. simpl.
    destruct (dict_item wheels n') as [e|g'] eqn:Eg; simpl; [eauto|].
    destruct Hn as [->|Hn].
    + unfold dict_item in Eg. rewrite Hget in Eg. inv Eg.
      unfold sort_group.
      rewrite (sort_desc_pure python String.compare) by reflexivity. simpl.
      rewrite (sort_desc_pure arch String.compare) by reflexivity. simpl.
      set (l2 := psort arch String.compare (psort python String.compare g')).
      assert (Hp2 : Permutation g' l2).
      { unfold l2. now rewrite <- !psort_perm. }
      destruct (sort_desc_no_version l2 w) as (e & ->); simpl; eauto.
      * now apply (Permutation_in _ Hp2).
      * now rewrite <- (Permutation_length Hp2).
    + destruct (sort_group g') as [e|s]; simpl; [eauto|].
      destruct (IH Hn) as (e & ->). simpl. eauto.
Qed.

Lemma empty_version_raises_witness :
  let w := mkWheel "avx2/netCDF4--cp36-cp36m-linux_x86_64.whl"
                   "avx2" "netCDF4" "" None "cp36" "cp36m" "linux_x86_64" in
  let w' := mkWheel "avx2/netCDF4-1.3.1-cp36-cp36m-linux_x86_64.whl"
                    "avx2" "netCDF4" "1.3.1" None "cp36" "cp36m" "linux_x86_64" in
  let wheels := [("netCDF4"%string, [w'; w])] in
  (exists e, latest_versions wheels = inl e) /\
  (NoDup (keys wheels) -> 2 <= List.length [w'; w] ->
   forall columns, exists e, sort wheels columns = inl e).
Proof.
  intros w w' wheels.
  apply (@empty_version_raises wheels "netCDF4" [w'; w] w).
  - now left.
  - right. now left.
  - reflexivity.
Defined.

(** ** What latest_versions returns, whenever it returns *)

Lemma LooseVersion_eq_true (a b : LooseVersion) :
  LooseVersion_eq a b = inr true -> a = b /\ a <> None.
Proof.
  unfold LooseVersion_eq. intros H.
  destruct (LooseVersion_cmp a b) as [e|c] eqn:E; [discriminate|].
  apply LooseVersion_cmp_compare in E as Ec. subst c. simpl in H.
  destruct (LooseVersion_compare a b) eqn:Ecmp; simpl in H; try discriminate.
  apply (cmp_eq LooseVersion_total_order) in Ecmp. subst b.
  split; [reflexivity|]. intros ->. discriminate.
Qed.

Lemma LooseVersion_eq_refl (v : list component) :
  LooseVersion_eq (Some v) (Some v) = inr true.
Proof.
  unfold LooseVersion_eq. simpl.
  now rewrite list_eqb_compare, (cmp_refl list_total_order).
Qed.

Lemma LooseVersion_lt_irrefl (v : list component) :
  LooseVersion_lt (Some v) (Some v) = inr false.
Proof.
  unfold LooseVersion_lt. simpl.
  now rewrite list_eqb_compare, (cmp_refl list_total_order).
Qed.

Lemma take_latest_result (h : LooseVersion) (l r : list Wheel) :
  take_latest h l = inr r ->
  incl r l /\ forall w, In w r -> loose_version w = h /\ h <> None.
Proof.
  revert r. induction l as [|x l IH]; intros r; simpl.
  - intros H. inv H. split; [apply incl_refl|intros w []].
  - destruct (LooseVersion_eq h (loose_version x)) as [e|[|]] eqn:E; simpl;
      try discriminate.
    + destruct (take_latest h l) as [e|r'] eqn:Er; simpl; [discriminate|].
      intros H. inv H. destruct (IH r' eq_refl) as (Hi & Hv).
      apply LooseVersion_eq_true in E. destruct E as (E1 & E2). split.
      * intros w [<-|Hw]; [now left|right; now apply Hi].
      * intros w [<-|Hw]; auto.
    + intros H. inv H. split; [intros w []|intros w []].
Qed.

Lemma latest_group_result (g l : list Wheel) :
  latest_group g = inr l ->
  l <> [] /\ incl l g /\
  exists v, forall w, In w l -> loose_version w = Some v.
Proof.
  unfold latest_group.
  destruct (sort_desc loose_version LooseVersion_lt g) as [e|s] eqn:Es; simpl;
    [discriminate|].
  apply sort_desc_perm in Es. destruct s as [|first s]; [discriminate|].
  intros H. pose proof (take_latest_result _ _ H) as (Hi & Hv).
  assert (Hne : l <> []).
  { simpl in H.
    destruct (LooseVersion_eq (loose_version first) (loose_version first))
      as [e|[|]] eqn:E; simpl in H; try discriminate.
    - destruct (take_latest _ s); simpl in H; [discriminate|]. inv H. discriminate.
    - exfalso. destruct (loose_version first) as [v|]; [|discriminate].
      rewrite LooseVersion_eq_refl in E. discriminate. }
  split; [assumption|]. split.
  - intros w Hw. apply (Permutation_in _ (Permutation_sym Es)). now apply Hi.
  - destruct l as [|x l]; [congruence|].
    destruct (Hv x (or_introl eq_refl)) as (Hx & Hnone).
    destruct (loose_version first) as [v|] eqn:Ef; [|congruence].
    exists v. intros w Hw. now apply Hv.
Qed.

(** X9: whenever [latest_versions] returns, the mapping it returns
    has the names of the input in their order, and the group of each
    name is not empty, holds wheels of the input group only, and holds
    wheels of one version: their loose versions are the same and
    compare equal. *)
Theorem latest_versions_result (wheels latests : dict (list Wheel)) :
  latest_versions wheels = inr latests ->
  keys latests = keys wheels /\
  Forall2 (fun ng nl =>
             fst nl = fst ng /\ snd nl <> [] /\ incl (snd nl) (snd ng) /\
             forall a b, In a (snd nl) -> In b (snd nl) ->
                         loose_version a = loose_version b /\
                         LooseVersion_eq (loose_version a) (loose_version b)
                         = inr true)
          wheels latests.
Proof.
  revert latests. induction wheels as [|[n g] wheels IH]; intros latests; simpl.
  - intros H. inv H. split; [reflexivity|constructor].
  - destruct (latest_group g) as [e|l] eqn:El; simpl; [discriminate|].
    destruct (latest_versions wheels) as [e|r] eqn:Er; simpl; [discriminate|].
    intros H. inv H. destruct (IH r eq_refl) as (Hk & Hf).
    apply latest_group_result in El. destruct El as (Hne & Hi & v & Hv).
    split; [simpl; now rewrite Hk|]. constructor; [|assumption]. simpl.
    repeat split; auto.
    + now rewrite (Hv a), (Hv b).
    + rewrite (Hv a), (Hv b) by assumption. apply LooseVersion_eq_refl.
Qed.

Lemma latest_versions_result_witness :
  let w := mkWheel "avx2/netCDF4-1.3.2-cp36-cp36m-linux_x86_64.whl"
                   "avx2" "netCDF4" "1.3.2" None "cp36" "cp36m" "linux_x86_64" in
  let w' := mkWheel "avx2/netCDF4-1.3.1-cp36-cp36m-linux_x86_64.whl"
                    "avx2" "netCDF4" "1.3.1" None "cp36" "cp36m" "linux_x86_64" in
  let wheels := [("netCDF4"%string, [w'; w])] in
  let latests := [("netCDF4"%string, [w])] in
  keys latests = keys wheels /\
  Forall2 (fun ng nl =>
             fst nl = fst ng /\ snd nl <> [] /\ incl (snd nl) (snd ng) /\
             forall a b, In a (snd nl) -> In b (snd nl) ->
                         loose_version a = loose_version b /\
                         LooseVersion_eq (loose_version a) (loose_version b)
                         = inr true)
          wheels latests.
Proof.
  intros w w' wheels latests.
  apply (@latest_versions_result wheels latests). reflexivity.
Defined.

Lemma take_latest_same (v : list component) (l : list Wheel) :
  (forall w, In w l -> loose_version w = Some v) ->
  take_latest (Some v) l = inr l.
Proof.
  induction l as [|x l IH]; intros H; simpl; [reflexivity|].
  rewrite (H x) by now left. rewrite LooseVersion_eq_refl. simpl.
  rewrite IH by (intros; apply H; now right). reflexivity.
Qed.

Lemma latest_group_same (v : list component) (l : list Wheel) :
  l <> [] -> (forall w, In w l -> loose_version w = Some v) ->
  latest_group l = inr l.
Proof.
  intros Hne H. unfold latest_group.
  rewrite sort_desc_same.
  - simpl. destruct l as [|x l]; [congruence|].
    rewrite (H x) by now left. now apply take_latest_same.
  - intros x y Hx Hy. rewrite (H x), (H y) by assumption.
    apply LooseVersion_lt_irrefl.
Qed.

(** X10: [latest_versions] is idempotent: applied to a mapping that it
    has returned, it returns that mapping again. *)
Theorem latest_versions_idempotent (wheels latests : dict (list Wheel)) :
  latest_versions wheels = inr latests ->
  latest_versions latests = inr latests.
Proof.
  revert latests. induction wheels as [|[n g] wheels IH]; intros latests; simpl.
  - intros H. now inv H.
  - destruct (latest_group g) as [e|l] eqn:El; simpl; [discriminate|].
    destruct (latest_versions wheels) as [e|r] eqn:Er; simpl; [discriminate|].
    intros H. inv H. simpl.
    apply latest_group_result in El. destruct El as (Hne & _ & v & Hv).
    rewrite (latest_group_same Hne Hv). simpl.
    rewrite (IH r eq_refl). reflexivity.
Qed.

Lemma latest_versions_idempotent_witness :
  let w := mkWheel "avx2/netCDF4-1.3.2-cp36-cp36m-linux_x86_64.whl"
                   "avx2" "netCDF4" "1.3.2" None "cp36" "cp36m" "linux_x86_64" in
  let w' := mkWheel "avx2/netCDF4-1.3.1-cp36-cp36m-linux_x86_64.whl"
                    "avx2" "netCDF4" "1.3.1" None "cp36" "cp36m" "linux_x86_64" in
  latest_versions [("netCDF4"%string, [w])] = inr [("netCDF4"%string, [w])].
Proof.
  intros w w'.
  apply (@latest_versions_idempotent [("netCDF4"%string, [w'; w])]
           [("netCDF4"%string, [w])]).
  reflexivity.
Defined.

(** ** What sort returns, whenever it returns *)

Section SortStable.
Variables (A K : Type).
Variable key : A -> K.
Variable lt : K -> K -> result bool.
Variable p : A -> bool.
Hypothesis p_class :
  forall a b, p a = true -> p b = true -> lt (key a) (key b) <> inr true.

Lemma insert_desc_filter (x : A) (l r : list A) :
  insert_desc key lt x l = inr r -> filter p r = filter p (x :: l).
Proof.
  revert r. induction l as [|y l IH]; intros r; simpl.
  - intros H. now inv H.
  - destruct (lt (key x) (key y)) as [e|[|]] eqn:E; simpl; try discriminate.
    + destruct (insert_desc key lt x l) as [e|r'] eqn:Er; simpl; [discriminate|].
      intros H. inv H. simpl. rewrite (IH r' eq_refl). simpl.
      destruct (p x) eqn:Ex, (p y) eqn:Ey; try reflexivity.
      now destruct (p_class Ex Ey).
    + intros H. now inv H.
Qed.

Lemma sort_desc_filter (l r : list A) :
  sort_desc key lt l = inr r -> filter p r = filter p l.
Proof.
  revert r. induction l as [|x l IH]; intros r; simpl.
  - intros H. now inv H.
  - destruct (sort_desc key lt l) as [e|r'] eqn:E; simpl; [discriminate|].
    intros H. apply insert_desc_filter in H. rewrite H. simpl.
    now rewrite (IH r' eq_refl).
Qed.
End SortStable.

Lemma string_ltb_irrefl (s : string) : String.ltb s s = false.
Proof. unfold String.ltb. now rewrite string_compare_refl. Qed.

Lemma LooseVersion_lt_not_self (v : LooseVersion) : LooseVersion_lt v v <> inr true.
Proof.
  destruct v as [v|]; [rewrite LooseVersion_lt_irrefl|]; discriminate.
Qed.

(** X11: the three sorts of [sort] are stable: whenever they return,
    the wheels of a group that have the same python tag, the same
    architecture and the same loose version stand in the order in which
    they stood before. *)
Theorem sort_group_stable (l g : list Wheel) (p : Wheel -> bool) :
  (forall a b, p a = true -> p b = true ->
               python a = python b /\ arch a = arch b /\
               loose_version a = loose_version b) ->
  sort_group l = inr g ->
  filter p g = filter p l.
Proof.
  intros Hp. unfold sort_group.
  destruct (sort_desc python str_lt l) as [e|l1] eqn:E1; simpl; [discriminate|].
  destruct (sort_desc arch str_lt l1) as [e|l2] eqn:E2; simpl; [discriminate|].
  intros E3.
  apply (@sort_desc_filter _ _ python str_lt p) in E1.
  apply (@sort_desc_filter _ _ arch str_lt p) in E2.
  apply (@sort_desc_filter _ _ loose_version LooseVersion_lt p) in E3.
  - congruence.
  - intros a b Ha Hb. destruct (Hp a b Ha Hb) as (_ & _ & ->).
    apply LooseVersion_lt_not_self.
  - intros a b Ha Hb. destruct (Hp a b Ha Hb) as (_ & -> & _).
    unfold str_lt, ret. rewrite string_ltb_irrefl. discriminate.
  - intros a b Ha Hb. destruct (Hp a b Ha Hb) as (-> & _ & _).
    unfold str_lt, ret. rewrite string_ltb_irrefl. discriminate.
Qed.

Lemma sort_group_stable_witness :
  let w1 := mkWheel "avx/b-1.0-cp27-cp27mu-linux_x86_64.whl"
                    "avx" "b" "1.0" None "cp27" "cp27mu" "linux_x86_64" in
  let w2 := mkWheel "sse3/b-1.10-cp36-cp36m-linux_x86_64.whl"
                    "sse3" "b" "1.10" None "cp36" "cp36m" "linux_x86_64" in
  let w3 := mkWheel "avx/b-1.0-cp27-cp27m-linux_x86_64.whl"
                    "avx" "b" "1.0" None "cp27" "cp27m" "linux_x86_64" in
  let p := fun w => String.eqb (python w) "cp27" && String.eqb (arch w) "avx" &&
                    String.eqb (version w) "1.0" in
  filter p [w2; w1; w3] = filter p [w1; w2; w3].
Proof.
  intros w1 w2 w3 p.
  apply (@sort_group_stable [w1; w2; w3] [w2; w1; w3] p); [|reflexivity].
  intros a b Ha Hb. unfold p in Ha, Hb.
  apply andb_true_iff in Ha, Hb. destruct Ha as (Ha & Ha3), Hb as (Hb & Hb3).
  apply andb_true_iff in Ha, Hb. destruct Ha as (Ha1 & Ha2), Hb as (Hb1 & Hb2).
  apply String.eqb_eq in Ha1, Ha2, Ha3, Hb1, Hb2, Hb3.
  unfold loose_version. rewrite Ha1, Ha2, Ha3, Hb1, Hb2, Hb3. auto.
Defined.

Lemma sort_group_perm (l g : list Wheel) :
  sort_group l = inr g -> Permutation l g.
Proof.
  unfold sort_group.
  destruct (sort_desc python str_lt l) as [e|l1] eqn:E1; simpl; [discriminate|].
  destruct (sort_desc arch str_lt l1) as [e|l2] eqn:E2; simpl; [discriminate|].
  intros E3. apply sort_desc_perm in E1, E2, E3.
  now rewrite E1, E2.
Qed.

Lemma sort_rows_perm (wheels : dict (list Wheel)) (columns : list column)
      (names : list string) (rows : list (list (option string))) :
  sort_rows wheels columns names = inr rows ->
  Permutation rows (map (row columns) (flat_map (group_of wheels) names)).
Proof.
  revert rows. induction names as [|n names IH]; intros rows; simpl.
  - intros H. inv H. reflexivity.
  - unfold dict_item, group_of.
    destruct (dict_get wheels n) as [l|]; simpl; [|discriminate].
    destruct (sort_group l) as [e|g] eqn:Eg; simpl; [discriminate|].
    destruct (sort_rows wheels columns names) as [e|r] eqn:Er; simpl;
      [discriminate|].
    intros H. inv H. rewrite map_app.
    apply Permutation_app; [|now apply IH].
    apply Permutation_map, Permutation_sym. now apply sort_group_perm.
Qed.

Lemma group_of_keys (wheels : dict (list Wheel)) :
  NoDup (keys wheels) ->
  flat_map (group_of wheels) (keys wheels) = all_wheels wheels.
Proof.
  unfold all_wheels.
  induction wheels as [|[n g] wheels IH]; intros Hnd; simpl; [reflexivity|].
  inv Hnd. unfold group_of at 1. simpl. rewrite String.eqb_refl. f_equal.
  rewrite <- IH by assumption.
  rewrite !flat_map_concat_map. f_equal. apply map_ext_in.
  intros k Hk. unfold group_of. simpl.
  destruct (String.eqb_spec n k) as [->|_]; [contradiction|reflexivity].
Qed.

(** X12: whenever [sort] returns, on a mapping with distinct names, its
    rows are the rows of all the wheels of the mapping, each wheel once,
    in another order; and every row has one cell for each column, in
    the order of the columns. *)
Theorem sort_rows_all (wheels : dict (list Wheel)) (columns : list column)
        (rows : list (list (option string))) :
  NoDup (keys wheels) ->
  sort wheels columns = inr rows ->
  Permutation rows (map (row columns) (all_wheels wheels)) /\
  Forall (fun r => exists w, In w (all_wheels wheels) /\
                             r = map (getattr w) columns /\
                             List.length r = List.length columns) rows.
Proof.
  intros Hnd. unfold sort.
  destruct (sort_asc casefold str_lt (keys wheels)) as [e|names] eqn:En; simpl;
    [discriminate|].
  intros Hr. apply sort_asc_perm in En. apply sort_rows_perm in Hr.
  assert (Hp : Permutation rows (map (row columns) (all_wheels wheels))).
  { rewrite Hr, <- (@group_of_keys wheels Hnd). now rewrite En. }
  split; [exact Hp|].
  rewrite Hp. apply Forall_forall. intros r Hin.
  apply in_map_iff in Hin. destruct Hin as (w & <- & Hw).
  exists w. unfold row. rewrite length_map. auto.
Qed.

Lemma sort_rows_all_witness :
  let w1 := mkWheel "avx/b-1.0-cp27-cp27mu-linux_x86_64.whl"
                    "avx" "b" "1.0" None "cp27" "cp27mu" "linux_x86_64" in
  let w2 := mkWheel "sse3/b-1.10-cp36-cp36m-linux_x86_64.whl"
                    "sse3" "b" "1.10" None "cp36" "cp36m" "linux_x86_64" in
  let w3 := mkWheel "avx/A-2.0rc1-py3-none-any.whl"
                    "avx" "A" "2.0rc1" None "py3" "none" "any" in
  let wheels := [("b"%string, [w1; w2]); ("A"%string, [w3])] in
  let columns := [c_name; c_version] in
  let rows := [[Some "A"; Some "2.0rc1"]; [Some "b"; Some "1.10"];
               [Some "b"; Some "1.0"]]%string in
  Permutation rows (map (row columns) (all_wheels wheels)) /\
  Forall (fun r => exists w, In w (all_wheels wheels) /\
                             r = map (getattr w) columns /\
                             List.length r = List.length columns) rows.
Proof.
  intros w1 w2 w3 wheels columns rows.
  apply (@sort_rows_all wheels columns rows); [|reflexivity].
  repeat constructor; simpl; intuition discriminate.
Defined.

(** ** What get_wheels returns, whenever it returns *)

Lemma dict_append_keys_in (k x : string) (w : Wheel) (d : dict (list Wheel)) :
  In x (keys (dict_append k w d)) <-> x = k \/ In x (keys d).
Proof.
  induction d as [|[k' l] d IH]; simpl.
  - intuition.
  - destruct (String.eqb_spec k' k) as [->|Hne]; simpl.
    + intuition.
    + rewrite IH. intuition.
Qed.

Lemma dict_append_nodup (k : string) (w : Wheel) (d : dict (list Wheel)) :
  NoDup (keys d) -> NoDup (keys (dict_append k w d)).
Proof.
  induction d as [|[k' l] d IH]; simpl; intros H.
  - repeat constructor. intros [].
  - inv H. destruct (String.eqb_spec k' k) as [->|Hne]; simpl.
    + now constructor.
    + constructor; [|now apply IH].
      rewrite dict_append_keys_in. intros [E|E]; congruence.
Qed.

Lemma dict_append_in (k n : string) (w : Wheel) (g : list Wheel)
      (d : dict (list Wheel)) :
  In (n, g) (dict_append k w d) ->
  In (n, g) d \/
  (n = k /\ (g = [w] \/ exists g0, In (n, g0) d /\ g = g0 ++ [w])).
Proof.
  induction d as [|[k' l] d IH]; simpl.
  - intros [H|[]]. inv H. auto.
  - destruct (String.eqb_spec k' k) as [->|Hne]; simpl.
    + intros [H|H]; [|auto]. inv H. right. split; [reflexivity|].
      right. exists l. auto.
    + intros [H|H]; [auto|].
      destruct (IH H) as [H'|(-> & [->|(g0 & Hg0 & ->)])]; auto.
      right. split; [reflexivity|]. right. exists g0. auto.
Qed.

Lemma dict_append_well_grouped (w : Wheel) (d : dict (list Wheel)) :
  well_grouped d -> well_grouped (dict_append (name w) w d).
Proof.
  intros (Hnd & Hg). split; [now apply dict_append_nodup|].
  intros n g Hin. apply dict_append_in in Hin.
  destruct Hin as [Hin|(-> & [->|(g0 & Hg0 & ->)])].
  - now apply Hg.
  - split; [discriminate|]. intros x [<-|[]]. reflexivity.
  - destruct (Hg _ _ Hg0) as (_ & Hn). split.
    + intros E. now apply app_eq_nil in E as (_ & E).
    + intros x Hx. apply in_app_iff in Hx. destruct Hx as [Hx|[<-|[]]]; auto.
Qed.

(** The loop over the python versions, when it returns, has appended
    the wheel or left the mapping as it was; it appends a compatible
    wheel only. *)
Lemma pythons_loop_cases (w : Wheel) (pythons : list string)
      (d d' : dict (list Wheel)) :
  pythons_loop w pythons d = inr d' ->
  d' = d \/ (d' = dict_append (name w) w d /\ compatible w pythons = true).
Proof.
  induction pythons as [|p ps IH]; [intros H; inv H; auto|].
  change (pythons_loop w (p :: ps) d)
    with (tags <- dict_item COMPATIBLE_PYTHON p ;;
          if str_in (python w) tags
          then ret (dict_append (name w) w d)
          else pythons_loop w ps d).
  change (compatible w (p :: ps))
    with (match dict_get COMPATIBLE_PYTHON p with
          | Some tags => str_in (python w) tags
          | None => false
          end || compatible w ps).
  unfold dict_item.
  destruct (dict_get COMPATIBLE_PYTHON p) as [tags|]; [|discriminate].
  unfold bind, ret. destruct (str_in (python w) tags).
  - intros H. inv H. auto.
  - intros H. destruct (IH H) as [->|(-> & ->)]; auto.
Qed.

Section CollectorResult.
Variable fnmatch : string -> string -> bool.
Variables (rex : string) (pythons : list string).

(** A property of the mapping that appending a collected wheel keeps
    holds at the end of the visit. *)
Lemma visit_pairs_invariant (I : dict (list Wheel) -> Prop)
      (visited : list (string * string)) :
  (forall d w, collected fnmatch rex pythons visited w -> I d ->
               I (dict_append (name w) w d)) ->
  forall d d',
    I d ->
    for_each (fun d af => visit_file fnmatch (fst af) rex pythons d (snd af))
             visited d = inr d' ->
    I d'.
Proof.
  induction visited as [|[a f] visited IH]; intros Hstep d d' Hd; simpl.
  - intros H. now inv H.
  - unfold visit_file at 1. simpl.
    assert (Hstep' : forall d w, collected fnmatch rex pythons visited w -> I d ->
                                 I (dict_append (name w) w d)).
    { intros d0 w (a0 & f0 & Hin & Hc) Hd0. apply Hstep; [|assumption].
      exists a0, f0. split; [now right|assumption]. }
    destruct (fnmatch rex f) eqn:Ef; simpl; [|now apply IH].
    destruct (parse_tags (a ++ String "/" f)) as [e|w] eqn:Ew; simpl;
      [discriminate|].
    destruct (pythons_loop w pythons d) as [e|d1] eqn:El; simpl; [discriminate|].
    apply IH; [assumption|].
    apply pythons_loop_cases in El. destruct El as [->|(-> & Hc)]; [assumption|].
    apply Hstep; [|assumption]. exists a, f. simpl. auto.
Qed.
End CollectorResult.

Lemma latest_versions_groups (wheels latests : dict (list Wheel)) :
  latest_versions wheels = inr latests ->
  keys latests = keys wheels /\
  forall n l, In (n, l) latests ->
    exists g, In (n, g) wheels /\ l <> [] /\ incl l g /\
              exists v, forall w, In w l -> loose_version w = Some v.
Proof.
  revert latests. induction wheels as [|[n g] wheels IH]; intros latests; simpl.
  - intros H. inv H. split; [reflexivity|intros n l []].
  - destruct (latest_group g) as [e|l] eqn:El; simpl; [discriminate|].
    destruct (latest_versions wheels) as [e|r] eqn:Er; simpl; [discriminate|].
    intros H. inv H. destruct (IH r eq_refl) as (Hk & Hf).
    apply latest_group_result in El. destruct El as (Hne & Hi & v & Hv).
    split; [simpl; now rewrite Hk|].
    intros n' l' [H|H].
    + inv H. exists g. split; [now left|]. eauto.
    + destruct (Hf _ _ H) as (g' & Hg' & H'). exists g'. split; [now right|assumption].
Qed.

Lemma latest_versions_well_grouped (wheels latests : dict (list Wheel)) :
  latest_versions wheels = inr latests -> well_grouped wheels ->
  well_grouped latests.
Proof.
  intros H (Hnd & Hg). apply latest_versions_groups in H. destruct H as (Hk & Hl).
  split; [now rewrite Hk|].
  intros n l Hin. destruct (Hl _ _ Hin) as (g & Hin' & Hne & Hi & _).
  split; [assumption|]. intros w Hw. apply (Hg n g Hin'). now apply Hi.
Qed.

Lemma get_wheels_grouped
        (fnmatch : string -> string -> bool) (fs : filesystem)
        (path : string) (archs : list string) (name_ version_ : string)
        (pythons : list string) (latest : bool) (wheels : dict (list Wheel)) :
  get_wheels fnmatch fs path archs name_ version_ pythons latest = inr wheels ->
  NoDup (keys wheels) /\
  forall n g, In (n, g) wheels -> g <> [] /\ forall w, In w g -> name w = n.
Proof.
  unfold get_wheels. rewrite visit_archs_pairs.
  match goal with
  | |- context [for_each ?b ?l ?s] => destruct (for_each b l s) as [e|d] eqn:E
  end; simpl; [discriminate|].
  assert (Hd : well_grouped d).
  { apply (visit_pairs_invariant well_grouped) in E; [assumption| |].
    - intros d0 w _. apply dict_append_well_grouped.
    - split; [constructor|intros n g []]. }
  destruct latest.
  - intros H. now apply (latest_versions_well_grouped H).
  - intros H. now inv H.
Qed.

(** X13: whenever [get_wheels] returns, with or without [latest], the
    mapping it returns has distinct names and no empty group, and every
    wheel stands in the group of its own name. *)
Theorem get_wheels_well_grouped
        (fnmatch : string -> string -> bool) (fs : filesystem)
        (path : string) (archs : list string) (name_ version_ : string)
        (pythons : list string) (latest : bool) (wheels : dict (list Wheel)) :
  get_wheels fnmatch fs path archs name_ version_ pythons latest = inr wheels ->
  NoDup (keys wheels) /\
  forall n g, In (n, g) wheels -> g <> [] /\ forall w, In w g -> name w = n.
Proof. exact (@get_wheels_grouped fnmatch fs path archs name_ version_ pythons latest wheels). Qed.

Lemma get_wheels_well_grouped_witness :
  let wheels :=
    match get_wheels glob_match test_house "wheelhouse_test_dir" ["avx2"%string]
                     "" "" ["3.6"%string] true with
    | inr d => d
    | inl _ => []
    end in
  NoDup (keys wheels) /\
  forall n g, In (n, g) wheels -> g <> [] /\ forall w, In w g -> name w = n.
Proof.
  intros wheels.
  apply (@get_wheels_well_grouped glob_match test_house "wheelhouse_test_dir"
           ["avx2"%string] "" "" ["3.6"%string] true wheels).
  vm_compute. reflexivity.
Defined.

Lemma traversed_arch (fs : filesystem) (path : string) (archs : list string)
      (a f : string) :
  In (a, f) (traversed fs path archs) -> In a archs.
Proof.
  unfold traversed. rewrite in_flat_map. intros (arch & Harch & Hin).
  apply in_map_iff in Hin. destruct Hin as (f' & E & _). now inv E.
Qed.

Lemma get_wheels_provenance
        (fnmatch : string -> string -> bool) (fs : filesystem)
        (path : string) (archs : list string) (name_ version_ : string)
        (pythons : list string) (latest : bool) (wheels : dict (list Wheel)) :
  get_wheels fnmatch fs path archs name_ version_ pythons latest = inr wheels ->
  forall n g w, In (n, g) wheels -> In w g ->
    exists a f,
      In a archs /\ In (a, f) (traversed fs path archs) /\
      fnmatch (name_ ++ "*" ++ version_ ++ "*.whl")%string f = true /\
      parse_tags (a ++ "/" ++ f) = inr w /\
      filename w = (a ++ "/" ++ f)%string /\
      compatible w pythons = true.
Proof.
  unfold get_wheels. rewrite visit_archs_pairs.
  set (rex := (name_ ++ "*" ++ version_ ++ "*.whl")%string).
  set (visited := traversed fs path archs).
  match goal with
  | |- context [for_each ?b ?l ?s] => destruct (for_each b l s) as [e|d] eqn:E
  end; simpl; [discriminate|].
  set (I := fun d : dict (list Wheel) =>
              forall n g w, In (n, g) d -> In w g ->
                            collected fnmatch rex pythons visited w).
  assert (Hd : I d).
  { apply (visit_pairs_invariant I) in E; [assumption| |].
    - intros d0 w Hw Hd0 n g x Hin Hx. apply dict_append_in in Hin.
      destruct Hin as [Hin|(-> & [->|(g0 & Hg0 & ->)])].
      + now apply (Hd0 n g).
      + destruct Hx as [<-|[]]. assumption.
      + apply in_app_iff in Hx. destruct Hx as [Hx|[<-|[]]]; [|assumption].
        exact (Hd0 (name w) g0 x Hg0 Hx).
    - intros n g w []. }
  assert (Hfin : I wheels -> forall n g w, In (n, g) wheels -> In w g ->
            exists a f,
              In a archs /\ In (a, f) visited /\ fnmatch rex f = true /\
              parse_tags (a ++ "/" ++ f) = inr w /\
              filename w = (a ++ "/" ++ f)%string /\
              compatible w pythons = true).
  { intros HI n g w Hin Hw. destruct (HI n g w Hin Hw) as (a & f & Hv & Hf & Hp & Hc).
    exists a, f. repeat split; auto.
    - eapply traversed_arch, Hv.
    - apply parse_tags_inr in Hp. destruct Hp as (m & _ & ->). reflexivity. }
  destruct latest.
  - intros H. apply Hfin. intros n l w Hin Hw.
    apply latest_versions_groups in H. destruct H as (_ & Hl).
    destruct (Hl _ _ Hin) as (g & Hin' & _ & Hi & _).
    apply (Hd n g); [assumption|now apply Hi].
  - intros H. inv H. now apply Hfin.
Qed.

(** X14: whenever [get_wheels] returns, with or without [latest],
    every wheel of the mapping was made from a file found under one of
    the requested architectures: the file matches the pattern, the
    wheel is what the parser makes of arch/file, which is its file
    name, and its python tag is compatible with one of the requested
    versions. *)
Theorem get_wheels_collected
        (fnmatch : string -> string -> bool) (fs : filesystem)
        (path : string) (archs : list string) (name_ version_ : string)
        (pythons : list string) (latest : bool) (wheels : dict (list Wheel)) :
  get_wheels fnmatch fs path archs name_ version_ pythons latest = inr wheels ->
  forall n g w, In (n, g) wheels -> In w g ->
    exists a f,
      In a archs /\ In (a, f) (traversed fs path archs) /\
      fnmatch (name_ ++ "*" ++ version_ ++ "*.whl")%string f = true /\
      parse_tags (a ++ "/" ++ f) = inr w /\
      filename w = (a ++ "/" ++ f)%string /\
      compatible w pythons = true.
Proof. exact (@get_wheels_provenance fnmatch fs path archs name_ version_ pythons latest wheels). Qed.

Lemma get_wheels_collected_witness :
  let w := mkWheel "avx2/torch_cpu-0.4.0-cp36-cp36m-linux_x86_64.whl"
                   "avx2" "torch_cpu" "0.4.0" None "cp36" "cp36m" "linux_x86_64" in
  exists a f,
    In a ["avx2"%string] /\
    In (a, f) (traversed test_house "wheelhouse_test_dir" ["avx2"%string]) /\
    glob_match ("" ++ "*" ++ "" ++ "*.whl")%string f = true /\
    parse_tags (a ++ "/" ++ f) = inr w /\
    filename w = (a ++ "/" ++ f)%string /\
    compatible w ["3.6"%string] = true.
Proof.
  intros w.
  apply (@get_wheels_collected glob_match test_house "wheelhouse_test_dir"
           ["avx2"%string] "" "" ["3.6"%string] true
           (match get_wheels glob_match test_house "wheelhouse_test_dir"
                             ["avx2"%string] "" "" ["3.6"%string] true with
            | inr d => d
            | inl _ => []
            end)
           ltac:(vm_compute; reflexivity) "torch_cpu"%string [w] w).
  - vm_compute. right. left. reflexivity.
  - now left.
Defined.

Section CollectorEdges.
Variable fnmatch : string -> string -> bool.
Variables (rex : string) (pythons : list string).

Lemma visit_pairs_no_match (visited : list (string * string))
      (d : dict (list Wheel)) :
  (forall a f, In (a, f) visited -> fnmatch rex f = false) ->
  for_each (fun d af => visit_file fnmatch (fst af) rex pythons d (snd af))
           visited d = inr d.
Proof.
  induction visited as [|[a f] visited IH]; intros H; simpl; [reflexivity|].
  unfold visit_file at 1. simpl. rewrite (H a f) by now left. simpl.
  apply IH. intros a' f' Hin. apply (H a' f'). now right.
Qed.

Lemma visit_pairs_unknown (p : string) (visited : list (string * string))
      (d : dict (list Wheel)) :
  supported p = false ->
  (exists a f, In (a, f) visited /\ fnmatch rex f = true) ->
  exists e,
    for_each (fun d af => visit_file fnmatch (fst af) rex (p :: pythons) d (snd af))
             visited d = inl e /\
    (e = KeyError p \/ exists file, e = parse_error file).
Proof.
  intros Hp. induction visited as [|[a f] visited IH]; intros (a0 & f0 & Hin & Hf).
  - destruct Hin.
  - simpl. unfold visit_file at 1. simpl.
    destruct (fnmatch rex f) eqn:Ef; simpl.
    + destruct (parse_tags (a ++ String "/" f)) as [e|w] eqn:Ew; simpl.
      * exists e. split; [reflexivity|]. right. eexists. eapply parse_tags_inl, Ew.
      * change (pythons_loop w (p :: pythons) d)
          with (tags <- dict_item COMPATIBLE_PYTHON p ;;
                if str_in (python w) tags
                then ret (dict_append (name w) w d)
                else pythons_loop w pythons d).
        unfold supported in Hp. unfold dict_item.
        destruct (dict_get COMPATIBLE_PYTHON p); [discriminate|].
        simpl. eauto.
    + apply IH. destruct Hin as [E|Hin]; [inv E; congruence|eauto].
Qed.
End CollectorEdges.

(** X15: when no file under the requested architectures matches the
    pattern, [get_wheels] returns the empty mapping, whatever python
    versions are requested, known or not, and with or without
    [latest]; so it does when no architecture is requested or none of
    the requested ones exists. *)
Theorem get_wheels_no_match
        (fnmatch : string -> string -> bool) (fs : filesystem)
        (path : string) (archs : list string) (name_ version_ : string)
        (pythons : list string) (latest : bool) :
  (forall a f, In (a, f) (traversed fs path archs) ->
               fnmatch (name_ ++ "*" ++ version_ ++ "*.whl")%string f = false) ->
  get_wheels fnmatch fs path archs name_ version_ pythons latest = inr [].
Proof.
  intros H. unfold get_wheels. rewrite visit_archs_pairs.
  rewrite visit_pairs_no_match by assumption. simpl.
  destruct latest; reflexivity.
Qed.

Lemma get_wheels_no_match_witness :
  get_wheels glob_match test_house "wheelhouse_test_dir" ["avx512"%string]
             "numpy" "" ["9.9"%string] true = inr [].
Proof.
  apply (@get_wheels_no_match glob_match test_house "wheelhouse_test_dir"
           ["avx512"%string] "numpy" "" ["9.9"%string] true).
  intros a f [].
Defined.

(** X16: a requested python version that [COMPATIBLE_PYTHON] does not
    know, standing first, makes [get_wheels] raise as soon as one file
    matches the pattern: it raises [KeyError] with that version, unless
    the parser has raised on a file before. *)
Theorem get_wheels_unknown_python
        (fnmatch : string -> string -> bool) (fs : filesystem)
        (path : string) (archs : list string) (name_ version_ : string)
        (p : string) (pythons : list string) (latest : bool) :
  supported p = false ->
  (exists a f, In (a, f) (traversed fs path archs) /\
               fnmatch (name_ ++ "*" ++ version_ ++ "*.whl")%string f = true) ->
  exists e,
    get_wheels fnmatch fs path archs name_ version_ (p :: pythons) latest = inl e /\
    (e = KeyError p \/ exists file, e = parse_error file).
Proof.
  intros Hp Hm. unfold get_wheels. rewrite visit_archs_pairs.
  destruct (@visit_pairs_unknown fnmatch _ pythons p _ [] Hp Hm) as (e & -> & He).
  exists e. auto.
Qed.

Lemma get_wheels_unknown_python_witness :
  exists e,
    get_wheels glob_match test_house "wheelhouse_test_dir" ["avx2"%string]
               "" "" ["3.8"; "3.6"]%string true = inl e /\
    (e = KeyError "3.8" \/ exists file, e = parse_error file).
Proof.
  apply (@get_wheels_unknown_python glob_match test_house "wheelhouse_test_dir"
           ["avx2"%string] "" "" "3.8" ["3.6"%string] true).
  - reflexivity.
  - exists "avx2"%string, "netCDF4-1.3.1-cp27-cp27mu-linux_x86_64.whl"%string.
    split; [now left|reflexivity].
Defined.

(** X17: with no python version requested nothing is collected:
    whenever [get_wheels] returns, it returns the empty mapping. *)
Theorem get_wheels_no_python
        (fnmatch : string -> string -> bool) (fs : filesystem)
        (path : string) (archs : list string) (name_ version_ : string)
        (latest : bool) (wheels : dict (list Wheel)) :
  get_wheels fnmatch fs path archs name_ version_ [] latest = inr wheels ->
  wheels = [].
Proof.
  unfold get_wheels. rewrite visit_archs_pairs.
  match goal with
  | |- context [for_each ?b ?l ?s] => destruct (for_each b l s) as [e|d] eqn:E
  end; simpl; [discriminate|].
  apply (visit_pairs_invariant (fun d => d = [])) in E; [| |reflexivity].
  - subst d. destruct latest; intros H; now inv H.
  - intros d0 w (a & f & _ & _ & _ & Hc). discriminate.
Qed.

Lemma get_wheels_no_python_witness :
  match get_wheels glob_match test_house "wheelhouse_test_dir" ["avx2"%string]
                   "" "" [] true with
  | inr d => d
  | inl _ => []
  end = [].
Proof.
  apply (@get_wheels_no_python glob_match test_house "wheelhouse_test_dir"
           ["avx2"%string] "" "" true).
  vm_compute. reflexivity.
Defined.

(** ** main *)

Lemma same_version_all_comparable (g : list Wheel) (v : list component) :
  (forall w, In w g -> loose_version w = Some v) -> all_comparable g = true.
Proof.
  intros H. unfold all_comparable. apply forallb_forall. intros a Ha.
  apply forallb_forall. intros b Hb. rewrite (H a Ha), (H b Hb).
  unfold comparable. simpl.
  now rewrite list_eqb_compare, (cmp_refl list_total_order).
Qed.

Lemma get_wheels_latest_comparable
      (fnmatch : string -> string -> bool) (fs : filesystem)
      (path : string) (archs : list string) (name_ version_ : string)
      (pythons : list string) (wheels : dict (list Wheel)) :
  get_wheels fnmatch fs path archs name_ version_ pythons true = inr wheels ->
  forall n g, In (n, g) wheels -> all_comparable g = true.
Proof.
  unfold get_wheels.
  match goal with
  | |- context [for_each ?b ?l ?s] => destruct (for_each b l s) as [e|d]
  end; simpl; [discriminate|].
  intros H n g Hin. apply latest_versions_groups in H. destruct H as (_ & Hl).
  destruct (Hl _ _ Hin) as (g0 & _ & _ & _ & v & Hv).
  now apply same_version_all_comparable with v.
Qed.

(** X18: without [--all_versions], [main] fails only where
    [get_wheels] fails: when [get_wheels] returns, the sorts of [sort]
    have one version to compare in each group and do not raise.
    [main] then writes the file names of the wheels, group by group,
    for [--raw], and otherwise hands to [tabulate] the rows of all the
    wheels that [get_wheels] returned, with the columns as headers and
    the format "mediawiki" or "simple". *)
Theorem main_latest (fnmatch : string -> string -> bool) (fs : filesystem)
        (args : Args.t) (wheels : dict (list Wheel)) :
  Args.all_versions args = false ->
  get_wheels fnmatch fs (Args.house args) (Args.arch args) (Args.name args)
             (Args.version args) (Args.python args) true = inr wheels ->
  if Args.raw args
  then main fnmatch fs args = inr (Raw (map (map filename) (values wheels)))
  else exists rows,
         main fnmatch fs args =
           inr (Table rows (Args.column args)
                      (if Args.mediawiki args then "mediawiki" else "simple")%string) /\
         Permutation rows (map (row (Args.column args)) (all_wheels wheels)).
Proof.
  intros Hall Hg. unfold main. rewrite Hall. simpl. rewrite Hg. simpl.
  destruct (Args.raw args); [reflexivity|].
  pose proof (get_wheels_latest_comparable _ _ _ _ _ _ _ Hg) as Hc.
  destruct (get_wheels_grouped _ _ _ _ _ _ _ _ Hg) as (Hnd & _).
  destruct (sort_names (keys wheels)) as (names & En & Hp & _).
  destruct (sort_rows_spec wheels (Args.column args) names Hc) as (groups & Er & _).
  { intros n Hn. now apply (Permutation_in _ (Permutation_sym Hp)). }
  exists (flat_map (map (row (Args.column args))) groups).
  unfold sort. rewrite En. simpl. rewrite Er. simpl. split; [reflexivity|].
  apply sort_rows_perm in Er. rewrite Er, <- (@group_of_keys wheels Hnd).
  now rewrite Hp.
Qed.

Lemma main_latest_witness :
  let args := Args.mk "" false ["avx2"%string] ["3.6"%string] "netCDF4"
                      "wheelhouse_test_dir" false false HEADERS in
  let wheels :=
    match get_wheels glob_match test_house "wheelhouse_test_dir" ["avx2"%string]
                     "netCDF4" "" ["3.6"%string] true with
    | inr d => d
    | inl _ => []
    end in
  exists rows,
    main glob_match test_house args = inr (Table rows HEADERS "simple") /\
    Permutation rows (map (row HEADERS) (all_wheels wheels)).
Proof.
  intros args wheels.
  apply (@main_latest glob_match test_house args wheels); [reflexivity|].
  vm_compute. reflexivity.
Defined.

(** X19: with [--raw], [main] does not sort, and what it writes,
    whenever it writes, are file names arch/file of files found under
    the requested architectures that match the pattern of the name and
    the version, no line being written for a group without wheels. *)
Theorem main_raw (fnmatch : string -> string -> bool) (fs : filesystem)
        (args : Args.t) (out : output) :
  Args.raw args = true ->
  main fnmatch fs args = inr out ->
  exists groups,
    out = Raw groups /\
    forall lines, In lines groups ->
      lines <> [] /\
      forall line, In line lines ->
        exists a f,
          line = (a ++ "/" ++ f)%string /\ In a (Args.arch args) /\
          In (a, f) (traversed fs (Args.house args) (Args.arch args)) /\
          fnmatch (Args.name args ++ "*" ++ Args.version args ++ "*.whl")%string f
          = true.
Proof.
  intros Hraw. unfold main. rewrite Hraw.
  destruct (get_wheels fnmatch fs (Args.house args) (Args.arch args)
                       (Args.name args) (Args.version args) (Args.python args)
                       (negb (Args.all_versions args))) as [e|wheels] eqn:Hg;
    simpl; [discriminate|].
  intros H. inv H. eexists. split; [reflexivity|].
  intros lines Hin. unfold values in Hin. rewrite map_map in Hin.
  apply in_map_iff in Hin. destruct Hin as ([n g] & <- & Hin). simpl.
  destruct (get_wheels_grouped _ _ _ _ _ _ _ _ Hg) as (_ & Hne).
  split.
  - destruct (Hne n g Hin) as (Hg0 & _). destruct g; [congruence|discriminate].
  - intros line Hl. apply in_map_iff in Hl. destruct Hl as (w & <- & Hw).
    destruct (get_wheels_provenance _ _ _ _ _ _ _ _ Hg n g w Hin Hw)
      as (a & f & Ha & Hv & Hf & _ & Hn & _).
    exists a, f. auto.
Qed.

Lemma main_raw_witness :
  let args := Args.mk "" true ["avx2"%string] ["3.6"%string] "netCDF4"
                      "wheelhouse_test_dir" true false HEADERS in
  exists groups,
    Raw [["avx2/netCDF4-1.2.0-cp36-cp36m-linux_x86_64.whl";
          "avx2/netCDF4-1.3.1-cp36-cp36m-linux_x86_64.whl"]%string] = Raw groups /\
    forall lines, In lines groups ->
      lines <> [] /\
      forall line, In line lines ->
        exists a f,
          line = (a ++ "/" ++ f)%string /\ In a (Args.arch args) /\
          In (a, f) (traversed test_house (Args.house args) (Args.arch args)) /\
          glob_match (Args.name args ++ "*" ++ Args.version args ++ "*.whl")%string f
          = true.
Proof.
  intros args.
  apply (@main_raw glob_match test_house args); [reflexivity|].
  vm_compute. reflexivity.
Defined.

(** ** Sorting what is sorted *)











(** X21: the step that stores a wheel, a new list for a new name and an
    addition at the end of the list otherwise, is found again by the
    look-up: after it the group of the name of the wheel is what it was
    before, the wheel behind it, and the group of every other name is
    what it was. *)
Theorem dict_append_get (w : Wheel) (d : dict (list Wheel)) (n : string) :
  dict_get (dict_append (name w) w d) n =
    if String.eqb (name w) n then Some (group_of d n ++ [w]) else dict_get d n.
Proof.
  rewrite dict_get_append. unfold group_of.
  destruct (String.eqb (name w) n); [|reflexivity].
  now destruct (dict_get d n).
Qed.
